(** * Memento MCP: the fragment memory core, embedded in Rocq

    A shallow embedding of the memory subsystem of memento-mcp
    (FragmentFactory, FragmentStore, FragmentIndex, FragmentSearch,
    NLIClassifier, MemoryConsolidator, MemoryManager) and the properties
    of its specification that were checked against it.

    Conventions of the embedding.
    - A JavaScript string is the list of its UTF-16 code units
      ([jsstring]); identifiers, topics and agent names are [string].
    - A PostgreSQL [REAL] / JavaScript number that carries an importance,
      a score or a token budget is an exact rational ([Q]); rounding is
      not modelled.
    - Wall-clock times are milliseconds since the epoch ([Z]); every
      operation receives the current time [now] explicitly.
    - The database is a record of three tables, each a list of rows in
      insertion order.  Every statement issued through
      [queryWithAgentVector] is its own transaction, filtered by the
      row-visibility policy of memory-schema.sql; a statement that the
      database rejects makes the call throw and changes nothing.
    - Code that awaits the database, Redis, the NLI model or the LLM is
      written in a state-and-exception monad over [World]; the external
      services themselves (SHA-256, the embedding provider, cosine
      distance, the NLI model, the Gemini CLI, the tokenizer, the random
      id generator) are the fields of [Oracles]. *)

From Stdlib Require Import List String Ascii ZArith NArith QArith Qround
  Bool Lia Lqa Permutation.
Import ListNotations.

Set Implicit Arguments.

(** ** JavaScript values *)

Definition jsstring := list N.

Definition js (s : string) : jsstring :=
  map N_of_ascii (list_ascii_of_string s).

Definition jslength (s : jsstring) : Z := Z.of_nat (List.length s).

(** [a || b] on numbers: zero is falsy. *)
Definition Qor (a b : Q) : Q := if Qeq_bool a 0 then b else a.
Definition Zor (a b : Z) : Z := if Z.eqb a 0 then b else a.

(** [a || b] on strings: the empty string is falsy. *)
Definition Sor (a b : string) : string :=
  match a with EmptyString => b | _ => a end.

Definition Qlt_bool (a b : Q) : bool := negb (Qle_bool b a).

(** SQL [GREATEST] of two reals. *)
Definition GREATEST (a b : Q) : Q := if Qle_bool a b then b else a.

(** [Math.ceil(n / 4)] for a non-negative integer [n]. *)
Definition ceil_div4 (n : Z) : Z := ((n + 3) / 4)%Z.

Definition mem (x : string) (l : list string) : bool :=
  existsb (String.eqb x) l.

(** A stable insertion sort; [le a b = true] keeps [a] before [b].
    [Array.prototype.sort] and the deterministic reading of
    [ORDER BY] both use it. *)
Section Sort.
Variable A : Type.
Variable le : A -> A -> bool.

Fixpoint insert_sorted (x : A) (l : list A) : list A :=
  match l with
  | [] => [x]
  | y :: t => if le x y then x :: l else y :: insert_sorted x t
  end.

Definition sort_by (l : list A) : list A :=
  fold_right insert_sorted [] l.
End Sort.

(** ** Data model (memory-schema.sql) *)

Inductive FragmentType :=
  fact | decision | error | preference | procedure | relation.

Inductive TTLTier := hot | warm | cold | permanent.

Inductive RelationType :=
  related | caused_by | resolved_by | part_of | contradicts | superseded_by.

Definition FragmentType_eqb (a b : FragmentType) : bool :=
  match a, b with
  | fact, fact | decision, decision | error, error
  | preference, preference | procedure, procedure
  | relation, relation => true
  | _, _ => false
  end.

Definition TTLTier_eqb (a b : TTLTier) : bool :=
  match a, b with
  | hot, hot | warm, warm | cold, cold | permanent, permanent => true
  | _, _ => false
  end.

Definition RelationType_eqb (a b : RelationType) : bool :=
  match a, b with
  | related, related | caused_by, caused_by | resolved_by, resolved_by
  | part_of, part_of | contradicts, contradicts
  | superseded_by, superseded_by => true
  | _, _ => false
  end.

Definition Vec := list Q.

(** A row of [agent_memory.fragments]. *)
Record Fragment := mkFragment {
  id               : string;
  content          : jsstring;
  topic            : string;
  keywords         : list string;
  type             : FragmentType;
  importance       : Q;
  content_hash     : string;
  source           : option string;
  linked_to        : list string;
  agent_id         : string;
  access_count     : Z;
  accessed_at      : option Z;
  created_at       : Z;
  ttl_tier         : TTLTier;
  estimated_tokens : Z;
  utility_score    : Q;
  verified_at      : option Z;
  embedding        : option Vec;
  is_anchor        : bool
}.

(** A row of [agent_memory.fragment_links]; [(from_id, to_id)] is unique. *)
Record FragmentLink := mkLink {
  from_id       : string;
  to_id         : string;
  relation_type : RelationType
}.

(** A row of [agent_memory.fragment_versions]. *)
Record FragmentVersion := mkVersion {
  fragment_id  : string;
  v_content    : jsstring;
  v_topic      : string;
  v_keywords   : list string;
  v_type       : FragmentType;
  v_importance : Q;
  amended_at   : Z;
  amended_by   : string
}.

Record DB := mkDB {
  fragments         : list Fragment;
  fragment_links    : list FragmentLink;
  fragment_versions : list FragmentVersion
}.

(** Column assignments of [UPDATE ... SET]. *)
Definition set_importance (v : Q) (r : Fragment) : Fragment :=
  mkFragment (id r) (content r) (topic r) (keywords r) (type r) v
    (content_hash r) (source r) (linked_to r) (agent_id r) (access_count r)
    (accessed_at r) (created_at r) (ttl_tier r) (estimated_tokens r)
    (utility_score r) (verified_at r) (embedding r) (is_anchor r).

Definition set_ttl_tier (v : TTLTier) (r : Fragment) : Fragment :=
  mkFragment (id r) (content r) (topic r) (keywords r) (type r) (importance r)
    (content_hash r) (source r) (linked_to r) (agent_id r) (access_count r)
    (accessed_at r) (created_at r) v (estimated_tokens r)
    (utility_score r) (verified_at r) (embedding r) (is_anchor r).

Definition set_linked_to (v : list string) (r : Fragment) : Fragment :=
  mkFragment (id r) (content r) (topic r) (keywords r) (type r) (importance r)
    (content_hash r) (source r) v (agent_id r) (access_count r)
    (accessed_at r) (created_at r) (ttl_tier r) (estimated_tokens r)
    (utility_score r) (verified_at r) (embedding r) (is_anchor r).

Definition set_access (n : Z) (t : option Z) (r : Fragment) : Fragment :=
  mkFragment (id r) (content r) (topic r) (keywords r) (type r) (importance r)
    (content_hash r) (source r) (linked_to r) (agent_id r) n
    t (created_at r) (ttl_tier r) (estimated_tokens r)
    (utility_score r) (verified_at r) (embedding r) (is_anchor r).

Definition set_content (c : jsstring) (h : string) (r : Fragment) : Fragment :=
  mkFragment (id r) c (topic r) (keywords r) (type r) (importance r)
    h (source r) (linked_to r) (agent_id r) (access_count r)
    (accessed_at r) (created_at r) (ttl_tier r) (estimated_tokens r)
    (utility_score r) (verified_at r) None (is_anchor r).

Definition set_topic (v : string) (r : Fragment) : Fragment :=
  mkFragment (id r) (content r) v (keywords r) (type r) (importance r)
    (content_hash r) (source r) (linked_to r) (agent_id r) (access_count r)
    (accessed_at r) (created_at r) (ttl_tier r) (estimated_tokens r)
    (utility_score r) (verified_at r) (embedding r) (is_anchor r).

Definition set_keywords (v : list string) (r : Fragment) : Fragment :=
  mkFragment (id r) (content r) (topic r) v (type r) (importance r)
    (content_hash r) (source r) (linked_to r) (agent_id r) (access_count r)
    (accessed_at r) (created_at r) (ttl_tier r) (estimated_tokens r)
    (utility_score r) (verified_at r) (embedding r) (is_anchor r).

Definition set_type (v : FragmentType) (r : Fragment) : Fragment :=
  mkFragment (id r) (content r) (topic r) (keywords r) v (importance r)
    (content_hash r) (source r) (linked_to r) (agent_id r) (access_count r)
    (accessed_at r) (created_at r) (ttl_tier r) (estimated_tokens r)
    (utility_score r) (verified_at r) (embedding r) (is_anchor r).

Definition set_is_anchor (v : bool) (r : Fragment) : Fragment :=
  mkFragment (id r) (content r) (topic r) (keywords r) (type r) (importance r)
    (content_hash r) (source r) (linked_to r) (agent_id r) (access_count r)
    (accessed_at r) (created_at r) (ttl_tier r) (estimated_tokens r)
    (utility_score r) (verified_at r) (embedding r) v.

Definition set_verified_at (v : option Z) (r : Fragment) : Fragment :=
  mkFragment (id r) (content r) (topic r) (keywords r) (type r) (importance r)
    (content_hash r) (source r) (linked_to r) (agent_id r) (access_count r)
    (accessed_at r) (created_at r) (ttl_tier r) (estimated_tokens r)
    (utility_score r) v (embedding r) (is_anchor r).

Definition set_utility_score (v : Q) (r : Fragment) : Fragment :=
  mkFragment (id r) (content r) (topic r) (keywords r) (type r) (importance r)
    (content_hash r) (source r) (linked_to r) (agent_id r) (access_count r)
    (accessed_at r) (created_at r) (ttl_tier r) (estimated_tokens r)
    v (verified_at r) (embedding r) (is_anchor r).

Definition set_embedding (v : option Vec) (r : Fragment) : Fragment :=
  mkFragment (id r) (content r) (topic r) (keywords r) (type r) (importance r)
    (content_hash r) (source r) (linked_to r) (agent_id r) (access_count r)
    (accessed_at r) (created_at r) (ttl_tier r) (estimated_tokens r)
    (utility_score r) (verified_at r) v (is_anchor r).

Definition set_id (v : string) (r : Fragment) : Fragment :=
  mkFragment v (content r) (topic r) (keywords r) (type r) (importance r)
    (content_hash r) (source r) (linked_to r) (agent_id r) (access_count r)
    (accessed_at r) (created_at r) (ttl_tier r) (estimated_tokens r)
    (utility_score r) (verified_at r) (embedding r) (is_anchor r).

Definition set_agent_id (v : string) (r : Fragment) : Fragment :=
  mkFragment (id r) (content r) (topic r) (keywords r) (type r) (importance r)
    (content_hash r) (source r) (linked_to r) v (access_count r)
    (accessed_at r) (created_at r) (ttl_tier r) (estimated_tokens r)
    (utility_score r) (verified_at r) (embedding r) (is_anchor r).

(** A fragment as a JavaScript object in a result list: the row, the
    cosine similarity when the semantic tier produced it, the relation
    when link expansion produced it, and the stale annotation. *)
Record Hit := mkHit {
  row             : Fragment;
  hit_similarity  : option Q;
  hit_relation    : option RelationType;
  hit_stale       : option Z   (* metadata.days_since_verification *)
}.

Definition plain (r : Fragment) : Hit := mkHit r None None None.

(** ** Configuration (config/memory.js) *)

Definition importanceWeight : Q := 0.6.
Definition recencyWeight : Q := 0.4.
Definition activationThreshold : Z := 100.
Definition staleThresholds (t : FragmentType) : Z :=
  match t with procedure => 30 | fact => 60 | decision => 90 | _ => 60 end.
Definition linkedFragmentLimit : nat := 10.

(** ** Redis keyspaces (FragmentIndex.js) *)

(** An entry of the working-memory list [frag:wm:<session>]. *)
Record WMEntry := mkWMEntry {
  wm_id               : string;
  wm_content          : jsstring;
  wm_type             : FragmentType;
  wm_topic            : string;
  wm_importance       : Q;
  wm_estimated_tokens : Z;
  added_at            : Z
}.

(** A job of the [memory_evaluation] queue. *)
Record EvalJob := mkEvalJob {
  job_fragmentId : string;
  job_agentId    : string;
  job_type       : FragmentType;
  job_content    : jsstring
}.

(** An entry of the [frag:pending_contradictions] queue. *)
Record PendingContradiction := mkPending {
  idA       : string;
  idB       : string;
  contentA  : jsstring;
  contentB  : jsstring;
  flaggedAt : Z
}.

Record Redis := mkRedis {
  ready                  : bool;                        (* redisClient.status === "ready" *)
  frag_kw                : string -> list string;       (* frag:kw:<keyword>   *)
  frag_tp                : string -> list string;       (* frag:tp:<topic>     *)
  frag_ty                : FragmentType -> list string; (* frag:ty:<type>      *)
  frag_recent            : list (Z * string);           (* frag:recent         *)
  frag_hot               : string -> option Hit;        (* frag:hot:<id>       *)
  frag_sess              : string -> list string;       (* frag:sess:<session> *)
  frag_wm                : string -> list WMEntry;      (* frag:wm:<session>   *)
  memory_evaluation      : list EvalJob;
  pending_contradictions : list PendingContradiction;
  contradiction_check_at : option Z
}.

(** ** The world and its monad *)

(** What the Node process can reach: the database, Redis, and the log
    of prompts sent to the Gemini CLI. *)
Record World := mkWorld {
  db        : DB;
  redis     : Redis;
  llm_calls : list (jsstring * jsstring)
}.

Inductive outcome (A : Type) :=
| Return (a : A) (w : World)
| Throw (w : World).

Arguments Return {A} a w.
Arguments Throw {A} w.

Definition M (A : Type) := World -> outcome A.

Definition ret {A} (a : A) : M A := fun w => Return a w.

Definition bind {A B} (m : M A) (k : A -> M B) : M B :=
  fun w => match m w with
           | Return a w' => k a w'
           | Throw w' => Throw w'
           end.

Definition throw {A} : M A := fun w => Throw w.

(** [try { m } catch { h }] *)
Definition try_catch {A} (m : M A) (h : M A) : M A :=
  fun w => match m w with
           | Return a w' => Return a w'
           | Throw w' => h w'
           end.

Notation "x <- m ;; k" := (bind m (fun x => k))
  (at level 61, m at next level, right associativity).
Notation "m ;;; k" := (bind m (fun _ => k))
  (at level 61, right associativity).

Definition getDB : M DB := fun w => Return (db w) w.
Definition putDB (d : DB) : M unit :=
  fun w => Return tt (mkWorld d (redis w) (llm_calls w)).
Definition getRedis : M Redis := fun w => Return (redis w) w.
Definition putRedis (r : Redis) : M unit :=
  fun w => Return tt (mkWorld (db w) r (llm_calls w)).
Definition logLLM (a b : jsstring) : M unit :=
  fun w => Return tt (mkWorld (db w) (redis w) (llm_calls w ++ [(a, b)])).

Fixpoint forM {A} (l : list A) (f : A -> M unit) : M unit :=
  match l with
  | [] => ret tt
  | x :: t => f x ;;; forM t f
  end.

(** The final world of a run, whether it returned or threw. *)
Definition final {A} (o : outcome A) : World :=
  match o with Return _ w => w | Throw w => w end.

Definition result {A} (o : outcome A) : option A :=
  match o with Return a _ => Some a | Throw _ => None end.

(** ** Row visibility (fragment_isolation_policy) *)

Definition is_agent_char (c : ascii) : bool :=
  let n := nat_of_ascii c in
  ((48 <=? n) && (n <=? 57) || (65 <=? n) && (n <=? 90)
   || (97 <=? n) && (n <=? 122) || (n =? 95) || (n =? 45))%nat.

Fixpoint filter_string (p : ascii -> bool) (s : string) : string :=
  match s with
  | EmptyString => EmptyString
  | String c t => if p c then String c (filter_string p t)
                  else filter_string p t
  end.

(** [String(agentId || "default").replace(/[^a-zA-Z0-9_\-]/g, "")] *)
Definition safeAgent (agentId : string) : string :=
  filter_string is_agent_char (Sor agentId "default").

(** The [USING] clause of the policy, for the session variable
    [app.current_agent_id = safeAgent agentId]. *)
Definition visible (agentId : string) (r : Fragment) : bool :=
  let a := safeAgent agentId in
  String.eqb (agent_id r) a || String.eqb (agent_id r) "default"
  || String.eqb a "system" || String.eqb a "admin".

(** ** SQL statements over [fragments] *)

(** [SELECT ... FROM fragments WHERE p] *)
Definition sql_select (agentId : string) (p : Fragment -> bool) (d : DB)
  : list Fragment :=
  filter (fun r => visible agentId r && p r) (fragments d).

(** [UPDATE fragments SET f WHERE p]; the row stays in place. *)
Definition sql_update (agentId : string) (p : Fragment -> bool)
  (f : Fragment -> Fragment) (d : DB) : DB :=
  mkDB (map (fun r => if visible agentId r && p r then f r else r)
            (fragments d))
       (fragment_links d) (fragment_versions d).

(** [DELETE FROM fragments WHERE p]; both foreign keys of
    [fragment_links] and the one of [fragment_versions] are
    [ON DELETE CASCADE]. *)
Definition sql_delete (agentId : string) (p : Fragment -> bool) (d : DB)
  : DB :=
  let gone := map id (sql_select agentId p d) in
  mkDB (filter (fun r => negb (visible agentId r && p r)) (fragments d))
       (filter (fun l => negb (mem (from_id l) gone || mem (to_id l) gone))
               (fragment_links d))
       (filter (fun v => negb (mem (fragment_id v) gone))
               (fragment_versions d)).

Definition rowCount (agentId : string) (p : Fragment -> bool) (d : DB) : nat :=
  List.length (sql_select agentId p d).

(** ** External collaborators *)

(** The softmax distribution returned by [classifyNLI]. *)
Record NLIScores := mkScores {
  entailment    : Q;
  neutral       : Q;
  contradiction : Q
}.

Record Oracles := mkOracles {
  (** SHA-256 hex digest of the UTF-8 bytes (tools/embedding.js). *)
  computeContentHash   : jsstring -> string;
  (** Whether an embedding API key is configured. *)
  OPENAI_API_KEY       : bool;
  (** [generateEmbedding(prepareTextForEmbedding(text, 500))];
      [None] when the provider call throws. *)
  generateEmbedding    : jsstring -> option Vec;
  (** pgvector: [1 - (a <=> b)]. *)
  similarity           : Vec -> Vec -> Q;
  (** js-tiktoken [cl100k_base] length, or [ceil(len / 4)]. *)
  countTokens          : jsstring -> Z;
  (** [FragmentFactory.extractKeywords]. *)
  extractKeywords      : jsstring -> list string;
  (** [String.prototype.toLowerCase] on a keyword. *)
  toLowerCase          : string -> string;
  (** [classifyNLI(premise, hypothesis)]; [None] when the model is
      unavailable or inference fails. *)
  classifyNLI          : jsstring -> jsstring -> option NLIScores;
  isNLIAvailable       : bool;
  isGeminiCLIAvailable : bool;
  (** The [contradicts] field of the Gemini CLI verdict; [None] when the
      call or the parse fails. *)
  geminiCLIJson        : jsstring -> jsstring -> option bool;
  (** PostgreSQL [LN] on a positive integer. *)
  LN                   : Z -> Q;
  (** The keyword sets after [pruneKeywordIndexes] removed random
      members from the oversized ones. *)
  pruneKeywordSets     : (string -> list string) -> string -> list string
}.

Definition DAY : Z := 86400000.

(** ** FragmentStore (the second, agent-aware class of the store file) *)

Section FragmentStore.
Variable O : Oracles.

Definition modifyDB (f : DB -> DB) : M unit :=
  d <- getDB ;; putDB (f d).

Definition id_is (i : string) (r : Fragment) : bool := String.eqb (id r) i.

(** [CHECK (importance >= 0 AND importance <= 1)] *)
Definition check_importance (r : Fragment) : bool :=
  Qle_bool 0 (importance r) && Qle_bool (importance r) 1.

(** [INSERT INTO fragments ... ON CONFLICT (content_hash) DO UPDATE SET
    importance = GREATEST(fragments.importance, EXCLUDED.importance),
    accessed_at = NOW() RETURNING id].
    A conflicting row the policy hides, a duplicate primary key, a
    failed [CHECK] and a new row the policy rejects raise an error. *)
Definition sql_insert_fragment (now : Z) (agentId : string)
  (row : Fragment) : M string :=
  d <- getDB ;;
  match find (fun r => String.eqb (content_hash r) (content_hash row))
             (fragments d) with
  | Some r =>
      if visible agentId r then
        putDB (sql_update agentId (id_is (id r))
                 (fun x => set_access (access_count x) (Some now)
                    (set_importance
                       (GREATEST (importance x) (importance row)) x)) d) ;;;
        ret (id r)
      else throw
  | None =>
      if mem (id row) (map id (fragments d)) then throw
      else if negb (check_importance row) then throw
      else if negb (visible agentId row) then throw
      else
        putDB (mkDB (fragments d ++ [row]) (fragment_links d)
                    (fragment_versions d)) ;;;
        ret (id row)
  end.

(** [FragmentStore.insert(fragment)] *)
Definition FragmentStore_insert (now : Z) (fragment : Fragment) : M string :=
  let agentId := Sor (agent_id fragment) "default" in
  let contentHash := computeContentHash O (content fragment) in
  d <- getDB ;;
  match sql_select agentId
          (fun r => String.eqb (content_hash r) contentHash) d with
  | dup :: _ => ret (id dup)
  | [] =>
      let emb :=
        if Qlt_bool 0.5 (importance fragment) && OPENAI_API_KEY O
        then generateEmbedding O (content fragment) else None in
      let estimatedTokens :=
        Zor (estimated_tokens fragment)
            (ceil_div4 (jslength (content fragment))) in
      rid <- sql_insert_fragment now agentId
        (mkFragment (id fragment) (content fragment) (topic fragment)
           (keywords fragment) (type fragment)
           (Qor (importance fragment) 0.5) contentHash (source fragment)
           (linked_to fragment) agentId
           0%Z None now (ttl_tier fragment) estimatedTokens 1 (Some now)
           emb false) ;;
      ret (Sor rid (id fragment))
  end.

(** The database after the [INSERT INTO fragment_versions] of
    [archiveVersion]; [fragment_id] is a foreign key. *)
Definition archive_db (now : Z) (fragment : Fragment) (agentId : string)
  (d : DB) : DB :=
  if existsb (id_is (id fragment)) (fragments d) then
    mkDB (fragments d) (fragment_links d)
      (fragment_versions d ++
         [mkVersion (id fragment) (content fragment) (topic fragment)
            (keywords fragment) (type fragment) (importance fragment)
            now agentId])
  else d.

(** [FragmentStore.archiveVersion(fragment, agentId)]; the insert's
    rejection is swallowed by [.catch]. *)
Definition FragmentStore_archiveVersion (now : Z) (fragment : Fragment)
  (agentId : string) : M unit :=
  modifyDB (archive_db now fragment agentId).

(** [FragmentStore.getById(id, agentId)] *)
Definition FragmentStore_getById (i : string) (agentId : string)
  : M (option Fragment) :=
  d <- getDB ;; ret (hd_error (sql_select agentId (id_is i) d)).

(** [FragmentStore.getByIds(ids, agentId)]:
    [ORDER BY importance DESC, accessed_at DESC NULLS LAST]. *)
Definition accessed_ge (a b : Fragment) : bool :=
  match accessed_at a, accessed_at b with
  | Some x, Some y => (y <=? x)%Z
  | Some _, None => true
  | None, Some _ => false
  | None, None => true
  end.

Definition FragmentStore_getByIds (ids : list string) (agentId : string)
  : M (list Fragment) :=
  match ids with
  | [] => ret []
  | _ =>
    d <- getDB ;;
    ret (sort_by
           (fun a b =>
              Qlt_bool (importance b) (importance a)
              || Qeq_bool (importance a) (importance b) && accessed_ge a b)
           (sql_select agentId (fun r => mem (id r) ids) d))
  end.

(** The largest value of an [INTEGER] column. *)
Definition INT4_MAX : Z := 2147483647.

(** [FragmentStore.incrementAccess(ids, agentId)].  [access_count] is an
    [INTEGER]: when one of the rows to update holds the largest value
    the statement fails with "integer out of range" and updates no row;
    the [catch] of the call logs the error, so the call returns. *)
Definition FragmentStore_incrementAccess (now : Z) (ids : list string)
  (agentId : string) : M unit :=
  match ids with
  | [] => ret tt
  | _ =>
    d <- getDB ;;
    if existsb (fun r => (INT4_MAX <? access_count r + 1)%Z)
               (sql_select agentId (fun r => mem (id r) ids) d)
    then ret tt
    else
      putDB (sql_update agentId (fun r => mem (id r) ids)
               (fun r => set_access (access_count r + 1) (Some now) r) d)
  end.

(** The [updates] object of [FragmentStore.update]; an absent field is
    [undefined]. *)
Record Updates := mkUpdates {
  u_content    : option jsstring;
  u_topic      : option string;
  u_keywords   : option (list string);
  u_type       : option FragmentType;
  u_importance : option Q;
  u_is_anchor  : option bool
}.

Inductive UpdateResult :=
| UpdNull                          (* null *)
| UpdMerged (existingId : string)  (* { merged: true, existingId } *)
| UpdRow (row : Fragment).         (* the row as RETURNING gives it *)

Definition opt_set {A} (o : option A) (f : A -> Fragment -> Fragment)
  (r : Fragment) : Fragment :=
  match o with Some v => f v r | None => r end.

(** The [SET] clauses collected from [updates], without the two
    timestamps. *)
Definition apply_updates (u : Updates) (r : Fragment) : Fragment :=
  opt_set (u_is_anchor u) set_is_anchor
    (opt_set (u_importance u) set_importance
       (opt_set (u_type u) set_type
          (opt_set (u_keywords u) set_keywords
             (opt_set (u_topic u) set_topic
                (opt_set (u_content u)
                   (fun c => set_content c (computeContentHash O c))
                   r))))).

Definition no_updates (u : Updates) : bool :=
  match u_content u, u_topic u, u_keywords u, u_type u, u_importance u,
        u_is_anchor u with
  | None, None, None, None, None, None => true
  | _, _, _, _, _, _ => false
  end.

(** [UPDATE fragments SET ... WHERE id = $1 RETURNING ...]: the unique
    index rejects a changed [content_hash] that another row holds, and
    the [CHECK] on [importance] can reject the new row. *)
Definition sql_update_row (agentId : string) (i : string)
  (f : Fragment -> Fragment) : M (option Fragment) :=
  d <- getDB ;;
  match sql_select agentId (id_is i) d with
  | [] => ret None
  | r :: _ =>
      let r' := f r in
      if negb (String.eqb (content_hash r') (content_hash r))
         && existsb (fun x => negb (id_is i x)
                              && String.eqb (content_hash x)
                                            (content_hash r'))
                    (fragments d) then throw
      else if negb (check_importance r') then throw
      else putDB (sql_update agentId (id_is i) f d) ;;; ret (Some r')
  end.

(** [FragmentStore.update(id, updates, agentId)] *)
Definition FragmentStore_update (now : Z) (i : string) (updates : Updates)
  (agentId : string) : M UpdateResult :=
  existing <- FragmentStore_getById i agentId ;;
  match existing with
  | None => ret UpdNull
  | Some existing =>
      FragmentStore_archiveVersion now existing agentId ;;;
      d <- getDB ;;
      let dup :=
        match u_content updates with
        | Some c =>
            sql_select agentId
              (fun r => String.eqb (content_hash r) (computeContentHash O c)
                        && negb (id_is i r)) d
        | None => []
        end in
      match dup with
      | x :: _ => ret (UpdMerged (id x))
      | [] =>
          if no_updates updates then ret (UpdRow existing)
          else
            r <- sql_update_row agentId i
                   (fun r => set_access (access_count r) (Some now)
                               (set_verified_at (Some now)
                                  (apply_updates updates r))) ;;
            ret (match r with Some r => UpdRow r | None => UpdNull end)
      end
  end.

(** [FragmentStore.delete(id, agentId)].  The class body declares
    [delete] twice; a later method definition replaces an earlier one
    of the same name, so this one, the last, is what every caller
    reaches. *)
Definition FragmentStore_delete (i : string) (agentId : string) : M bool :=
  d <- getDB ;;
  putDB (sql_delete agentId (id_is i) d) ;;;
  ret (Nat.ltb 0 (rowCount agentId (id_is i) d)).

Definition remove_id (i : string) (l : list string) : list string :=
  filter (fun x => negb (String.eqb x i)) l.

(** The first declaration of [delete] in the class body, which the
    second one replaces: it also removes the links by hand and strips the
    id from every [linked_to] array. *)
Definition FragmentStore_delete_shadowed (i : string) (agentId : string)
  : M bool :=
  modifyDB (fun d =>
    mkDB (fragments d)
         (filter (fun l => negb (String.eqb (from_id l) i
                                 || String.eqb (to_id l) i))
                 (fragment_links d))
         (fragment_versions d)) ;;;
  modifyDB (sql_update agentId (fun r => mem i (linked_to r))
              (fun r => set_linked_to (remove_id i (linked_to r)) r)) ;;;
  d <- getDB ;;
  putDB (sql_delete agentId (id_is i) d) ;;;
  ret (Nat.ltb 0 (rowCount agentId (id_is i) d)).

Definition link_is (a b : string) (l : FragmentLink) : bool :=
  String.eqb (from_id l) a && String.eqb (to_id l) b.

Definition upsert (fromId toId : string) (rel : RelationType)
  (l : list FragmentLink) : list FragmentLink :=
  if existsb (link_is fromId toId) l
  then map (fun x => if link_is fromId toId x
                     then mkLink fromId toId rel else x) l
  else l ++ [mkLink fromId toId rel].

(** [INSERT INTO fragment_links ... ON CONFLICT (from_id, to_id) DO
    UPDATE SET relation_type = $3]; both ids are foreign keys. *)
Definition sql_upsert_link (fromId toId : string) (rel : RelationType)
  : M unit :=
  d <- getDB ;;
  if existsb (id_is fromId) (fragments d)
     && existsb (id_is toId) (fragments d) then
    putDB (mkDB (fragments d) (upsert fromId toId rel (fragment_links d))
             (fragment_versions d))
  else throw.

Definition append_link (target : string) (r : Fragment) : Fragment :=
  set_linked_to (linked_to r ++ [target]) r.

(** [FragmentStore.createLink(fromId, toId, relationType, agentId)] *)
Definition FragmentStore_createLink (fromId toId : string)
  (relationType : RelationType) (agentId : string) : M unit :=
  sql_upsert_link fromId toId relationType ;;;
  modifyDB (sql_update agentId
              (fun r => id_is fromId r && negb (mem toId (linked_to r)))
              (append_link toId)) ;;;
  modifyDB (sql_update agentId
              (fun r => id_is toId r && negb (mem fromId (linked_to r)))
              (append_link fromId)).

(** The database after a [createLink] whose two ids exist. *)
Definition createLink_db (fromId toId : string) (rel : RelationType)
  (agentId : string) (d : DB) : DB :=
  sql_update agentId
    (fun r => id_is toId r && negb (mem fromId (linked_to r)))
    (append_link fromId)
    (sql_update agentId
       (fun r => id_is fromId r && negb (mem toId (linked_to r)))
       (append_link toId)
       (mkDB (fragments d) (upsert fromId toId rel (fragment_links d))
             (fragment_versions d))).

(** The [updates] object that changes the importance alone. *)
Definition only_importance (v : Q) : Updates :=
  mkUpdates None None None None (Some v) None.

(** The assignments of [update] for [only_importance v]. *)
Definition touch_importance (now : Z) (v : Q) (x : Fragment) : Fragment :=
  set_access (access_count x) (Some now)
    (set_verified_at (Some now) (set_importance v x)).

(** *** Maintenance sweeps (run as the [system] principal) *)

Definition older_than (t : option Z) (limit : Z) : bool :=
  match t with None => true | Some a => (a <? limit)%Z end.

(** The [WHERE] clause of [deleteExpired].  [array_length] of an empty
    array is [NULL], so the last two conjuncts hold exactly for a
    [linked_to] of one element. *)
Definition expired (now : Z) (r : Fragment) : bool :=
  Qlt_bool (importance r) 0.1
  && negb (TTLTier_eqb (ttl_tier r) permanent)
  && negb (is_anchor r)
  && older_than (accessed_at r) (now - 90 * DAY)
  && (created_at r <? now - 90 * DAY)%Z
  && negb (Nat.eqb (List.length (linked_to r)) 0)
  && Nat.ltb (List.length (linked_to r)) 2.

(** [FragmentStore.deleteExpired()] *)
Definition FragmentStore_deleteExpired (now : Z) : M nat :=
  d <- getDB ;;
  putDB (sql_delete "system" (expired now) d) ;;;
  ret (rowCount "system" (expired now) d).

Definition decays (now : Z) (r : Fragment) : bool :=
  negb (TTLTier_eqb (ttl_tier r) permanent)
  && negb (FragmentType_eqb (type r) preference)
  && negb (is_anchor r)
  && older_than (accessed_at r) (now - 1 * DAY).

(** [FragmentStore.decayImportance()] *)
Definition FragmentStore_decayImportance (now : Z) : M unit :=
  modifyDB (sql_update "system" (decays now)
              (fun r => set_importance (importance r * 0.995) r)).

Definition not_permanent (r : Fragment) : bool :=
  negb (TTLTier_eqb (ttl_tier r) permanent).

Definition goes_cold (now : Z) (r : Fragment) : bool :=
  TTLTier_eqb (ttl_tier r) warm
  && (Qlt_bool (importance r) 0.3
      || match accessed_at r with
         | None => (created_at r <? now - 30 * DAY)%Z
         | Some a => (a <? now - 30 * DAY)%Z
         end).

(** [FragmentStore.transitionTTL()]: three promotions, then the
    demotion. *)
Definition FragmentStore_transitionTTL (now : Z) : M unit :=
  modifyDB (sql_update "system"
              (fun r => FragmentType_eqb (type r) preference
                        && not_permanent r)
              (set_ttl_tier permanent)) ;;;
  modifyDB (sql_update "system"
              (fun r => Nat.leb 5 (List.length (linked_to r))
                        && not_permanent r)
              (set_ttl_tier permanent)) ;;;
  modifyDB (sql_update "system"
              (fun r => Qle_bool 0.8 (importance r) && not_permanent r)
              (set_ttl_tier permanent)) ;;;
  modifyDB (sql_update "system" (goes_cold now) (set_ttl_tier cold)).

(** [FragmentStore.generateMissingEmbeddings(batchSize)] *)
Definition FragmentStore_generateMissingEmbeddings (batchSize : nat)
  : M nat :=
  if negb (OPENAI_API_KEY O) then ret 0%nat
  else
    d <- getDB ;;
    let rows :=
      firstn batchSize
        (sort_by (fun a b => Qle_bool (importance b) (importance a))
           (sql_select "system"
              (fun r => match embedding r with None => true | _ => false end
                        && Qlt_bool 0.5 (importance r)) d)) in
    forM rows (fun row =>
      match generateEmbedding O (content row) with
      | Some vec =>
          modifyDB (sql_update "system" (id_is (id row))
                      (set_embedding (Some vec)))
      | None => ret tt
      end) ;;;
    ret (List.length
           (filter (fun row => match generateEmbedding O (content row) with
                               | Some _ => true | None => false end) rows)).

(** *** Queries of the read path *)

Definition superseded (d : DB) (r : Fragment) : bool :=
  existsb (fun l => String.eqb (from_id l) (id r)
                    && RelationType_eqb (relation_type l) superseded_by)
          (fragment_links d).

Record SearchOptions := mkSearchOptions {
  o_type          : option FragmentType;
  o_topic         : option string;   (* the empty topic is falsy *)
  o_minImportance : Q;               (* zero is falsy *)
  o_limit         : nat;
  o_agentId       : string
}.

Definition opt_eqb {A} (eqb : A -> A -> bool) (o : option A) (x : A) : bool :=
  match o with None => true | Some v => eqb x v end.

(** [FragmentStore.searchByKeywords(keywords, options)] *)
Definition FragmentStore_searchByKeywords (kws : list string)
  (options : SearchOptions) : M (list Fragment) :=
  d <- getDB ;;
  ret (firstn (match o_limit options with 0%nat => 20%nat | n => n end)
         (sort_by
            (fun a b =>
               Qlt_bool (importance b) (importance a)
               || Qeq_bool (importance a) (importance b)
                  && (created_at b <=? created_at a)%Z)
            (sql_select (Sor (o_agentId options) "default")
               (fun r =>
                  existsb (fun k => mem k kws) (keywords r)
                  && opt_eqb FragmentType_eqb (o_type options) (type r)
                  && match o_topic options with
                     | None | Some EmptyString => true
                     | Some t => String.eqb (topic r) t
                     end
                  && (Qeq_bool (o_minImportance options) 0
                      || Qle_bool (o_minImportance options) (importance r))
                  && negb (superseded d r)) d))).

(** [FragmentStore.searchBySemantic(vec, limit, minSimilarity, agentId)] *)
Definition FragmentStore_searchBySemantic (q : Vec) (limit : nat)
  (minSimilarity : Q) (agentId : string) : M (list Hit) :=
  d <- getDB ;;
  let sim r := match embedding r with
               | Some e => similarity O e q | None => 0 end in
  ret (map (fun r => mkHit r (Some (sim r)) None None)
         (firstn limit
            (sort_by (fun a b => Qle_bool (sim b) (sim a))
               (sql_select agentId
                  (fun r => match embedding r with
                            | Some _ => Qle_bool minSimilarity (sim r)
                            | None => false end
                            && negb (superseded d r)) d)))).

Definition relation_priority (r : RelationType) : nat :=
  match r with resolved_by => 1 | caused_by => 2 | _ => 3 end.

Definition hit_eqb (a b : Hit) : bool :=
  String.eqb (id (row a)) (id (row b))
  && match hit_relation a, hit_relation b with
     | Some x, Some y => RelationType_eqb x y
     | None, None => true
     | _, _ => false
     end.

Fixpoint distinct (l : list Hit) : list Hit :=
  match l with
  | [] => []
  | h :: t => h :: filter (fun x => negb (hit_eqb h x)) (distinct t)
  end.

(** PostgreSQL accepts a [SELECT DISTINCT] only when every [ORDER BY]
    expression is an item of the select list; otherwise the statement is
    rejected before it reads a row (error 42P10). *)
Definition select_distinct_accepted (select_list order_by : list string)
  : bool :=
  forallb (fun e => mem e select_list) order_by.

(** The select list and the [ORDER BY] expressions of the statement of
    [getLinkedFragments]; both of its variants have the same. *)
Definition linked_select_list : list string :=
  ["f.id"; "f.content"; "f.topic"; "f.keywords"; "f.type"; "f.importance";
   "f.linked_to"; "f.access_count"; "f.created_at"; "f.verified_at";
   "l.relation_type"]%string.

Definition linked_order_by : list string :=
  ["CASE l.relation_type WHEN 'resolved_by' THEN 1 WHEN 'caused_by' THEN 2 ELSE 3 END";
   "f.importance"]%string.

(** [FragmentStore.getLinkedFragments(fromIds, relationType, agentId)];
    every value of [RelationType] is on the whitelist.  The statement is
    a [SELECT DISTINCT] ordered by a [CASE] expression that its select
    list does not hold: the database rejects it, the transaction is
    rolled back and the call throws, whatever the tables hold.  The rows
    that the statement asks for are written out below it. *)
Definition FragmentStore_getLinkedFragments (fromIds : list string)
  (relationType : option RelationType) (agentId : string) : M (list Hit) :=
  match fromIds with
  | [] => ret []
  | _ =>
    if negb (select_distinct_accepted linked_select_list linked_order_by)
    then throw else
    d <- getDB ;;
    let wanted l :=
      mem (from_id l) fromIds
      && match relationType with
         | Some t => RelationType_eqb (relation_type l) t
         | None => match relation_type l with
                   | caused_by | resolved_by | related => true
                   | _ => false end
         end in
    let joined :=
      flat_map (fun l =>
                  map (fun f => mkHit f None (Some (relation_type l)) None)
                      (sql_select agentId (id_is (to_id l)) d))
               (filter wanted (fragment_links d)) in
    let prio h := match hit_relation h with
                  | Some t => relation_priority t | None => 3%nat end in
    ret (firstn linkedFragmentLimit
           (sort_by (fun a b =>
                       Nat.ltb (prio a) (prio b)
                       || Nat.eqb (prio a) (prio b)
                          && Qle_bool (importance (row b))
                                      (importance (row a)))
                    (distinct joined)))
  end.
End FragmentStore.

(** ** Regular expressions (the fragment that [_redactPII] uses)

    A backtracking matcher in continuation-passing style, with the
    priorities of the ECMAScript pattern semantics: alternatives are
    tried left to right, a quantifier is greedy and gives characters back
    one at a time.  Every quantifier of the four patterns ranges over a
    character class, so [Rep] takes the class itself. *)

Inductive regex :=
| Chr (p : N -> bool)                         (* one character of a class *)
| Seq (r1 r2 : regex)                         (* r1 r2                    *)
| Alt (r1 r2 : regex)                         (* r1 | r2                  *)
| Rep (lo : nat) (hi : option nat) (p : N -> bool)   (* [p]{lo,hi}        *)
| Grp (r : regex).                            (* capture group 1          *)

(** What is left of the input, and the text captured by group 1. *)
Definition MatchState := (jsstring * option jsstring)%type.

Fixpoint rep (p : N -> bool) (lo : nat) (hi : option nat) (s : jsstring)
  (k : jsstring -> option MatchState) : option MatchState :=
  let stop := match lo with O => k s | S _ => None end in
  match s with
  | c :: t =>
      if p c && match hi with Some O => false | _ => true end then
        match rep p (pred lo) (option_map pred hi) t k with
        | Some x => Some x
        | None => stop
        end
      else stop
  | [] => stop
  end.

Fixpoint bt (r : regex) (s : jsstring) (k : jsstring -> option MatchState)
  : option MatchState :=
  match r with
  | Chr p => match s with
             | c :: t => if p c then k t else None
             | [] => None
             end
  | Seq r1 r2 => bt r1 s (fun s' => bt r2 s' k)
  | Alt r1 r2 => match bt r1 s k with
                 | Some x => Some x
                 | None => bt r2 s k
                 end
  | Rep lo hi p => rep p lo hi s k
  | Grp r1 =>
      bt r1 s (fun s' =>
        match k s' with
        | Some (rest, _) =>
            Some (rest, Some (firstn (List.length s - List.length s') s))
        | None => None
        end)
  end.

(** A match of [r] anchored at the head of [s]: its length and the
    capture. *)
Definition exec (r : regex) (s : jsstring) : option (nat * option jsstring) :=
  match bt r s (fun s' => Some (s', None)) with
  | Some (rest, cap) => Some ((List.length s - List.length rest)%nat, cap)
  | None => None
  end.

(** [s.replace(/r/g, f)]: scan from the left; at a position where [r]
    matches, emit [f match p1] and resume after the match, else keep the
    character.  [skip] counts the characters of the current match that
    are still to be dropped.  None of the four patterns matches the
    empty string, so the case of an empty match is the case of no
    match. *)
Fixpoint replace_from (r : regex)
  (f : jsstring -> option jsstring -> jsstring) (skip : nat) (s : jsstring)
  : jsstring :=
  match s with
  | [] => []
  | c :: t =>
      match skip with
      | S n => replace_from r f n t
      | O =>
          match exec r s with
          | Some (S n, cap) =>
              (f (firstn (S n) s) cap ++ replace_from r f n t)%list
          | _ => c :: replace_from r f 0 t
          end
      end
  end.

Definition replace (r : regex)
  (f : jsstring -> option jsstring -> jsstring) (s : jsstring) : jsstring :=
  replace_from r f 0 s.

(** *** Character classes *)

Definition chr (a : string) : N :=
  match a with String c _ => N_of_ascii c | EmptyString => 0%N end.

Definition between (lo hi : N) (c : N) : bool := ((lo <=? c) && (c <=? hi))%N.

Definition is_chr (a : string) (c : N) : bool := (c =? chr a)%N.

Definition digit (c : N) : bool := between 48 57 c.              (* \d *)
Definition upper (c : N) : bool := between 65 90 c.
Definition lower (c : N) : bool := between 97 122 c.
Definition letter (c : N) : bool := upper c || lower c.          (* [a-zA-Z] *)
Definition alnum (c : N) : bool := letter c || digit c.          (* [a-zA-Z0-9] *)

(** [\s]: WhiteSpace and LineTerminator code units. *)
Definition space (c : N) : bool :=
  (between 9 13 c || (c =? 32) || (c =? 160) || (c =? 5760)
   || between 8192 8202 c || (c =? 8232) || (c =? 8233) || (c =? 8239)
   || (c =? 8287) || (c =? 12288) || (c =? 65279))%N.

(** [[0-9A-Za-z-_]] *)
Definition key_char (c : N) : bool := alnum c || is_chr "-" c || is_chr "_" c.
(** [[a-zA-Z0-9._%+-]] *)
Definition local_char (c : N) : bool :=
  alnum c || is_chr "." c || is_chr "_" c || is_chr "%" c || is_chr "+" c || is_chr "-" c.
(** [[a-zA-Z0-9.-]] *)
Definition domain_char (c : N) : bool := alnum c || is_chr "." c || is_chr "-" c.
(** [[:=]] *)
Definition assign_char (c : N) : bool := is_chr ":" c || is_chr "=" c.
(** [[^\s,]] *)
Definition value_char (c : N) : bool := negb (space c || is_chr "," c).
(** [[-\s]] *)
Definition dash_space (c : N) : bool := is_chr "-" c || space c.
(** [[016789]] *)
Definition carrier_digit (c : N) : bool :=
  is_chr "0" c || is_chr "1" c || between 54 57 c.

(** A literal character; under the [i] flag an ASCII letter matches in
    either case (no code unit above 127 canonicalizes to one below). *)
Definition lit_char (ignoreCase : bool) (x : N) (c : N) : bool :=
  (c =? x)%N
  || ignoreCase && ((lower x && (c =? x - 32)%N) || (upper x && (c =? x + 32)%N)).

Fixpoint lit_units (ignoreCase : bool) (x : N) (l : list N) : regex :=
  match l with
  | [] => Chr (lit_char ignoreCase x)
  | y :: t => Seq (Chr (lit_char ignoreCase x)) (lit_units ignoreCase y t)
  end.

(** A literal, non-empty string. *)
Definition lit (ignoreCase : bool) (l : jsstring) : regex :=
  match l with
  | [] => Rep 0 (Some 0%nat) (fun _ => false)
  | x :: t => lit_units ignoreCase x t
  end.

(** *** The four patterns of [FragmentFactory._redactPII] *)

(** [/(sk-[a-zA-Z0-9]{32,}|AIza[0-9A-Za-z-_]{35})/g] *)
Definition re_api_key : regex :=
  Grp (Alt (Seq (lit false (js "sk-")) (Rep 32 None alnum))
           (Seq (lit false (js "AIza")) (Rep 35 (Some 35%nat) key_char))).

(** [/[a-zA-Z0-9._%+-]+@[a-zA-Z0-9.-]+\.[a-zA-Z]{2,}/g] *)
Definition re_email : regex :=
  Seq (Rep 1 None local_char)
   (Seq (Chr (is_chr "@"))
     (Seq (Rep 1 None domain_char)
       (Seq (Chr (is_chr ".")) (Rep 2 None letter)))).

(** The Hangul keys, as UTF-16 code units. *)
Definition bimilbeonho : jsstring := [48708; 48128; 48264; 54840]%N.
Definition bibeon : jsstring := [48708; 48264]%N.

(** [/(password|passwd|pwd|비밀번호|비번)\s*[:=]\s*[^\s,]+/gi] *)
Definition re_password : regex :=
  Seq (Grp (Alt (lit true (js "password"))
            (Alt (lit true (js "passwd"))
             (Alt (lit true (js "pwd"))
              (Alt (lit true bimilbeonho) (lit true bibeon))))))
   (Seq (Rep 0 None space)
     (Seq (Chr assign_char)
       (Seq (Rep 0 None space) (Rep 1 None value_char)))).

(** [/01[016789][-\s]?\d{3,4}[-\s]?\d{4}/g] *)
Definition re_phone : regex :=
  Seq (lit false (js "01"))
   (Seq (Chr carrier_digit)
     (Seq (Rep 0 (Some 1%nat) dash_space)
       (Seq (Rep 3 (Some 4%nat) digit)
         (Seq (Rep 0 (Some 1%nat) dash_space) (Rep 4 (Some 4%nat) digit))))).

Definition REDACTED_API_KEY : jsstring := js "[REDACTED_API_KEY]".
Definition REDACTED_EMAIL   : jsstring := js "[REDACTED_EMAIL]".
Definition REDACTED_PWD     : jsstring := js ": [REDACTED_PWD]".
Definition REDACTED_PHONE   : jsstring := js "[REDACTED_PHONE]".

(** [(match, p1) => `${p1}: [REDACTED_PWD]`] *)
Definition password_replacer (_ : jsstring) (p1 : option jsstring) : jsstring :=
  (match p1 with Some k => k | None => [] end ++ REDACTED_PWD)%list.

(** [FragmentFactory._redactPII(text)] *)
Definition _redactPII (text : jsstring) : jsstring :=
  let redacted := text in
  let redacted := replace re_api_key (fun _ _ => REDACTED_API_KEY) redacted in
  let redacted := replace re_email (fun _ _ => REDACTED_EMAIL) redacted in
  let redacted := replace re_password password_replacer redacted in
  let redacted := replace re_phone (fun _ _ => REDACTED_PHONE) redacted in
  redacted.

(** ** FragmentFactory *)

Section FragmentFactory.
Variable O : Oracles.

Definition MAX_FRAGMENT_LENGTH : nat := 300.

Definition IMPORTANCE_WEIGHT (t : FragmentType) : Q :=
  match t with
  | error => 0.9 | decision => 0.8 | procedure => 0.7
  | preference => 0.95 | relation => 0.6 | fact => 0.5
  end.

(** [FragmentFactory._inferTTL(type, importance)] *)
Definition _inferTTL (t : FragmentType) (imp : Q) : TTLTier :=
  if FragmentType_eqb t preference then permanent
  else if Qle_bool 0.8 imp then permanent
  else if FragmentType_eqb t error || FragmentType_eqb t procedure then hot
  else if Qle_bool 0.5 imp then warm
  else cold.

Fixpoint trimStart (s : jsstring) : jsstring :=
  match s with
  | c :: t => if space c then trimStart t else s
  | [] => []
  end.

(** [String.prototype.trim] *)
Definition trim (s : jsstring) : jsstring :=
  rev (trimStart (rev (trimStart s))).

Fixpoint substring (n : nat) (s : string) : string :=
  match n, s with
  | S m, String c t => String c (substring m t)
  | _, _ => EmptyString
  end.

(** [FragmentFactory._hashContent(content)] *)
Definition _hashContent (c : jsstring) : string :=
  substring 16 (computeContentHash O c).

(** [content.length > 300 ? content.substring(0, 300) + "..." : content] *)
Definition truncate (c : jsstring) : jsstring :=
  if Nat.ltb MAX_FRAGMENT_LENGTH (List.length c)
  then (firstn MAX_FRAGMENT_LENGTH c ++ js "...")%list else c.

(** The arguments of [remember] (and of [FragmentFactory.create]); an
    absent string is the empty string, which [||] treats alike. *)
Record Params := mkParams {
  p_content    : jsstring;
  p_topic      : string;
  p_type       : option FragmentType;
  p_keywords   : list string;
  p_importance : option Q;
  p_source     : option string;
  p_linkedTo   : list string;
  p_agentId    : string;
  p_sessionId  : string;
  p_scope      : string;
  p_isAnchor   : bool
}.

(** [FragmentFactory.create(params)]; [newId] is the value that
    [generateId()] draws.  [None] is the thrown
    ["Fragment content is required"]. *)
Definition FragmentFactory_create (newId : string) (params : Params)
  : option Fragment :=
  let rawContent := trim (p_content params) in
  match rawContent with
  | [] => None
  | _ =>
    let redactedContent := _redactPII rawContent in
    let truncated := truncate redactedContent in
    let type := match p_type params with Some t => t | None => fact end in
    let importance :=
      match p_importance params with
      | Some i => i
      | None => Qor (IMPORTANCE_WEIGHT type) 0.5
      end in
    let keywords :=
      match p_keywords params with
      | [] => extractKeywords O truncated
      | ks => map (toLowerCase O) ks
      end in
    Some (mkFragment newId truncated (Sor (p_topic params) "general")
            keywords type importance (_hashContent truncated)
            (p_source params) (p_linkedTo params)
            (Sor (p_agentId params) "default")
            0%Z None 0%Z (_inferTTL type importance)
            (countTokens O truncated) 1 None None (p_isAnchor params))
  end.
End FragmentFactory.

(** ** FragmentIndex *)

Section FragmentIndex.
Variable O : Oracles.

Definition sadd (x : string) (l : list string) : list string :=
  if mem x l then l else (l ++ [x])%list.

Definition srem (x : string) (l : list string) : list string :=
  remove_id x l.

Definition upd {A} (f : string -> A) (k : string) (v : A) : string -> A :=
  fun k' => if String.eqb k' k then v else f k'.

Definition updT {A} (f : FragmentType -> A) (k : FragmentType) (v : A)
  : FragmentType -> A :=
  fun k' => if FragmentType_eqb k' k then v else f k'.

Definition modifyRedis (f : Redis -> Redis) : M unit :=
  r <- getRedis ;; putRedis (f r).

Definition zrem (x : string) (l : list (Z * string)) : list (Z * string) :=
  filter (fun e => negb (String.eqb (snd e) x)) l.

(** [FragmentIndex.index(fragment, sessionId)] *)
Definition FragmentIndex_index (now : Z) (fragment : Fragment)
  (sessionId : string) : M unit :=
  modifyRedis (fun r =>
    if negb (ready r) then r else
    mkRedis (ready r)
      (fold_left (fun m k => let k := toLowerCase O k in
                             upd m k (sadd (id fragment) (m k)))
                 (keywords fragment) (frag_kw r))
      (upd (frag_tp r) (topic fragment)
           (sadd (id fragment) (frag_tp r (topic fragment))))
      (updT (frag_ty r) (type fragment)
            (sadd (id fragment) (frag_ty r (type fragment))))
      ((now, id fragment) :: zrem (id fragment) (frag_recent r))
      (frag_hot r)
      (match sessionId with
       | EmptyString => frag_sess r
       | _ => upd (frag_sess r) sessionId
                  (sadd (id fragment) (frag_sess r sessionId))
       end)
      (frag_wm r) (memory_evaluation r) (pending_contradictions r)
      (contradiction_check_at r)).

(** [FragmentIndex.deindex(fragmentId, keywords, topic, type)] *)
Definition FragmentIndex_deindex (fragmentId : string)
  (kws : list string) (tpc : string) (t : FragmentType) : M unit :=
  modifyRedis (fun r =>
    if negb (ready r) then r else
    mkRedis (ready r)
      (fold_left (fun m k => let k := toLowerCase O k in
                             upd m k (srem fragmentId (m k)))
                 kws (frag_kw r))
      (match tpc with
       | EmptyString => frag_tp r
       | _ => upd (frag_tp r) tpc (srem fragmentId (frag_tp r tpc))
       end)
      (updT (frag_ty r) t (srem fragmentId (frag_ty r t)))
      (zrem fragmentId (frag_recent r))
      (upd (frag_hot r) fragmentId None)
      (frag_sess r) (frag_wm r) (memory_evaluation r)
      (pending_contradictions r) (contradiction_check_at r)).

Definition WM_MAX_TOKENS : Z := 500.

Definition wm_total (l : list WMEntry) : Z :=
  fold_left (fun sum p => (sum + wm_estimated_tokens p)%Z) l 0%Z.

(** The counting loop of [_enforceWmBudget]: how many unprotected
    entries are dropped before the total fits. *)
Fixpoint wm_removed (l : list WMEntry) (totalToks : Z) (removed : nat)
  : nat :=
  match l with
  | [] => removed
  | p :: t =>
      if (totalToks <=? WM_MAX_TOKENS)%Z then removed
      else if Qlt_bool 0.8 (wm_importance p)
           then wm_removed t totalToks removed
           else wm_removed t (totalToks - wm_estimated_tokens p)%Z
                           (S removed)
  end.

Fixpoint wm_filter (l : list WMEntry) (i removed : nat) : list WMEntry :=
  match l with
  | [] => []
  | p :: t =>
      if Nat.ltb i removed && Qle_bool (wm_importance p) 0.8
      then wm_filter t (S i) removed
      else p :: wm_filter t (S i) removed
  end.

(** [FragmentIndex._enforceWmBudget(key)] on the list under the key. *)
Definition _enforceWmBudget (l : list WMEntry) : list WMEntry :=
  if (wm_total l <=? WM_MAX_TOKENS)%Z then l
  else
    let removed := wm_removed l (wm_total l) 0 in
    if Nat.ltb 0 removed then wm_filter l 0 removed else l.

(** [FragmentIndex.addToWorkingMemory(sessionId, fragment)] *)
Definition FragmentIndex_addToWorkingMemory (now : Z) (sessionId : string)
  (fragment : Fragment) : M unit :=
  modifyRedis (fun r =>
    match sessionId with
    | EmptyString => r
    | _ =>
      if negb (ready r) then r else
      let entry :=
        mkWMEntry (id fragment) (content fragment) (type fragment)
          (topic fragment) (Qor (importance fragment) 0.5)
          (Zor (estimated_tokens fragment)
               (ceil_div4 (jslength (content fragment))))
          now in
      mkRedis (ready r) (frag_kw r) (frag_tp r) (frag_ty r)
        (frag_recent r) (frag_hot r) (frag_sess r)
        (upd (frag_wm r) sessionId
             (_enforceWmBudget (frag_wm r sessionId ++ [entry])%list))
        (memory_evaluation r) (pending_contradictions r)
        (contradiction_check_at r)
    end).

Definition inter (a b : list string) : list string :=
  filter (fun x => mem x b) a.

Definition union (a b : list string) : list string :=
  (a ++ filter (fun x => negb (mem x a)) b)%list.

(** [FragmentIndex.searchByKeywords(keywords, minResults = 3)]:
    [SINTER], then [SUNION] when that is too little. *)
Definition FragmentIndex_searchByKeywords (kws : list string)
  : M (list string) :=
  r <- getRedis ;;
  match kws with
  | [] => ret []
  | k :: ks =>
    if negb (ready r) then ret [] else
    let key x := frag_kw r (toLowerCase O x) in
    let ids := fold_left (fun acc x => inter acc (key x)) ks (key k) in
    if Nat.ltb (List.length ids) 3 && Nat.ltb 1 (List.length kws)
    then ret (fold_left (fun acc x => union acc (key x)) ks (key k))
    else ret ids
  end.

(** [FragmentIndex.searchByTopic(topic)] *)
Definition FragmentIndex_searchByTopic (tpc : string) : M (list string) :=
  r <- getRedis ;; ret (if ready r then frag_tp r tpc else []).

(** [FragmentIndex.searchByType(type)] *)
Definition FragmentIndex_searchByType (t : FragmentType) : M (list string) :=
  r <- getRedis ;; ret (if ready r then frag_ty r t else []).

(** [FragmentIndex.getRecent(count)]: [ZREVRANGE 0 count-1]; with
    [count = 0] the stop index is [-1], the last member, and the whole
    set is returned. *)
Definition FragmentIndex_getRecent (count : nat) : M (list string) :=
  r <- getRedis ;;
  ret (if ready r
       then
         let ranked :=
           sort_by (fun a b => (fst b <=? fst a)%Z) (frag_recent r) in
         map snd (match count with
                  | 0%nat => ranked
                  | _ => firstn count ranked
                  end)
       else []).

(** [FragmentIndex.cacheFragment(fragmentId, data)] *)
Definition FragmentIndex_cacheFragment (f : Hit) : M unit :=
  modifyRedis (fun r =>
    if negb (ready r) then r else
    mkRedis (ready r) (frag_kw r) (frag_tp r) (frag_ty r) (frag_recent r)
      (upd (frag_hot r) (id (row f)) (Some f)) (frag_sess r) (frag_wm r)
      (memory_evaluation r) (pending_contradictions r)
      (contradiction_check_at r)).

(** [FragmentIndex.getCachedFragment(fragmentId)] *)
Definition FragmentIndex_getCachedFragment (i : string)
  : M (option Hit) :=
  r <- getRedis ;; ret (if ready r then frag_hot r i else None).

(** Modelled from the spec: [pushToQueue] of redis.js, which is not
    among the sources; the queues are FIFO lists in the in-memory store,
    and a push to an unreachable store is dropped. *)
Definition pushToQueue (job : EvalJob) : M unit :=
  modifyRedis (fun r =>
    if negb (ready r) then r else
    mkRedis (ready r) (frag_kw r) (frag_tp r) (frag_ty r) (frag_recent r)
      (frag_hot r) (frag_sess r) (frag_wm r)
      (memory_evaluation r ++ [job])%list (pending_contradictions r)
      (contradiction_check_at r)).
End FragmentIndex.

(** ** FragmentSearch *)

Section FragmentSearch.
Variable O : Oracles.

Definition CHARS_PER_TOKEN : Z := 4.

(** The [query] object of [FragmentSearch.search]. *)
Record Query := mkQuery {
  q_keywords      : list string;
  q_topic         : string;
  q_type          : option FragmentType;
  q_text          : jsstring;
  q_tokenBudget   : Q;                       (* a number; 0 when absent *)
  q_minImportance : Q;
  q_fragmentCount : Z
}.

(** The object that [search] and [recall] return; [searchPath] is kept
    as the list of its ["tier:count"] steps. *)
Record SearchResult := mkSearchResult {
  res_fragments   : list Hit;
  res_totalTokens : Z;
  res_searchPath  : list (string * nat);
  res_count       : nat
}.

Definition mapM_cache (ids : list string) : M (list Hit) :=
  r <- getRedis ;;
  ret (flat_map (fun i =>
         match (if ready r then frag_hot r i else None) with
         | Some c => match content (row c) with [] => [] | _ => [c] end
         | None => []
         end) ids).

(** [FragmentSearch._searchL1(query)] *)
Definition _searchL1 (query : Query) : M (list string) :=
  kwIds <- FragmentIndex_searchByKeywords O (q_keywords query) ;;
  topicIds <- FragmentIndex_searchByTopic (q_topic query) ;;
  typeIds <- match q_type query with
             | Some t => FragmentIndex_searchByType t
             | None => ret []
             end ;;
  let sets :=
    ((match q_keywords query with [] => [] | _ => [nodup string_dec kwIds] end)
     ++ (match q_topic query with EmptyString => [] | _ => [topicIds] end)
     ++ (match q_type query with None => [] | Some _ => [typeIds] end))%list in
  match sets with
  | [] => FragmentIndex_getRecent 20
  | [s] => ret s
  | s :: rest => ret (filter (fun i => forallb (mem i) rest) s)
  end.

(** [FragmentSearch._tryHotCache(ids)] *)
Definition _tryHotCache (ids : list string) : M (list Hit) :=
  mapM_cache (firstn 30 ids).

(** [FragmentSearch._searchL2(query, excludeIds)] *)
Definition _searchL2 (query : Query) (excludeIds : list string)
  : M (list Hit) :=
  let options :=
    mkSearchOptions (q_type query)
      (match q_topic query with EmptyString => None | t => Some t end)
      (Qor (q_minImportance query) 0.1) 30 "" in
  results <- match q_keywords query with
             | [] => ret []
             | ks => FragmentStore_searchByKeywords ks options
             end ;;
  let missingIds :=
    filter (fun i => negb (mem i (map id results))) excludeIds in
  fetched <- match missingIds with
             | [] => ret []
             | _ => FragmentStore_getByIds missingIds "default"
             end ;;
  ret (map plain (results ++ fetched)%list).

(** [FragmentSearch._searchL3(text)] *)
Definition _searchL3 (text : jsstring) : M (list Hit) :=
  match generateEmbedding O text with
  | Some vec => FragmentStore_searchBySemantic O vec 10 0.3 "default"
  | None => ret []
  end.

Definition Qmax0 (x : Q) : Q := if Qle_bool 0 x then x else 0.

(** [FragmentSearch._computeRankScore(fragment, config)] *)
Definition _computeRankScore (now : Z) (f : Hit) : Q :=
  let ageDays := inject_Z (now - created_at (row f)) / inject_Z DAY in
  let recency := Qmax0 (1 - ageDays / 90) in
  importance (row f) * importanceWeight + recency * recencyWeight.

Definition truthy (s : option Q) : bool :=
  match s with Some x => negb (Qeq_bool x 0) | None => false end.

(** The [Map] of [_deduplicate]: first occurrences keep their place, a
    later duplicate replaces the entry when its similarity is higher. *)
Fixpoint seen_set (seen : list Hit) (f : Hit) : list Hit :=
  match seen with
  | [] => [f]
  | e :: t =>
      if String.eqb (id (row e)) (id (row f)) then
        (if truthy (hit_similarity f)
            && (negb (truthy (hit_similarity e))
                || match hit_similarity f, hit_similarity e with
                   | Some a, Some b => Qlt_bool b a
                   | _, _ => false
                   end)
         then f else e) :: t
      else e :: seen_set t f
  end.

Definition rank_sort (now : Z) (fragmentCount : Z) (l : list Hit)
  : list Hit :=
  if (activationThreshold <=? fragmentCount)%Z
  then sort_by (fun a b => Qle_bool (_computeRankScore now b)
                                    (_computeRankScore now a)) l
  else sort_by (fun a b => Qle_bool (importance (row b))
                                    (importance (row a))) l.

(** [FragmentSearch._deduplicate(fragments, fragmentCount)] *)
Definition _deduplicate (now : Z) (fragments : list Hit)
  (fragmentCount : Z) : list Hit :=
  rank_sort now fragmentCount (fold_left seen_set fragments []).

Fixpoint trim_loop (charBudget : Q) (usedChars : Z) (fragments : list Hit)
  : list Hit :=
  match fragments with
  | [] => []
  | f :: t =>
      let cost := jslength (content (row f)) in
      if Qlt_bool charBudget (inject_Z (usedChars + cost)) then []
      else f :: trim_loop charBudget (usedChars + cost)%Z t
  end.

(** [FragmentSearch._trimToTokenBudget(fragments, tokenBudget)]; the
    budget is whatever number the caller gave, whole or not. *)
Definition _trimToTokenBudget (fragments : list Hit) (tokenBudget : Q)
  : list Hit :=
  let charBudget := tokenBudget * inject_Z CHARS_PER_TOKEN in
  trim_loop charBudget 0 fragments.

Definition totalChars (fragments : list Hit) : Z :=
  fold_right (fun f sum => (jslength (content (row f)) + sum)%Z) 0%Z
             fragments.

(** [FragmentSearch._estimateTokens(fragments)] *)
Definition _estimateTokens (fragments : list Hit) : Z :=
  ceil_div4 (totalChars fragments).

(** [FragmentSearch._cacheFragments(fragments)] *)
Definition _cacheFragments (fragments : list Hit) : M unit :=
  forM fragments FragmentIndex_cacheFragment.

(** The two calls that [search] starts on the fragments it returns and
    does not await. *)
Definition search_started (now : Z) (trimmed : list Hit) : M unit :=
  match trimmed with
  | [] => ret tt
  | _ =>
      FragmentStore_incrementAccess now (map (fun f => id (row f)) trimmed)
        "default" ;;;
      _cacheFragments trimmed
  end.

(** [FragmentSearch.search(query)] up to its [return]: the result, with
    the two calls started and not yet run. *)
Definition search_answer (now : Z) (query : Query) : M SearchResult :=
  let tokenBudget := Qor (q_tokenBudget query) 1000 in
  l1Ids <- _searchL1 query ;;
  cached <- match l1Ids with
            | [] => ret []
            | _ => _tryHotCache l1Ids
            end ;;
  let path1 :=
    (match l1Ids with [] => [] | _ => [("L1"%string, List.length l1Ids)] end
     ++ match cached with [] => [] | _ => [("HotCache"%string, List.length cached)] end)%list in
  l2Results <- (if Nat.ltb (List.length cached) 3
                then _searchL2 query l1Ids else ret []) ;;
  let candidates := (cached ++ l2Results)%list in
  let path2 :=
    (path1 ++ match l2Results with
              | [] => []
              | _ => [("L2"%string, List.length l2Results)]
              end)%list in
  l3Results <- (if Nat.ltb (List.length candidates) 3
                   && match q_text query with [] => false | _ => true end
                   && OPENAI_API_KEY O
                then _searchL3 (q_text query) else ret []) ;;
  let candidates := (candidates ++ l3Results)%list in
  let path3 :=
    (path2 ++ match l3Results with
              | [] => []
              | _ => [("L3"%string, List.length l3Results)]
              end)%list in
  let unique := _deduplicate now candidates (q_fragmentCount query) in
  let trimmed := _trimToTokenBudget unique tokenBudget in
  let totalTokens := _estimateTokens trimmed in
  ret (mkSearchResult trimmed totalTokens path3 (List.length trimmed)).

(** [FragmentSearch.search(query)] with the two calls it starts.  The
    source returns before they have run; here they have run when the
    result is handed over, so that what follows sees the table as it is
    once they have settled.  What a caller reads right after the search
    may in fact still see the table of [search_answer]. *)
Definition FragmentSearch_search (now : Z) (query : Query)
  : M SearchResult :=
  result <- search_answer now query ;;
  search_started now (res_fragments result) ;;;
  ret result.
End FragmentSearch.

(** ** NLIClassifier *)

Section NLIClassifier.
Variable O : Oracles.

(** What [detectContradiction] returns when the classifier answered. *)
Record Verdict := mkVerdict {
  nli_contradicts     : bool;
  nli_confidence      : Q;
  nli_needsEscalation : bool;
  nli_scores          : NLIScores
}.

(** The threshold cascade of [detectContradiction], on the scores that
    [classifyNLI] returned. *)
Definition verdict_of (s : NLIScores) : Verdict :=
  let cScore := Qor (contradiction s) 0 in
  let eScore := Qor (entailment s) 0 in
  if Qle_bool 0.8 cScore then mkVerdict true cScore false s
  else if Qle_bool 0.6 eScore then mkVerdict false eScore false s
  else if Qle_bool 0.5 cScore then mkVerdict true cScore true s
  else mkVerdict false (Qor (neutral s) 0) (Qle_bool 0.2 cScore) s.

(** [detectContradiction(contentA, contentB)] *)
Definition detectContradiction (contentA contentB : jsstring)
  : option Verdict :=
  match classifyNLI O contentA contentB with
  | None => None
  | Some result => Some (verdict_of result)
  end.
End NLIClassifier.

(** ** MemoryManager *)

Section MemoryManager.
Variable O : Oracles.

(** What [remember] returns. *)
Record RememberResult := mkRememberResult {
  rr_id        : string;
  rr_keywords  : list string;
  rr_ttl_tier  : option TTLTier;   (* [None] is the string "session" *)
  rr_scope     : string;
  rr_conflicts : list (string * Q)  (* existing_id, similarity *)
}.

(** [MemoryManager._detectConflicts(content, topic, newId)] *)
Definition _detectConflicts (now : Z) (c : jsstring) (tpc : string)
  (newId : string) : M (list (string * Q)) :=
  try_catch
    (res <- FragmentSearch_search O now
              (mkQuery [] tpc None c 500 0 0) ;;
     ret (flat_map (fun frag =>
            if String.eqb (id (row frag)) newId then []
            else
              let similarity :=
                match hit_similarity frag with Some x => x | None => 0 end in
              if Qlt_bool 0.8 similarity
              then [(id (row frag), similarity)] else [])
            (res_fragments res)))
    (ret []).

(** Whether the content contains ["[해결됨]"] or ["resolved"]. *)
Fixpoint is_prefix (p s : jsstring) : bool :=
  match p, s with
  | [], _ => true
  | x :: p', y :: s' => (x =? y)%N && is_prefix p' s'
  | _ :: _, [] => false
  end.

Fixpoint includes (s p : jsstring) : bool :=
  is_prefix p s || match s with [] => false | _ :: t => includes t p end.

Definition resolved_mark : jsstring :=
  ([91; 54644; 44208; 46120; 93])%N.   (* "[해결됨]" *)

(** [MemoryManager._autoLinkOnRemember(newFragment, agentId)]; the new
    fragment object carries no [created_at], so its date is the
    current time. *)
Definition _autoLinkOnRemember (now : Z) (newFragment : Fragment)
  (agentId : string) : M unit :=
  d <- getDB ;;
  match sql_select agentId
          (fun r => id_is (id newFragment) r
                    && match embedding r with Some _ => true | None => false end)
          d with
  | [] => ret tt
  | self :: _ =>
    let sim r :=
      match embedding r, embedding self with
      | Some a, Some b => similarity O a b
      | _, _ => 0
      end in
    let candidates :=
      firstn 3
        (sort_by (fun a b => Qle_bool (sim b) (sim a))
           (sql_select agentId
              (fun r => negb (id_is (id newFragment) r)
                        && String.eqb (topic r) (topic newFragment)
                        && match embedding r with
                           | Some _ => Qlt_bool 0.7 (sim r)
                           | None => false end) d)) in
    forM candidates (fun existing =>
      let relationType :=
        if FragmentType_eqb (type newFragment) (type existing)
           && Qlt_bool 0.85 (sim existing)
           && (created_at existing <? now)%Z
        then superseded_by
        else if FragmentType_eqb (type newFragment) error
                && FragmentType_eqb (type existing) error
                && (includes (content newFragment) resolved_mark
                    || includes (content newFragment) (js "resolved"))
        then resolved_by
        else related in
      try_catch
        (FragmentStore_createLink (id existing) (id newFragment)
           relationType agentId)
        (ret tt))
  end.

Definition EVAL_EXCLUDE_TYPES (t : FragmentType) : bool :=
  match t with fact | procedure | error => true | _ => false end.

(** [MemoryManager.remember(params)].  [newId] is the id that the
    factory draws; a thrown error leaves the run at [Throw]. *)
Definition MemoryManager_remember (now : Z) (newId : string)
  (params : Params) : M RememberResult :=
  let scope := Sor (p_scope params) "permanent" in
  let agentId := Sor (p_agentId params) "default" in
  if String.eqb scope "session"
     && negb (String.eqb (p_sessionId params) "") then
    match FragmentFactory_create O newId params with
    | None => throw
    | Some fragment =>
        FragmentIndex_addToWorkingMemory now (p_sessionId params) fragment ;;;
        ret (mkRememberResult (id fragment) (keywords fragment) None
               "session" [])
    end
  else
    match FragmentFactory_create O newId params with
    | None => throw
    | Some fragment =>
        let fragment := set_agent_id agentId fragment in
        i <- FragmentStore_insert O now fragment ;;
        FragmentIndex_index O now (set_id i fragment) (p_sessionId params) ;;;
        forM (linked_to fragment) (fun linkId =>
          try_catch (FragmentStore_createLink i linkId related agentId)
                    (ret tt)) ;;;
        conflicts <- _detectConflicts now (content fragment)
                       (topic fragment) i ;;
        try_catch (_autoLinkOnRemember now (set_id i fragment) agentId)
                  (ret tt) ;;;
        (if EVAL_EXCLUDE_TYPES (type fragment) then ret tt
         else pushToQueue
                (mkEvalJob i agentId (type fragment) (content fragment))) ;;;
        ret (mkRememberResult i (keywords fragment)
               (Some (ttl_tier fragment)) "permanent" conflicts)
    end.

(** The arguments of [recall]. *)
Record RecallParams := mkRecallParams {
  rp_keywords         : list string;
  rp_topic            : string;
  rp_type             : option FragmentType;
  rp_text             : jsstring;
  rp_tokenBudget      : Q;                   (* 0 when absent *)
  rp_minImportance    : Q;
  rp_fragmentCount    : Z;
  rp_includeLinks     : option bool;
  rp_linkRelationType : option RelationType;
  rp_threshold        : option Q;
  rp_agentId          : string
}.

Fixpoint push_new (acc : list Hit) (l : list Hit) : list Hit :=
  match l with
  | [] => acc
  | lf :: t =>
      if mem (id (row lf)) (map (fun f => id (row f)) acc)
      then push_new acc t
      else push_new (acc ++ [lf])%list t
  end.

(** The stale annotation of one returned fragment. *)
Definition annotate (now : Z) (frag : Hit) : Hit :=
  let staleDays := staleThresholds (type (row frag)) in
  let daysSince :=
    match verified_at (row frag) with
    | Some v => if (v =? 0)%Z then (staleDays + 1)%Z
                else ((now - v) / DAY)%Z
    | None => (staleDays + 1)%Z
    end in
  if (staleDays <=? daysSince)%Z
  then mkHit (row frag) (hit_similarity frag) (hit_relation frag)
             (Some daysSince)
  else frag.

(** [MemoryManager.recall(params)] *)
Definition MemoryManager_recall (now : Z) (params : RecallParams)
  : M SearchResult :=
  let agentId := Sor (rp_agentId params) "default" in
  let fragmentCount := rp_fragmentCount params in
  result <- FragmentSearch_search O now
              (mkQuery (rp_keywords params) (rp_topic params)
                 (rp_type params) (rp_text params)
                 (Qor (rp_tokenBudget params) 1000)
                 (rp_minImportance params) fragmentCount) ;;
  let shouldIncludeLinks :=
    match rp_includeLinks params with Some false => false | _ => true end in
  fragments <-
    (if shouldIncludeLinks
        && negb (Nat.eqb (List.length (res_fragments result)) 0)
     then
       linkedFrags <- FragmentStore_getLinkedFragments
                        (map (fun f => id (row f)) (res_fragments result))
                        (rp_linkRelationType params) agentId ;;
       ret (push_new (res_fragments result) linkedFrags)
     else ret (res_fragments result)) ;;
  let fragments := rank_sort now fragmentCount fragments in
  let fragments := map (annotate now) fragments in
  let fragments :=
    match rp_threshold params with
    | Some th =>
        filter (fun f => match hit_similarity f with
                         | None => true
                         | Some s => Qle_bool th s
                         end) fragments
    | None => fragments
    end in
  ret (mkSearchResult fragments (res_totalTokens result)
         (res_searchPath result) (List.length fragments)).

(** [MemoryManager.forget(params)] returns [{ deleted, protected }]. *)
Record ForgetParams := mkForgetParams {
  fp_id      : string;
  fp_topic   : string;
  fp_force   : bool;
  fp_agentId : string
}.

Fixpoint forget_topic (force : bool) (agentId : string)
  (topicIds : list string) (acc : nat * nat) : M (nat * nat) :=
  match topicIds with
  | [] => ret acc
  | tid :: rest =>
      frag <- FragmentStore_getById tid agentId ;;
      match frag with
      | None => forget_topic force agentId rest acc
      | Some frag =>
          if TTLTier_eqb (ttl_tier frag) permanent && negb force
          then forget_topic force agentId rest (fst acc, S (snd acc))
          else
            FragmentIndex_deindex O (id frag) (keywords frag) (topic frag)
              (type frag) ;;;
            ok <- FragmentStore_delete (id frag) agentId ;;
            forget_topic force agentId rest
              (if ok then S (fst acc) else fst acc, snd acc)
      end
  end.

(** The [if (params.topic)] part of [forget]. *)
Definition forget_by_topic (params : ForgetParams) (agentId : string)
  (acc : nat * nat) : M (nat * nat) :=
  match fp_topic params with
  | EmptyString => ret acc
  | tpc =>
      topicIds <- FragmentIndex_searchByTopic tpc ;;
      forget_topic (fp_force params) agentId topicIds acc
  end.

(** [MemoryManager.forget(params)]; the pair is [(deleted, protected)]. *)
Definition MemoryManager_forget (params : ForgetParams) : M (nat * nat) :=
  let agentId := Sor (fp_agentId params) "default" in
  match fp_id params with
  | EmptyString => forget_by_topic params agentId (0, 0)%nat
  | i =>
      frag <- FragmentStore_getById i agentId ;;
      match frag with
      | None => ret (0, 0)%nat
      | Some frag =>
          if TTLTier_eqb (ttl_tier frag) permanent && negb (fp_force params)
          then ret (0, 1)%nat
          else
            FragmentIndex_deindex O (id frag) (keywords frag) (topic frag)
              (type frag) ;;;
            ok <- FragmentStore_delete (id frag) agentId ;;
            forget_by_topic params agentId
              (if ok then 1%nat else 0%nat, 0%nat)
      end
  end.

(** [MemoryManager.link(params)] returns [{ linked }]. *)
Definition MemoryManager_link (now : Z) (fromId toId : string)
  (relation : option RelationType) (agent : string) : M bool :=
  let agentId := Sor agent "default" in
  fromFrag <- FragmentStore_getById fromId agentId ;;
  toFrag <- FragmentStore_getById toId agentId ;;
  match fromFrag, toFrag with
  | Some _, Some toFrag =>
      let relationType :=
        match relation with Some r => r | None => related end in
      FragmentStore_createLink fromId toId relationType agentId ;;;
      (if RelationType_eqb relationType resolved_by
          && FragmentType_eqb (type toFrag) error
          && Qlt_bool 0.5 (importance toFrag)
       then
         FragmentStore_update O now toId
           (mkUpdates None None None None (Some 0.5) None) agentId ;;;
         ret tt
       else ret tt) ;;;
      ret true
  | _, _ => ret false
  end.

(** The arguments of [amend]. *)
Record AmendParams := mkAmendParams {
  ap_id         : string;
  ap_content    : option jsstring;
  ap_topic      : option string;
  ap_keywords   : option (list string);
  ap_type       : option FragmentType;
  ap_importance : option Q;
  ap_isAnchor   : option bool;
  ap_supersedes : bool;
  ap_agentId    : string
}.

Inductive AmendResult :=
| AmendError                            (* { updated: false, error } *)
| AmendMerged (existingId : string)     (* { updated: false, merged: true, existingId } *)
| AmendUpdated (fragment : Fragment).   (* { updated: true, fragment } *)

(** [MemoryManager.amend(params)] *)
Definition MemoryManager_amend (now : Z) (params : AmendParams)
  : M AmendResult :=
  match ap_id params with
  | EmptyString => ret AmendError
  | i =>
    let agentId := Sor (ap_agentId params) "default" in
    existing <- FragmentStore_getById i agentId ;;
    match existing with
    | None => ret AmendError
    | Some existing =>
      let updates :=
        mkUpdates (option_map truncate (ap_content params))
          (ap_topic params)
          (option_map (map (toLowerCase O)) (ap_keywords params))
          (ap_type params) (ap_importance params) (ap_isAnchor params) in
      result <- FragmentStore_update O now i updates agentId ;;
      match result with
      | UpdNull => ret AmendError
      | UpdMerged existingId => ret (AmendMerged existingId)
      | UpdRow result =>
          (if ap_supersedes params then
             FragmentStore_createLink (id existing) (id result) related
               agentId ;;;
             FragmentStore_update O now (id existing)
               (mkUpdates None None None None (Some 0.3) None) agentId ;;;
             ret tt
           else ret tt) ;;;
          FragmentIndex_deindex O (id existing) (keywords existing)
            (topic existing) (type existing) ;;;
          FragmentIndex_index O now result "" ;;;
          ret (AmendUpdated result)
      end
    end
  end.
End MemoryManager.

(** ** MemoryConsolidator *)

Section MemoryConsolidator.
Variable O : Oracles.

(** [ORDER BY importance DESC, created_at ASC] *)
Definition merge_order (a b : Fragment) : bool :=
  Qlt_bool (importance b) (importance a)
  || Qeq_bool (importance a) (importance b)
     && (created_at a <=? created_at b)%Z.

(** The [dups] query of [_mergeDuplicates]: for each [content_hash]
    held by more than one row, the ids by [merge_order]; at most 50
    groups. *)
Definition dup_groups (d : DB) : list (list string) :=
  let rows := sql_select "system" (fun _ => true) d in
  firstn 50
    (filter (fun ids => Nat.ltb 1 (List.length ids))
       (map (fun h =>
               map id (sort_by merge_order
                         (filter (fun r => String.eqb (content_hash r) h)
                                 rows)))
            (nodup string_dec (map content_hash rows)))).

Definition array_replace (l : list string) (a b : string) : list string :=
  map (fun x => if String.eqb x a then b else x) l.

(** The body of the inner loop of [_mergeDuplicates]. *)
Definition merge_into (keepId rid : string) : M unit :=
  modifyDB (sql_update "system"
              (fun r => mem (id r) [rid]
                        && negb (mem keepId (linked_to r)))
              (append_link keepId)) ;;;
  modifyDB (sql_update "system" (fun r => mem rid (linked_to r))
              (fun r =>
                 set_linked_to (array_replace (linked_to r) rid keepId) r)) ;;;
  FragmentStore_delete rid "system" ;;;
  ret tt.

Definition merge_group (ids : list string) : M unit :=
  match ids with
  | [] => ret tt
  | keepId :: removeIds => forM removeIds (merge_into keepId)
  end.

(** [MemoryConsolidator._mergeDuplicates()] *)
Definition _mergeDuplicates : M nat :=
  d <- getDB ;;
  let dups := dup_groups d in
  forM dups merge_group ;;;
  ret (fold_right (fun ids n => (pred (List.length ids) + n)%nat) 0%nat dups).

Definition tier_count (t : TTLTier) (d : DB) : Z :=
  Z.of_nat (List.length (filter (fun r => TTLTier_eqb (ttl_tier r) t)
                                (fragments d))).

(** [MemoryConsolidator._transitionWithCount()] *)
Definition _transitionWithCount (now : Z) : M Z :=
  before <- getDB ;;
  FragmentStore_transitionTTL now ;;;
  after <- getDB ;;
  let transitions :=
    fold_right
      (fun t n =>
         if (tier_count t after =? 0)%Z then n
         else (Z.abs (tier_count t after - tier_count t before) + n)%Z)
      0%Z [hot; warm; cold; permanent] in
  ret (transitions / 2)%Z.

Definition utility (r : Fragment) : Q :=
  importance r * (1 + LN O (Z.max (access_count r) 1)).

(** [MemoryConsolidator._updateUtilityScores()] *)
Definition _updateUtilityScores : M nat :=
  d <- getDB ;;
  let stale r := negb (Qeq_bool (utility_score r) (utility r)) in
  putDB (sql_update "system" stale
           (fun r => set_utility_score (utility r) r) d) ;;;
  ret (rowCount "system" stale d).

(** [MemoryConsolidator._promoteAnchors()] *)
Definition _promoteAnchors : M nat :=
  d <- getDB ;;
  let eligible r :=
    negb (is_anchor r) && (10 <=? access_count r)%Z
    && Qle_bool 0.8 (importance r) in
  putDB (sql_update "system" eligible (set_is_anchor true) d) ;;;
  ret (rowCount "system" eligible d).

Definition halve (i : string) : M unit :=
  modifyDB (sql_update "system" (id_is i)
              (fun r => set_importance (importance r * 0.5) r)).

(** [MemoryConsolidator._resolveContradiction(newFrag, candidate)] *)
Definition _resolveContradiction (newFrag candidate : Fragment) : M unit :=
  FragmentStore_createLink (id newFrag) (id candidate) contradicts
    "system" ;;;
  if (created_at candidate <? created_at newFrag)%Z then
    (if negb (is_anchor candidate) then halve (id candidate) else ret tt) ;;;
    FragmentStore_createLink (id candidate) (id newFrag) superseded_by
      "system"
  else
    halve (id newFrag) ;;;
    FragmentStore_createLink (id newFrag) (id candidate) superseded_by
      "system".

(** [MemoryConsolidator._askGeminiContradiction(contentA, contentB)] *)
Definition _askGeminiContradiction (a b : jsstring) : M bool :=
  logLLM a b ;;;
  ret (match geminiCLIJson O a b with Some v => v | None => false end).

(** [MemoryConsolidator._flagPotentialContradiction] *)
Definition _flagPotentialContradiction (now : Z) (fragA fragB : Fragment)
  : M unit :=
  modifyRedis (fun r =>
    if negb (ready r) then r else
    mkRedis (ready r) (frag_kw r) (frag_tp r) (frag_ty r) (frag_recent r)
      (frag_hot r) (frag_sess r) (frag_wm r) (memory_evaluation r)
      (pending_contradictions r ++
         [mkPending (id fragA) (id fragB) (content fragA) (content fragB)
            now])%list
      (contradiction_check_at r)).

(** The counters of [_detectContradictions]. *)
Record Counters := mkCounters {
  found           : nat;
  nliResolved     : nat;
  nliSkipped      : nat;
  latestProcessed : option Z
}.

Definition later (c : Counters) (t : Z) : option Z :=
  match latestProcessed c with
  | Some l => if (l <? t)%Z then Some t else Some l
  | None => Some t
  end.

Definition has_contradicts_link (a b : string) (d : DB) : bool :=
  existsb (fun l => (link_is a b l || link_is b a l)
                    && RelationType_eqb (relation_type l) contradicts)
          (fragment_links d).

(** Stage 3 for one pair: the pending queue when the CLI is away, the
    Gemini verdict otherwise. *)
Definition escalate (now : Z) (newFrag candidate : Fragment) (sim : Q)
  (c : Counters) : M Counters :=
  if negb (isGeminiCLIAvailable O) then
    (if Qlt_bool 0.92 sim
     then _flagPotentialContradiction now newFrag candidate else ret tt) ;;;
    ret c
  else
    try_catch
      (verdict <- _askGeminiContradiction (content newFrag)
                    (content candidate) ;;
       c' <- (if verdict
              then _resolveContradiction newFrag candidate ;;;
                   ret (mkCounters (S (found c)) (nliResolved c)
                          (nliSkipped c) (latestProcessed c))
              else ret c) ;;
       ret (mkCounters (found c') (nliResolved c') (nliSkipped c')
              (later c' (created_at newFrag))))
      (ret c).

(** The body of the inner loop of [_detectContradictions], for one
    candidate of one new fragment. *)
Definition check_pair (now : Z) (newFrag candidate : Fragment) (sim : Q)
  (c : Counters) : M Counters :=
  d <- getDB ;;
  if has_contradicts_link (id newFrag) (id candidate) d then ret c
  else
    match (if isNLIAvailable O
           then detectContradiction O (content newFrag) (content candidate)
           else None) with
    | Some nliResult =>
        if nli_contradicts nliResult && negb (nli_needsEscalation nliResult)
        then
          _resolveContradiction newFrag candidate ;;;
          ret (mkCounters (S (found c)) (S (nliResolved c)) (nliSkipped c)
                 (later c (created_at newFrag)))
        else if negb (nli_contradicts nliResult)
                && negb (nli_needsEscalation nliResult)
        then
          ret (mkCounters (found c) (nliResolved c) (S (nliSkipped c))
                 (later c (created_at newFrag)))
        else escalate now newFrag candidate sim c
    | None => escalate now newFrag candidate sim c
    end.

Fixpoint foldM {A B} (l : list A) (f : A -> B -> M B) (b : B) : M B :=
  match l with
  | [] => ret b
  | x :: t => b' <- f x b ;; foldM t f b'
  end.

(** The candidates of one new fragment: same topic, cosine similarity
    above 0.85, the three most similar. *)
Definition contradiction_candidates (newFrag : Fragment) (d : DB)
  : list (Fragment * Q) :=
  let self := hd_error (sql_select "system" (id_is (id newFrag)) d) in
  let sim r :=
    match embedding r, self with
    | Some a, Some s => match embedding s with
                        | Some b => similarity O a b | None => 0 end
    | _, _ => 0
    end in
  map (fun r => (r, sim r))
    (firstn 3
       (sort_by (fun a b => Qle_bool (sim b) (sim a))
          (sql_select "system"
             (fun r => negb (id_is (id newFrag) r)
                       && String.eqb (topic r) (topic newFrag)
                       && match embedding r, self with
                          | Some _, Some s =>
                              match embedding s with
                              | Some _ => Qlt_bool 0.85 (sim r)
                              | None => false end
                          | _, _ => false end) d))).

(** [MemoryConsolidator._detectContradictions()].  When no embedded
    fragment is new the source returns the number 0 in place of the
    counters, and [consolidate] reads three undefined fields off it; the
    counters are then written as 0 here. *)
Definition _detectContradictions (now : Z) : M Counters :=
  r <- getRedis ;;
  d <- getDB ;;
  let lastCheckAt := if ready r then contradiction_check_at r else None in
  let newFrags :=
    firstn 20
      (sort_by (fun a b => (created_at b <=? created_at a)%Z)
         (sql_select "system"
            (fun x => match embedding x with Some _ => true | None => false end
                      && match lastCheckAt with
                         | Some t => (t <? created_at x)%Z
                         | None => true end) d)) in
  c <- foldM newFrags
         (fun newFrag c =>
            d' <- getDB ;;
            foldM (contradiction_candidates newFrag d')
                  (fun cand c => check_pair now newFrag (fst cand) (snd cand) c)
                  c)
         (mkCounters 0 0 0 None) ;;
  match latestProcessed c with
  | Some t =>
      modifyRedis (fun r =>
        if negb (ready r) then r else
        mkRedis (ready r) (frag_kw r) (frag_tp r) (frag_ty r)
          (frag_recent r) (frag_hot r) (frag_sess r) (frag_wm r)
          (memory_evaluation r) (pending_contradictions r) (Some t)) ;;;
      ret c
  | None => ret c
  end.

Definition set_pending (l : list PendingContradiction) (r : Redis) : Redis :=
  mkRedis (ready r) (frag_kw r) (frag_tp r) (frag_ty r) (frag_recent r)
    (frag_hot r) (frag_sess r) (frag_wm r) (memory_evaluation r) l
    (contradiction_check_at r).

(** The loop of [_processPendingContradictions]: at most [batch]
    entries; a failure pushes the entry back and stops. *)
Fixpoint drain_pending (batch : nat) (processed : nat) : M nat :=
  match batch with
  | 0%nat => ret processed
  | S batch' =>
      r <- getRedis ;;
      match pending_contradictions r with
      | [] => ret processed
      | entry :: rest =>
          putRedis (set_pending rest r) ;;;
          fun w =>
            match
              (verdict <- _askGeminiContradiction (contentA entry)
                            (contentB entry) ;;
               if verdict then
                 d <- getDB ;;
                 match sql_select "system" (id_is (idA entry)) d,
                       sql_select "system" (id_is (idB entry)) d with
                 | fragA :: _, fragB :: _ =>
                     _resolveContradiction fragA fragB ;;; ret true
                 | _, _ => ret false
                 end
               else ret false) w
            with
            | Return resolved w' =>
                drain_pending batch'
                  (if resolved then S processed else processed) w'
            | Throw w' =>
                (modifyRedis (fun r' =>
                   set_pending (pending_contradictions r' ++ [entry])%list r') ;;;
                 ret processed) w'
            end
      end
  end.

(** [MemoryConsolidator._processPendingContradictions()] *)
Definition _processPendingContradictions : M nat :=
  if negb (isGeminiCLIAvailable O) then ret 0%nat
  else
    r <- getRedis ;;
    if negb (ready r) then ret 0%nat else drain_pending 10 0.

(** [FragmentIndex.pruneKeywordIndexes()] *)
Definition pruneKeywordIndexes : M unit :=
  modifyRedis (fun r =>
    if negb (ready r) then r else
    mkRedis (ready r) (pruneKeywordSets O (frag_kw r)) (frag_tp r)
      (frag_ty r) (frag_recent r) (frag_hot r) (frag_sess r) (frag_wm r)
      (memory_evaluation r) (pending_contradictions r)
      (contradiction_check_at r)).

(** The counters that [consolidate] reports. *)
Record Results := mkResults {
  ttlTransitions        : Z;
  expiredDeleted        : nat;
  duplicatesMerged      : nat;
  embeddingsAdded       : nat;
  utilityUpdated        : nat;
  anchorsPromoted       : nat;
  contradictionsFound   : nat;
  nliResolvedDirectly   : nat;
  nliSkippedAsNonContra : nat;
  pendingContradictions : nat
}.

(** [MemoryConsolidator.consolidate()].  Stages 1 to 7.5 and the index
    pruning; the feedback report (stage 8) and the stale listing
    (stage 10) read the tables and write none of them.  One [try]
    surrounds all stages: a stage that throws ends the run, with the
    world as the stages before it left it.  The counters of a run that
    ended so are all written as 0 here; the source reports those of the
    stages that had finished. *)
Definition consolidate (now : Z) : M Results :=
  try_catch
    (ttl <- _transitionWithCount now ;;
     FragmentStore_decayImportance now ;;;
     expired <- FragmentStore_deleteExpired now ;;
     merged <- _mergeDuplicates ;;
     added <- FragmentStore_generateMissingEmbeddings O 5 ;;
     updated <- _updateUtilityScores ;;
     promoted <- _promoteAnchors ;;
     contra <- _detectContradictions now ;;
     pending <- _processPendingContradictions ;;
     pruneKeywordIndexes ;;;
     ret (mkResults ttl expired merged added updated promoted
            (found contra) (nliResolved contra) (nliSkipped contra)
            pending))
    (ret (mkResults 0 0 0 0 0 0 0 0 0 0)).

(** [n] consolidation runs in a row, all at time [now]. *)
Fixpoint consolidate_times (now : Z) (n : nat) : M unit :=
  match n with
  | 0%nat => ret tt
  | S n' => consolidate now ;;; consolidate_times now n'
  end.
End MemoryConsolidator.


(** ** Runs *)

(** [m] never throws. *)
Definition returns {A} (m : M A) : Prop :=
  forall w, exists a w', m w = Return a w'.

(** [m] keeps the invariant [I], whether it returns or throws. *)
Definition keeps {A} (I : World -> Prop) (m : M A) : Prop :=
  forall w, I w -> I (final (m w)).

(** An invariant that reads the database only. *)
Definition on_db (P : DB -> Prop) : World -> Prop := fun w => P (db w).

(** ** Scenarios

    Concrete worlds on which the operations are evaluated.  The hash of
    the scenarios maps a content to the string of its own characters, so
    that two contents collide exactly when they are equal; everything
    else is switched off unless a scenario needs it. *)

Definition plain_hash (c : jsstring) : string :=
  string_of_list_ascii (map ascii_of_N c).

Definition no_services : Oracles :=
  mkOracles plain_hash false (fun _ => None) (fun _ _ => 0)
    (fun c => ceil_div4 (jslength c)) (fun _ => []) (fun s => s)
    (fun _ _ => None) false false (fun _ _ => None) (fun _ => 0)
    (fun f => f).

Definition empty_redis : Redis :=
  mkRedis true (fun _ => []) (fun _ => []) (fun _ => []) []
    (fun _ => None) (fun _ => []) (fun _ => []) [] [] None.

(** A stored row with the defaults of the schema. *)
Definition stored (i : string) (c : string) (tpc : string)
  (t : FragmentType) (imp : Q) (tier : TTLTier) (created : Z) : Fragment :=
  mkFragment i (js c) tpc [] t imp (plain_hash (js c)) None [] "default"
    0 None created tier (ceil_div4 (jslength (js c))) 1 (Some created)
    None false.

Definition world_of (rows : list Fragment) (links : list FragmentLink)
  : World :=
  mkWorld (mkDB rows links []) empty_redis [].

(** *** Scenario S6 with the premise order of the classifier reversed

    Two decisions on the pool size, the older one created at 1000 and the
    newer one at 2000, both embedded and similar.  The classifier sees a
    contradiction (0.9) when the older text is the premise and none when
    the newer text is. *)

Definition pool_old : Fragment :=
  set_embedding (Some [1])
    (stored "frag-a" "Max connection pool size is 10." "db" decision 0.8
       permanent 1000).

Definition pool_new : Fragment :=
  set_embedding (Some [1])
    (stored "frag-b" "Max connection pool size is 20." "db" decision 0.8
       permanent 2000).

Definition pool_nli (premise hypothesis : jsstring) : option NLIScores :=
  if is_prefix (content pool_old) premise
  then Some (mkScores 0.05 0.05 0.9)
  else Some (mkScores 0.1 0.8 0.1).

Definition pool_services : Oracles :=
  mkOracles plain_hash true (fun _ => None) (fun _ _ => 0.9)
    (fun c => ceil_div4 (jslength c)) (fun _ => []) (fun s => s)
    pool_nli true false (fun _ _ => None) (fun _ => 0) (fun f => f).

Definition pool_world : World := world_of [pool_old; pool_new] [].

(** *** An anchored fragment that has been idle for 31 days *)

Definition idle_anchor : Fragment :=
  set_is_anchor true
    (set_access 12 (Some 0%Z)
       (stored "frag-k" "Deploys go out on Tuesdays." "ops" fact 0.5 warm 0)).

Definition idle_world : World := world_of [idle_anchor] [].

Definition idle_now : Z := 31 * DAY.

(** *** Two linked fragments, one of which is forgotten or expires *)

Definition link_keeper : Fragment :=
  set_linked_to ["frag-y"%string]
    (stored "frag-x" "Redis NOAUTH indicates missing REDIS_PASSWORD." "redis"
       error 0.9 permanent 0).

Definition link_leaver : Fragment :=
  set_linked_to ["frag-x"%string]
    (stored "frag-y" "Set REDIS_PASSWORD in the environment." "redis"
       procedure 0.05 hot 0).

Definition linked_world : World :=
  world_of [link_keeper; link_leaver] [mkLink "frag-x" "frag-y" resolved_by].

Definition forget_leaver : ForgetParams := mkForgetParams "frag-y" "" false "".

Definition linked_now : Z := 100 * DAY.

(** The reversed S6 scenario with the older decision anchored. *)
Definition pool_world_anchored : World :=
  world_of [set_is_anchor true pool_old; pool_new] [].

(** An assignment that touches neither the key nor the owner. *)
Definition keeps_key (f : Fragment -> Fragment) : Prop :=
  forall r, id (f r) = id r /\ agent_id (f r) = agent_id r.


(** *** Scenario S4: an amendment whose content another fragment holds *)

Definition node20 : Fragment :=
  stored "frag-n20" "Node 20 is required." "stack" fact 0.5 warm 1000.

Definition node22 : Fragment :=
  stored "frag-n22" "Use Node 22 instead." "stack" fact 0.5 warm 2000.

Definition node_world : World := world_of [node20; node22] [].


(** Total correctness: from [P], [m] returns a value and a world that
    satisfy [Q]. *)
Definition hoare {A} (P : World -> Prop) (m : M A)
  (Q : A -> World -> Prop) : Prop :=
  forall w, P w -> exists a w', m w = Return a w' /\ Q a w'.



(** The rows of [fragments] are the ones with the ids [ids], in order. *)
Definition same_ids (ids : list string) (d : DB) : Prop :=
  map id (fragments d) = ids.


(** *** A second [remember] of a stored content, and two agents *)

Definition remember_node20 : Params :=
  mkParams (js "Node 20 is required.") "stack" (Some fact) [] (Some 0.9)
    None [] "" "" "" false.

(** The fragment that the factory builds from [remember_node20]. *)
Definition node20_candidate : Fragment :=
  mkFragment "frag-new" (js "Node 20 is required.") "stack" [] fact 0.9
    "Node 20 is requi" None [] "default" 0 None 0 permanent 5 1 None None
    false.

Definition bob_note : Fragment :=
  set_agent_id "bob"
    (stored "frag-bob" "Rotate the API token monthly." "ops" fact 0.5 warm
       1500).

Definition agents_world : World := world_of [node20; bob_note] [].

Definition alice_remember : Params :=
  mkParams (js "Rotate the API token monthly.") "ops" (Some fact) [] None
    None [] "alice" "" "" false.

(** *** A recall under a token budget *)

(** Twelve UTF-16 code units of Hangul; the stored [estimated_tokens], which
    the factory counts on the text, is 18. *)
Definition hangul_note : Fragment :=
  mkFragment "frag-ko"
    [47112; 46356; 49828; 32; 51064; 51613; 32; 49892; 54056; 32; 50896;
     51064]%N
    "redis" ["redis"%string; "noauth"%string] error 0.9 "h-ko" None
    ["frag-fix"%string] "default" 0 None 0 permanent 18 1 (Some 0%Z) None
    false.

Definition fix_note : Fragment :=
  set_keywords ["sentinel"%string]
    (set_linked_to ["frag-ko"%string]
       (stored "frag-fix" "Set REDIS_PASSWORD in the environment." "redis"
          procedure 0.7 hot 0)).

Definition budget_world : World :=
  world_of [hangul_note; fix_note]
    [mkLink "frag-ko" "frag-fix" resolved_by].

(** [recall({keywords: ["noauth"], tokenBudget: 3, includeLinks})]. *)
Definition recall_noauth (links : option bool) : RecallParams :=
  mkRecallParams ["noauth"%string] "" None [] 3 0 0 links None None "".





(** *** Rows of one content hash *)

(** The ids that a run of [_mergeDuplicates] removes: the [removeIds] of
    every group. *)
Definition removeIds_of (d : DB) : list string :=
  List.concat (map (@tl string) (dup_groups d)).

(** A row without its [linked_to] array. *)
Definition sans_links (r : Fragment) : Fragment := set_linked_to [] r.

(** One pass of the inner loop of [_mergeDuplicates] as it leaves the
    rows: [rid] is gone and every [linked_to] names [keepId] in its
    place. *)
Definition relink (keepId rid : string) (r : Fragment) : Fragment :=
  set_linked_to (array_replace (linked_to r) rid keepId) r.

Definition merge_rows (keepId rid : string) (rows : list Fragment)
  : list Fragment :=
  map (relink keepId rid) (filter (fun r => negb (id_is rid r)) rows).

(** The [(keepId, rid)] pairs of a run, in the order of the two loops. *)
Definition merge_pairs (groups : list (list string))
  : list (string * string) :=
  List.concat
    (map (fun ids => match ids with
                     | [] => []
                     | keepId :: removeIds => map (pair keepId) removeIds
                     end)
         groups).

(** The ids of the rows of hash [h], as [array_agg] orders them. *)
Definition group_of (d : DB) (h : string) : list string :=
  map id (sort_by merge_order
            (filter (fun r => String.eqb (content_hash r) h)
                    (fragments d))).

(** All passes of a run, on the rows and on one row. *)
Definition merge_all (pairs : list (string * string))
  (rows : list Fragment) : list Fragment :=
  fold_left (fun rows p => merge_rows (fst p) (snd p) rows) pairs rows.

Definition relink_all (pairs : list (string * string)) (r : Fragment)
  : Fragment :=
  fold_left (fun r p => relink (fst p) (snd p) r) pairs r.

(** The hashes that [_mergeDuplicates] handles in one run. *)
Definition dup_hashes (d : DB) : list string :=
  firstn 50
    (filter (fun h => Nat.ltb 1 (List.length (group_of d h)))
            (nodup string_dec (map content_hash (fragments d)))).

(** The edges that the cascade leaves when the rows [gone] are deleted. *)
Definition unlink (gone : list string) (links : list FragmentLink)
  : list FragmentLink :=
  filter (fun l => negb (mem (from_id l) gone || mem (to_id l) gone)) links.

(** ** The patterns of [_redactPII], read as languages

    The notions below are not in the source: they state what the matcher
    of the section on regular expressions computes, and what a scan with
    [replace] leaves. *)

(** The strings that a pattern matches as a whole. *)
Fixpoint Lang (r : regex) (m : jsstring) : Prop :=
  match r with
  | Chr p => exists c, m = [c] /\ p c = true
  | Seq r1 r2 =>
      exists m1 m2, m = (m1 ++ m2)%list /\ Lang r1 m1 /\ Lang r2 m2
  | Alt r1 r2 => Lang r1 m \/ Lang r2 m
  | Rep lo hi p =>
      forallb p m = true /\ (lo <= List.length m)%nat
      /\ match hi with
         | Some h => (List.length m <= h)%nat
         | None => True
         end
  | Grp r1 => Lang r1 m
  end.

(** The pattern may match the empty string. *)
Fixpoint nullable (r : regex) : bool :=
  match r with
  | Chr _ => false
  | Seq r1 r2 => nullable r1 && nullable r2
  | Alt r1 r2 => nullable r1 || nullable r2
  | Rep lo _ _ => Nat.eqb lo 0
  | Grp r1 => nullable r1
  end.

(** The characters that may occur in a match. *)
Fixpoint alphabet (r : regex) (c : N) : bool :=
  match r with
  | Chr p => p c
  | Seq r1 r2 => alphabet r1 c || alphabet r2 c
  | Alt r1 r2 => alphabet r1 c || alphabet r2 c
  | Rep _ _ p => p c
  | Grp r1 => alphabet r1 c
  end.

(** The characters that may start a match. *)
Fixpoint first_chars (r : regex) (c : N) : bool :=
  match r with
  | Chr p => p c
  | Seq r1 r2 =>
      first_chars r1 c || (nullable r1 && first_chars r2 c)
  | Alt r1 r2 => first_chars r1 c || first_chars r2 c
  | Rep _ _ p => p c
  | Grp r1 => first_chars r1 c
  end.

(** No capture group inside. *)
Fixpoint grp_free (r : regex) : bool :=
  match r with
  | Chr _ => true
  | Seq r1 r2 => grp_free r1 && grp_free r2
  | Alt r1 r2 => grp_free r1 && grp_free r2
  | Rep _ _ _ => true
  | Grp _ => false
  end.

(** The continuation of [exec]: the match ends here. *)
Definition accept (s : jsstring) : option MatchState := Some (s, None).

(** No suffix of [t] starts with a match of [r]. *)
Fixpoint free (r : regex) (t : jsstring) : Prop :=
  match t with
  | [] => True
  | _ :: t' => exec r t = None /\ free r t'
  end.

(** [rest] is empty or starts outside the class [p]. *)
Definition stops (p : N -> bool) (rest : jsstring) : Prop :=
  match rest with
  | [] => True
  | c :: _ => p c = false
  end.

(** The scan of [replace] as a relation between input and output. *)
Inductive Scan (r : regex) (f : jsstring -> option jsstring -> jsstring)
  : jsstring -> jsstring -> Prop :=
| Scan_nil : Scan r f [] []
| Scan_keep (c : N) (t out : jsstring) :
    exec r (c :: t) = None -> Scan r f t out ->
    Scan r f (c :: t) (c :: out)
| Scan_hit (m rest : jsstring) (cap : option jsstring) (out : jsstring) :
    m <> [] -> exec r (m ++ rest)%list = Some (List.length m, cap) ->
    Scan r f rest out ->
    Scan r f (m ++ rest)%list (f m cap ++ out)%list.

(** A replacement text that cannot take part in a match of [r]: it starts
    outside the alphabet of [r], and nothing in it starts a match,
    whatever follows it. *)
Definition inert (r : regex) (body : jsstring) : Prop :=
  stops (alphabet r) body /\ body <> []
  /\ forall b1 b2 rest,
       body = (b1 ++ b2)%list -> b2 <> [] -> exec r (b2 ++ rest)%list = None.

(** The characters of [b] up to the first one outside the class [C], if
    there is one. *)
Fixpoint chunk (C : N -> bool) (b : jsstring) : option jsstring :=
  match b with
  | [] => None
  | c :: t => if C c then option_map (cons c) (chunk C t) else Some []
  end.

(** A decision procedure for [inert]. *)
Fixpoint inert_from (r : regex) (b : jsstring) : bool :=
  match b with
  | [] => true
  | _ :: t =>
      match chunk (alphabet r) b with
      | Some ch => match exec r ch with None => true | Some _ => false end
      | None => false
      end && inert_from r t
  end.

Definition inert_check (r : regex) (body : jsstring) : bool :=
  match body with
  | c :: _ => negb (alphabet r c) && inert_from r body
  | [] => false
  end.

(** *** The password pattern in parts *)

(** The alternatives of the capture group, and what follows the group:
    [re_password] is [Seq (Grp re_keys) re_tail]. *)
Definition key_words : list jsstring :=
  [js "password"; js "passwd"; js "pwd"; bimilbeonho; bibeon].

Definition re_keys : regex :=
  Alt (lit true (js "password"))
   (Alt (lit true (js "passwd"))
    (Alt (lit true (js "pwd"))
     (Alt (lit true bimilbeonho) (lit true bibeon)))).

Definition re_tail : regex :=
  Seq (Rep 0 None space)
   (Seq (Chr assign_char)
     (Seq (Rep 0 None space) (Rep 1 None value_char))).

(** An ASCII capital as its small letter. *)
Definition fold_case (c : N) : N := if upper c then (c + 32)%N else c.

(** [k] is one of the keys, in any case. *)
Definition is_key (k : jsstring) : Prop := In (map fold_case k) key_words.

(** The first characters of the keys, and the other ones. *)
Definition initial_code (x : N) : bool := ((x =? 112) || (x =? 48708))%N.
Definition inner_code (x : N) : bool :=
  existsb (N.eqb x) (List.concat (map (@tl N) key_words)).
Definition key_initial (c : N) : bool := initial_code (fold_case c).
Definition key_inner (c : N) : bool := inner_code (fold_case c).

(** What may stand in a match of [re_password] after its first character
    and before the value. *)
Definition head_inner (c : N) : bool :=
  key_inner c || space c || assign_char c.

(** The remainder of [s] after a literal [w], if [s] starts with it. *)
Fixpoint strip (ignoreCase : bool) (w s : jsstring) : option jsstring :=
  match w, s with
  | [], _ => Some s
  | x :: w', c :: s' =>
      if lit_char ignoreCase x c then strip ignoreCase w' s' else None
  | _ :: _, [] => None
  end.

(** Two words differ at a position that both have. *)
Fixpoint mismatch (w v : jsstring) : bool :=
  match w, v with
  | x :: w', y :: v' => negb (x =? y)%N || mismatch w' v'
  | _, _ => false
  end.

(** A text that starts with what the password replacer writes, and where
    the value ends with the marker. *)
Definition tokform (x : jsstring) : Prop :=
  exists k rest,
    x = (k ++ REDACTED_PWD ++ rest)%list /\ is_key k
    /\ stops value_char rest.

(** Every match of [re_password] in [t] is one that the replacer
    rewrites to itself. *)
Fixpoint selfrep (t : jsstring) : Prop :=
  match t with
  | [] => True
  | _ :: t' => (exec re_password t = None \/ tokform t) /\ selfrep t'
  end.

(** Where the output of a scan, [o], and its input, [o'], part: at a
    character of [o] that cannot continue the head of a password match,
    and that is a value character only if the input has one there. *)
Definition bound (o o' : jsstring) : Prop :=
  match o with
  | [] => True
  | c :: _ =>
      head_inner c = false
      /\ match o' with
         | c' :: _ => value_char c = true -> value_char c' = true
         | [] => value_char c = false
         end
  end.

(** ** Further properties: definitions *)

(** The rows that the policy hides from [agentId]. *)
Definition hidden_rows (agentId : string) (d : DB) : list Fragment :=
  filter (fun r => negb (visible agentId r)) (fragments d).

(** [m] is a query: it returns, leaves the world as it was, and its
    answer [a] in the world [w] satisfies [P w a]. *)
Definition reads {A} (m : M A) (P : World -> A -> Prop) : Prop :=
  forall w, exists a, m w = Return a w /\ P w a.

(** A query every row of whose answer is a stored row that the policy
    shows to [agentId]. *)
Definition reads_visible {A} (rows : A -> list Fragment) (agentId : string)
  (m : M A) : Prop :=
  reads m (fun w a =>
    Forall (fun r => In r (fragments (db w)) /\ visible agentId r = true)
           (rows a)).

(** [m] leaves the rows hidden from [agentId] as they were, whether it
    returns or throws. *)
Definition spares_hidden {A} (agentId : string) (m : M A) : Prop :=
  forall w, hidden_rows agentId (db (final (m w)))
            = hidden_rows agentId (db w).

(** The query that [recall] hands to the search. *)
Definition recall_query (p : RecallParams) : Query :=
  mkQuery (rp_keywords p) (rp_topic p) (rp_type p) (rp_text p)
    (Qor (rp_tokenBudget p) 1000) (rp_minImportance p) (rp_fragmentCount p).

(** A row after a write that can only count accesses: the row as it
    was or, if [counted] allows it, the row with another access count and
    time. *)
Definition access_only (counted : Fragment -> Prop) (r r' : Fragment)
  : Prop :=
  r' = r \/ counted r /\ exists n t, r' = set_access n t r.


(** A preference that agent [alice] stores. *)
Definition alice_note : Fragment :=
  set_agent_id "alice"
    (stored "frag-al" "Prefer tabs over spaces." "style" preference 0.95
       permanent 4000).

(** *** Entries of a working memory *)

Definition wm_pinned : WMEntry :=
  mkWMEntry "wm-1" (js "Never force-push to main.") preference "git" 0.95 10
    1000.

Definition wm_large : WMEntry :=
  mkWMEntry "wm-2" (js "Full log of the failed deploy.") fact "deploy" 0.5
    300 2000.

Definition wm_small : WMEntry :=
  mkWMEntry "wm-3" (js "Retry after the cache warms up.") procedure "deploy"
    0.7 250 3000.

Definition wm_three : list WMEntry :=
  [wm_large; wm_small; mkWMEntry "wm-4" (js "Use the staging bucket.") fact
                         "deploy" 0.5 200 4000].

(** [amend({id: "frag-n20", content, importance: 0.9, supersedes: true})]. *)
Definition amend_superseding : AmendParams :=
  mkAmendParams "frag-n20" (Some (js "Node 20 or later is required.")) None
    None None (Some 0.9) None true "".

(** ** Deleting all the memory of an agent *)





(** ** What a stored fragment is: its id, its content and its owner *)

Definition row_key (r : Fragment) : string * jsstring * string :=
  (id r, content r, agent_id r).

(** The rows of [fragments] are the ones with the keys [ks], in order. *)
Definition same_keys (ks : list (string * jsstring * string)) (d : DB)
  : Prop :=
  map row_key (fragments d) = ks.

(** An assignment that leaves the id, the content and the owner. *)
Definition keeps_content (f : Fragment -> Fragment) : Prop :=
  forall r, row_key (f r) = row_key r.

(** [remember({content: "Prefer tabs over spaces.", agentId: "alice"})]. *)
Definition alice_tabs : Params :=
  mkParams (js "Prefer tabs over spaces.") "style" (Some preference) [] None
    None [] "alice" "" "" false.

(** ** What a consolidation run keeps *)

(** No two rows hold one [content_hash] ([idx_frag_hash]). *)
Definition unique_hashes (d : DB) : Prop :=
  NoDup (map content_hash (fragments d)).

(** What the primary key and the unique index admit. *)
Definition admissible (d : DB) : Prop :=
  NoDup (map id (fragments d)) /\ unique_hashes d.




(** The row [r] is still stored in [d] under its id and with its
    content, still an anchor if it was one and still permanent if it
    was. *)
Definition survives (r : Fragment) (d : DB) : Prop :=
  exists r',
    In r' (fragments d) /\ id r' = id r /\ content r' = content r
    /\ (is_anchor r = true -> is_anchor r' = true)
    /\ (ttl_tier r = permanent -> ttl_tier r' = permanent).

(** An assignment, applied where [p] holds, that leaves the id, the
    content and its hash, takes no anchor away and demotes no permanent
    row. *)
Definition gentle (p : Fragment -> bool) (f : Fragment -> Fragment) : Prop :=
  forall x, p x = true ->
    id (f x) = id x /\ content (f x) = content x
    /\ content_hash (f x) = content_hash x
    /\ (is_anchor x = true -> is_anchor (f x) = true)
    /\ (ttl_tier x = permanent -> ttl_tier (f x) = permanent).

(** The invariant of a consolidation run, for a row [r]. *)
Definition run_inv (r : Fragment) (d : DB) : Prop :=
  unique_hashes d /\ survives r d.

(** [remember({content: "Write to ops@example.com for access."})]. *)
Definition mail_params : Params :=
  mkParams (js "Write to ops@example.com for access.") "ops" (Some fact) []
    None None [] "" "" "" false.
(** * Properties *)

Unset Implicit Arguments.

(** ** Reasoning about runs *)

Lemma returns_ret A (a : A) : returns (ret a).
Proof. intros w. exists a, w. reflexivity. Qed.

Lemma returns_bind A B (m : M A) (k : A -> M B) :
  returns m -> (forall a, returns (k a)) -> returns (bind m k).
Proof.
  intros Hm Hk w. destruct (Hm w) as (a & w1 & E).
  destruct (Hk a w1) as (b & w2 & E2).
  exists b, w2. unfold bind. now rewrite E.
Qed.

Lemma returns_try_catch A (m h : M A) : returns h -> returns (try_catch m h).
Proof.
  intros Hh w. unfold try_catch. destruct (m w) as [a w1 | w1].
  - now exists a, w1.
  - apply Hh.
Qed.

Lemma returns_forM A (l : list A) (f : A -> M unit) :
  (forall x, returns (f x)) -> returns (forM l f).
Proof.
  intros Hf. induction l as [| x t IH]; simpl.
  - apply returns_ret.
  - apply returns_bind; auto.
Qed.

Lemma returns_getDB : returns getDB.
Proof. intros w. now exists (db w), w. Qed.

Lemma returns_getRedis : returns getRedis.
Proof. intros w. now exists (redis w), w. Qed.

Lemma returns_putDB d : returns (putDB d).
Proof. intros w. eexists tt, _. reflexivity. Qed.

Lemma returns_putRedis r : returns (putRedis r).
Proof. intros w. eexists tt, _. reflexivity. Qed.

Lemma returns_modifyDB f : returns (modifyDB f).
Proof.
  unfold modifyDB. apply returns_bind; [apply returns_getDB |].
  intros; apply returns_putDB.
Qed.

Lemma returns_modifyRedis f : returns (modifyRedis f).
Proof.
  unfold modifyRedis. apply returns_bind; [apply returns_getRedis |].
  intros; apply returns_putRedis.
Qed.

Lemma returns_if A (b : bool) (m1 m2 : M A) :
  returns m1 -> returns m2 -> returns (if b then m1 else m2).
Proof. now destruct b. Qed.

Lemma keeps_ret A I (a : A) : keeps I (ret a).
Proof. intros w H. exact H. Qed.

Lemma keeps_throw A I : keeps I (@throw A).
Proof. intros w H. exact H. Qed.

Lemma keeps_bind A B I (m : M A) (k : A -> M B) :
  keeps I m -> (forall a, keeps I (k a)) -> keeps I (bind m k).
Proof.
  intros Hm Hk w H. unfold bind. specialize (Hm w H).
  destruct (m w) as [a w1 | w1]; simpl in *; auto.
  now apply Hk.
Qed.

Lemma keeps_try_catch A I (m h : M A) :
  keeps I m -> keeps I h -> keeps I (try_catch m h).
Proof.
  intros Hm Hh w H. unfold try_catch. specialize (Hm w H).
  destruct (m w) as [a w1 | w1]; simpl in *; auto.
Qed.

Lemma keeps_forM A I (l : list A) (f : A -> M unit) :
  (forall x, keeps I (f x)) -> keeps I (forM l f).
Proof.
  intros Hf. induction l as [| x t IH]; simpl.
  - apply keeps_ret.
  - apply keeps_bind; auto.
Qed.

Lemma keeps_if A I (b : bool) (m1 m2 : M A) :
  keeps I m1 -> keeps I m2 -> keeps I (if b then m1 else m2).
Proof. now destruct b. Qed.

Lemma keeps_getDB I : keeps I getDB.
Proof. intros w H. exact H. Qed.

Lemma keeps_getRedis I : keeps I getRedis.
Proof. intros w H. exact H. Qed.

Lemma keeps_modifyDB (P : DB -> Prop) f :
  (forall d, P d -> P (f d)) -> keeps (on_db P) (modifyDB f).
Proof. intros Hf w H. unfold on_db in *. simpl. now apply Hf. Qed.

Lemma keeps_putDB (P : DB -> Prop) d : P d -> keeps (on_db P) (putDB d).
Proof. intros Hd w H. exact Hd. Qed.

Lemma keeps_modifyRedis (P : DB -> Prop) f : keeps (on_db P) (modifyRedis f).
Proof. intros w H. exact H. Qed.

Lemma keeps_putRedis (P : DB -> Prop) r : keeps (on_db P) (putRedis r).
Proof. intros w H. exact H. Qed.

(** What [bind] does once its first part has returned. *)
Lemma bind_Return A B (m : M A) (k : A -> M B) w a w1 :
  m w = Return a w1 -> bind m k w = k a w1.
Proof. intros E. unfold bind. now rewrite E. Qed.

(** What [bind] does once its first part has thrown. *)
Lemma bind_Throw A B (m : M A) (k : A -> M B) w w1 :
  m w = Throw w1 -> bind m k w = Throw w1.
Proof. intros E. unfold bind. now rewrite E. Qed.

(** What a [bind] that returned went through. *)
Lemma bind_inv A B (m : M A) (k : A -> M B) w b w' :
  bind m k w = Return b w' ->
  exists a w1, m w = Return a w1 /\ k a w1 = Return b w'.
Proof.
  unfold bind. destruct (m w) as [a w1 | w1]; [eauto | discriminate].
Qed.

(** ** Comparisons on scores *)

Lemma Qor_0 (c x : Q) : Qle_bool x (Qor c 0) = Qle_bool x c.
Proof.
  unfold Qor. destruct (Qeq_bool c 0) eqn:E; [| reflexivity].
  apply Qeq_bool_iff in E.
  apply eq_true_iff_eq. rewrite !Qle_bool_iff. now rewrite E.
Qed.

Lemma Qle_bool_false x y : Qle_bool x y = false <-> ~ (x <= y)%Q.
Proof.
  rewrite <- Qle_bool_iff. destruct (Qle_bool x y); split; congruence.
Qed.

Lemma Qlt_bool_iff x y : Qlt_bool x y = true <-> (x < y)%Q.
Proof.
  unfold Qlt_bool. rewrite negb_true_iff, Qle_bool_false.
  split; [apply Qnot_le_lt | apply Qlt_not_le].
Qed.

Lemma Qlt_bool_false x y : Qlt_bool x y = false <-> (y <= x)%Q.
Proof.
  unfold Qlt_bool. now rewrite negb_false_iff, Qle_bool_iff.
Qed.

(** ** NLIClassifier: the threshold table *)

(** Two bounds on one score that cannot both hold. *)
Ltac q_contra :=
  match goal with
  | H : ~ (?x <= ?c)%Q, C : (?y <= ?c)%Q |- _ =>
      exfalso; apply H; apply Qle_trans with y;
      [unfold Qle; simpl; lia | exact C]
  end.

Section Thresholds.
Variable O : Oracles.

(** The verdict of [detectContradiction] follows the threshold table,
    evaluated in order. *)
Lemma detectContradiction_table (a b : jsstring) (s : NLIScores) :
  classifyNLI O a b = Some s ->
  exists v,
    detectContradiction O a b = Some v /\ nli_scores v = s /\
    (0.8 <= contradiction s ->
     nli_contradicts v = true /\ nli_needsEscalation v = false) /\
    (~ 0.8 <= contradiction s -> 0.6 <= entailment s ->
     nli_contradicts v = false /\ nli_needsEscalation v = false) /\
    (~ 0.8 <= contradiction s -> ~ 0.6 <= entailment s ->
     0.5 <= contradiction s ->
     nli_contradicts v = true /\ nli_needsEscalation v = true) /\
    (~ 0.6 <= entailment s -> ~ 0.5 <= contradiction s ->
     0.2 <= contradiction s ->
     nli_contradicts v = false /\ nli_needsEscalation v = true) /\
    (~ 0.6 <= entailment s -> ~ 0.2 <= contradiction s ->
     nli_contradicts v = false /\ nli_needsEscalation v = false).
Proof.
  intros E. unfold detectContradiction. rewrite E.
  eexists; split; [reflexivity |].
  unfold verdict_of. rewrite !Qor_0.
  destruct (Qle_bool 0.8 (contradiction s)) eqn:C8;
    [apply Qle_bool_iff in C8 | apply Qle_bool_false in C8].
  { simpl. repeat split; intros; try tauto; q_contra. }
  destruct (Qle_bool 0.6 (entailment s)) eqn:E6;
    [apply Qle_bool_iff in E6 | apply Qle_bool_false in E6].
  { simpl. repeat split; intros; try tauto; q_contra. }
  destruct (Qle_bool 0.5 (contradiction s)) eqn:C5;
    [apply Qle_bool_iff in C5 | apply Qle_bool_false in C5].
  { simpl. repeat split; intros; try tauto; q_contra. }
  destruct (Qle_bool 0.2 (contradiction s)) eqn:C2;
    [apply Qle_bool_iff in C2 | apply Qle_bool_false in C2];
    simpl; repeat split; intros; try tauto; q_contra.
Qed.
End Thresholds.

(** ** Contradiction resolution on the reversed S6 scenario *)

(** C7.  With the older decision as premise the classifier reports a
    contradiction of 0.9, so [detectContradiction] answers
    [contradicts] without escalation and the Gemini CLI is never asked.
    [_resolveContradiction] first upserts the edge
    [(frag-a, frag-b, contradicts)]; the older fragment is the "new" one of
    the pair, so the [else] branch then upserts
    [(frag-a, frag-b, superseded_by)] on the same ordered pair, and the
    detection ends with no [contradicts] edge between the two. *)
Theorem contradicts_edge_overwritten :
  let run := _detectContradictions pool_services 5000 pool_world in
  (exists v,
      detectContradiction pool_services (content pool_old) (content pool_new)
      = Some v
      /\ 0.8 <= contradiction (nli_scores v)
      /\ nli_contradicts v = true /\ nli_needsEscalation v = false)
  /\ result run = Some (mkCounters 1 1 1 (Some 2000%Z))
  /\ llm_calls (final run) = []
  /\ fragment_links (db (final run))
     = [mkLink "frag-a" "frag-b" superseded_by]
  /\ has_contradicts_link "frag-a" "frag-b" (db (final run)) = false.
Proof.
  cbv zeta. split.
  - eexists. split; [vm_compute; reflexivity |].
    split; [vm_compute; discriminate | split; reflexivity].
  - repeat split; vm_compute; reflexivity.
Qed.

(** ** Anchors under the maintenance sweeps *)

Lemma sql_update_skips agentId p f d r :
  In r (fragments d) -> p r = false ->
  In r (fragments (sql_update agentId p f d)).
Proof.
  intros Hin Hp. unfold sql_update; simpl. apply in_map_iff.
  exists r. split; [| exact Hin]. rewrite Hp. now rewrite andb_false_r.
Qed.

Lemma sql_delete_skips agentId p d r :
  In r (fragments d) -> p r = false ->
  In r (fragments (sql_delete agentId p d)).
Proof.
  intros Hin Hp. unfold sql_delete; simpl. apply filter_In.
  split; [exact Hin |]. rewrite Hp. now rewrite andb_false_r.
Qed.

(** [decayImportance] leaves an anchored row as it is. *)
Lemma decayImportance_skips_anchor now w r :
  In r (fragments (db w)) -> is_anchor r = true ->
  In r (fragments (db (final (FragmentStore_decayImportance now w)))).
Proof.
  intros Hin Ha. unfold FragmentStore_decayImportance. simpl.
  apply sql_update_skips; [exact Hin |].
  unfold decays. rewrite Ha. simpl. now rewrite !andb_false_r.
Qed.

(** [deleteExpired] leaves an anchored row as it is. *)
Lemma deleteExpired_skips_anchor now w r :
  In r (fragments (db w)) -> is_anchor r = true ->
  In r (fragments (db (final (FragmentStore_deleteExpired now w)))).
Proof.
  intros Hin Ha. unfold FragmentStore_deleteExpired. simpl.
  apply sql_delete_skips; [exact Hin |].
  unfold expired. rewrite Ha. simpl. now rewrite !andb_false_r.
Qed.

(** C2.  An anchored fragment in the warm tier that nobody has read for
    31 days: one consolidation run moves it to the cold tier.  The
    demotion statement of [transitionTTL] carries no [is_anchor = FALSE]
    condition, which [decayImportance] and [deleteExpired] do carry. *)
Theorem anchor_demoted_by_consolidation :
  is_anchor idle_anchor = true
  /\ ttl_tier idle_anchor = warm
  /\ map (fun r => (id r, is_anchor r, ttl_tier r, importance r))
         (fragments (db (final (consolidate no_services idle_now idle_world))))
     = [("frag-k"%string, true, cold, 0.5)].
Proof. repeat split; vm_compute; reflexivity. Qed.

(** The [else] branch of [_resolveContradiction] halves the "new"
    fragment of the pair without looking at its anchor flag. *)
Lemma anchor_halved_by_resolution :
  map (fun r => (id r, is_anchor r, importance r))
      (fragments (db (final (_detectContradictions pool_services 5000
                               pool_world_anchored))))
  = [("frag-a"%string, true, 0.8 * 0.5); ("frag-b"%string, false, 0.8)].
Proof. vm_compute. reflexivity. Qed.

(** ** Deletion and the [linked_to] mirror *)

(** C6.  [forget] of one of two linked fragments removes the row and,
    through the foreign keys, the edge, but the id stays in the
    [linked_to] of the other fragment, and the next consolidation run
    does not remove it either.  The same holds when the row goes through
    the expiry sweep.  The [delete] that strips the id from the arrays is
    the first of two declarations of that name in the class, and the
    second one replaces it. *)
Theorem deleted_id_stays_in_linked_to :
  let forgotten := MemoryManager_forget no_services forget_leaver linked_world in
  let consolidated := consolidate no_services linked_now (final forgotten) in
  let expired := consolidate no_services linked_now linked_world in
  result forgotten = Some (1, 0)%nat
  /\ fragment_links (db (final forgotten)) = []
  /\ map (fun r => (id r, linked_to r)) (fragments (db (final forgotten)))
     = [("frag-x", ["frag-y"])]%string
  /\ map (fun r => (id r, linked_to r)) (fragments (db (final consolidated)))
     = [("frag-x", ["frag-y"])]%string
  /\ option_map expiredDeleted (result expired) = Some 1%nat
  /\ fragment_links (db (final expired)) = []
  /\ map (fun r => (id r, linked_to r)) (fragments (db (final expired)))
     = [("frag-x", ["frag-y"])]%string.
Proof. cbv zeta. repeat split; vm_compute; reflexivity. Qed.

(** The replaced declaration of [delete] does strip the id. *)
Lemma shadowed_delete_prunes :
  map (fun r => (id r, linked_to r))
      (fragments (db (final (FragmentStore_delete_shadowed "frag-y" "default"
                               linked_world))))
  = [("frag-x"%string, [])].
Proof. vm_compute. reflexivity. Qed.

(** ** Queries after updates *)

Lemma visible_agent a r r' : agent_id r' = agent_id r -> visible a r' = visible a r.
Proof. intros E. unfold visible. now rewrite E. Qed.

Lemma sql_select_update a i a' p f d :
  keeps_key f ->
  sql_select a (id_is i) (sql_update a' p f d)
  = map (fun r => if visible a' r && p r then f r else r)
        (sql_select a (id_is i) d).
Proof.
  intros Hf. unfold sql_select, sql_update; simpl.
  induction (fragments d) as [| r t IH]; simpl; [reflexivity |].
  assert (E : (visible a (if visible a' r && p r then f r else r)
               && id_is i (if visible a' r && p r then f r else r))%bool
              = (visible a r && id_is i r)%bool).
  { destruct (visible a' r && p r)%bool; [| reflexivity].
    destruct (Hf r) as [Hi Ha]. unfold id_is. rewrite Hi.
    now rewrite (visible_agent a _ _ Ha). }
  rewrite E. destruct (visible a r && id_is i r)%bool; simpl; now rewrite IH.
Qed.

Lemma keeps_key_append_link t : keeps_key (append_link t).
Proof. intros r. split; reflexivity. Qed.

Lemma existsb_id_is i a d r :
  hd_error (sql_select a (id_is i) d) = Some r ->
  existsb (id_is i) (fragments d) = true.
Proof.
  unfold sql_select. intros H. apply existsb_exists.
  destruct (filter _ _) as [| x t] eqn:E; [discriminate |].
  injection H as ->.
  assert (Hin : In r (r :: t)) by now left.
  rewrite <- E in Hin. apply filter_In in Hin. destruct Hin as [Hin Hp].
  exists r. split; [exact Hin |]. now apply andb_true_iff in Hp.
Qed.

Lemma sql_select_hd a p d r :
  hd_error (sql_select a p d) = Some r -> (visible a r && p r)%bool = true.
Proof.
  unfold sql_select. intros H.
  destruct (filter _ _) as [| x t] eqn:E; [discriminate |].
  injection H as ->.
  assert (Hin : In r (r :: t)) by now left.
  rewrite <- E in Hin. now apply filter_In in Hin.
Qed.

Lemma hd_error_map A B (f : A -> B) l :
  hd_error (map f l) = option_map f (hd_error l).
Proof. now destruct l. Qed.

Lemma sql_select_archive a p now r a' d :
  sql_select a p (archive_db now r a' d) = sql_select a p d.
Proof. unfold archive_db. destruct (existsb _ _); reflexivity. Qed.

Lemma sql_select_createLink a i fromId toId rel a' d :
  sql_select a (id_is i) (createLink_db fromId toId rel a' d)
  = map (fun r => if visible a' r
                     && (id_is toId r && negb (mem fromId (linked_to r)))
                  then append_link fromId r else r)
      (map (fun r => if visible a' r
                        && (id_is fromId r && negb (mem toId (linked_to r)))
                     then append_link toId r else r)
         (sql_select a (id_is i) d)).
Proof.
  unfold createLink_db.
  rewrite !sql_select_update by apply keeps_key_append_link.
  reflexivity.
Qed.

Lemma keeps_key_touch now v : keeps_key (touch_importance now v).
Proof. intros r. split; reflexivity. Qed.

(** ** What the store operations return *)

Lemma createLink_Return fromId toId rel a w :
  existsb (id_is fromId) (fragments (db w)) = true ->
  existsb (id_is toId) (fragments (db w)) = true ->
  FragmentStore_createLink fromId toId rel a w
  = Return tt (mkWorld (createLink_db fromId toId rel a (db w))
                 (redis w) (llm_calls w)).
Proof.
  intros H1 H2.
  unfold FragmentStore_createLink, sql_upsert_link, modifyDB, bind, getDB,
    putDB, ret.
  simpl. rewrite H1, H2. simpl. reflexivity.
Qed.

Lemma update_importance_Return O now i v a w r :
  hd_error (sql_select a (id_is i) (db w)) = Some r ->
  Qle_bool 0 v = true -> Qle_bool v 1 = true ->
  FragmentStore_update O now i (only_importance v) a w
  = Return (UpdRow (touch_importance now v r))
      (mkWorld (sql_update a (id_is i) (touch_importance now v)
                  (archive_db now r a (db w)))
         (redis w) (llm_calls w)).
Proof.
  intros H H0 H1.
  unfold FragmentStore_update, FragmentStore_getById,
    FragmentStore_archiveVersion, modifyDB.
  unfold bind at 1. unfold bind at 1. unfold getDB at 1. unfold ret at 1.
  cbv beta iota. rewrite H.
  unfold bind, getDB, putDB, ret. simpl.
  unfold sql_update_row, bind, getDB, putDB, ret. simpl.
  rewrite sql_select_archive.
  destruct (sql_select a (id_is i) (db w)) as [| x t] eqn:Es; [discriminate |].
  simpl in H. injection H as ->.
  simpl. rewrite String.eqb_refl. simpl.
  unfold check_importance. simpl. rewrite H0, H1. simpl. reflexivity.
Qed.

(** ** [link] with [resolved_by] *)

(** C8, as the code has it.  A [link] call that creates a [resolved_by]
    edge whose target is an error fragment of importance above 0.5 returns
    [linked: true] and leaves the target with importance exactly 0.5. *)
Theorem link_resolved_by_sets_importance :
  forall O now w fromId toId agent fromFrag toFrag,
    hd_error (sql_select (Sor agent "default") (id_is fromId) (db w))
    = Some fromFrag ->
    hd_error (sql_select (Sor agent "default") (id_is toId) (db w))
    = Some toFrag ->
    type toFrag = error -> 0.5 < importance toFrag ->
    exists w' r,
      MemoryManager_link O now fromId toId (Some resolved_by) agent w
      = Return true w'
      /\ hd_error (sql_select (Sor agent "default") (id_is toId) (db w'))
         = Some r
      /\ importance r = 0.5.
Proof.
  intros O now w fromId toId agent fromFrag toFrag Hf Ht Hty Himp.
  unfold MemoryManager_link.
  set (a := Sor agent "default") in *.
  unfold FragmentStore_getById at 1 2.
  unfold bind at 1. unfold getDB at 1. unfold bind at 1. unfold ret at 1.
  cbv beta iota. rewrite Hf.
  unfold bind at 1. unfold bind at 1. unfold getDB at 1. unfold ret at 1.
  cbv beta iota. rewrite Ht.
  apply Qlt_bool_iff in Himp. rewrite Hty, Himp. simpl andb. cbv iota.
  erewrite bind_Return;
    [| apply createLink_Return; eapply existsb_id_is; eassumption].
  set (d1 := createLink_db fromId toId resolved_by a (db w)).
  assert (Ht1 : exists t1, hd_error (sql_select a (id_is toId) d1) = Some t1).
  { unfold d1. rewrite sql_select_createLink, !hd_error_map, Ht.
    simpl. eauto. }
  destruct Ht1 as [t1 Ht1].
  erewrite bind_Return.
  2:{ erewrite bind_Return.
      2:{ exact (update_importance_Return O now toId (0.5)%Q a
                   (mkWorld d1 (redis w) (llm_calls w)) t1 Ht1
                   eq_refl eq_refl). }
      reflexivity. }
  unfold ret. do 2 eexists. split; [reflexivity |].
  simpl db.
  rewrite sql_select_update by apply keeps_key_touch.
  rewrite sql_select_archive, hd_error_map, Ht1. simpl.
  rewrite (sql_select_hd _ _ _ _ Ht1). split; reflexivity.
Qed.

(** The theorem at the two linked fragments: the procedure [frag-y] is
    linked to the error [frag-x] of importance 0.9. *)
Lemma link_resolved_by_sets_importance_witness :
  hd_error (sql_select (Sor "" "default") (id_is "frag-y") (db linked_world))
  = Some link_leaver
  /\ hd_error (sql_select (Sor "" "default") (id_is "frag-x") (db linked_world))
     = Some link_keeper
  /\ type link_keeper = error
  /\ 0.5 < importance link_keeper
  /\ exists w' r,
      MemoryManager_link no_services 1000 "frag-y" "frag-x" (Some resolved_by)
        "" linked_world = Return true w'
      /\ hd_error (sql_select (Sor "" "default") (id_is "frag-x") (db w'))
         = Some r
      /\ importance r = 0.5.
Proof.
  split; [reflexivity |]. split; [reflexivity |]. split; [reflexivity |].
  split; [reflexivity |].
  apply (link_resolved_by_sets_importance no_services 1000 linked_world
           "frag-y" "frag-x" "" link_leaver link_keeper);
    reflexivity.
Defined.

(** C8, as the specification words it, fails on the same call: the
    error of importance 0.9 ends at 0.5, which is not half of 0.9. *)
Lemma resolved_error_is_not_halved :
  let run := MemoryManager_link no_services 1000 "frag-y" "frag-x"
               (Some resolved_by) "" linked_world in
  type link_keeper = error
  /\ 0.5 < importance link_keeper
  /\ result run = Some true
  /\ map (fun r => (id r, importance r)) (fragments (db (final run)))
     = [("frag-x"%string, 0.5); ("frag-y"%string, 0.05)]
  /\ ~ (0.5 == importance link_keeper * 0.5).
Proof.
  cbv zeta. split; [reflexivity |]. split; [reflexivity |].
  split; [vm_compute; reflexivity |]. split; [vm_compute; reflexivity |].
  vm_compute. discriminate.
Qed.

(** ** [amend] with a colliding content *)





(** ** Invariants of [remember] *)

Lemma keeps_foldM A B I (l : list A) (f : A -> B -> M B) b :
  (forall x y, keeps I (f x y)) -> keeps I (foldM l f b).
Proof.
  intros Hf. revert b. induction l as [| x t IH]; intros b; simpl.
  - apply keeps_ret.
  - apply keeps_bind; auto.
Qed.

Lemma returns_foldM A B (l : list A) (f : A -> B -> M B) b :
  (forall x y, returns (f x y)) -> returns (foldM l f b).
Proof.
  intros Hf. revert b. induction l as [| x t IH]; intros b; simpl.
  - apply returns_ret.
  - apply returns_bind; auto.
Qed.

(** Structural steps shared by every invariant. *)
Ltac keeps_step leaf :=
  lazymatch goal with
  | |- keeps _ (bind _ _) => apply keeps_bind; [| intros ?]
  | |- keeps _ (ret _) => apply keeps_ret
  | |- keeps _ throw => apply keeps_throw
  | |- keeps _ getDB => apply keeps_getDB
  | |- keeps _ getRedis => apply keeps_getRedis
  | |- keeps _ (try_catch _ _) => apply keeps_try_catch
  | |- keeps _ (forM _ _) => apply keeps_forM; intros ?
  | |- keeps _ (foldM _ _ _) => apply keeps_foldM; intros ? ?
  | |- keeps _ (if ?b then _ else _) => destruct b
  | |- keeps _ (match ?x with _ => _ end) => destruct x
  | |- keeps _ (let _ := _ in _) => cbv zeta
  | |- _ => leaf
  end.

Ltac keeps_auto leaf := repeat (keeps_step leaf).

Lemma same_ids_update ids a p f d :
  keeps_key f -> same_ids ids d -> same_ids ids (sql_update a p f d).
Proof.
  intros Hf H. unfold same_ids, sql_update in *. simpl. rewrite <- H.
  rewrite map_map. apply map_ext. intros r.
  destruct (visible a r && p r)%bool; [apply Hf | reflexivity].
Qed.

Lemma keeps_ids_createLink ids f t rel a :
  keeps (on_db (same_ids ids)) (FragmentStore_createLink f t rel a).
Proof.
  intros w H. unfold FragmentStore_createLink, sql_upsert_link, modifyDB,
    bind, getDB, putDB, ret, throw, on_db in *. simpl.
  destruct (existsb (id_is f) (fragments (db w))
            && existsb (id_is t) (fragments (db w)))%bool;
    simpl; [| exact H].
  apply same_ids_update; [apply keeps_key_append_link |].
  apply same_ids_update; [apply keeps_key_append_link |]. exact H.
Qed.

Lemma keeps_key_set_access n t : keeps_key (fun r => set_access (n r) t r).
Proof. intros r. split; reflexivity. Qed.

(** [incrementAccess] returns; it has updated the rows, or none of them. *)
Lemma incrementAccess_run now l a w :
  FragmentStore_incrementAccess now l a w = Return tt w
  \/ FragmentStore_incrementAccess now l a w
     = modifyDB (sql_update a (fun r => mem (id r) l)
                   (fun r => set_access (access_count r + 1) (Some now) r)) w.
Proof.
  unfold FragmentStore_incrementAccess, modifyDB, bind, getDB, ret.
  destruct l; [now left |].
  destruct (existsb _ _); [now left | now right].
Qed.

Lemma keeps_incrementAccess (P : DB -> Prop) now l a :
  (forall d, P d ->
     P (sql_update a (fun r => mem (id r) l)
          (fun r => set_access (access_count r + 1) (Some now) r) d)) ->
  keeps (on_db P) (FragmentStore_incrementAccess now l a).
Proof.
  intros HP w H. destruct (incrementAccess_run now l a w) as [E | E];
    rewrite E; [exact H |].
  now apply keeps_modifyDB.
Qed.

Lemma keeps_ids_incrementAccess ids now l a :
  keeps (on_db (same_ids ids)) (FragmentStore_incrementAccess now l a).
Proof.
  apply keeps_incrementAccess. intros d H. apply same_ids_update; [| exact H].
  apply (keeps_key_set_access (fun r => (access_count r + 1)%Z)).
Qed.

Ltac ids_leaf :=
  first [ apply keeps_modifyRedis | apply keeps_putRedis
        | apply keeps_ids_createLink | apply keeps_ids_incrementAccess ].

Lemma keeps_ids_search O ids now q :
  keeps (on_db (same_ids ids)) (FragmentSearch_search O now q).
Proof.
  unfold FragmentSearch_search, search_answer, search_started, _searchL1,
    _tryHotCache, mapM_cache, _searchL2, _searchL3,
    _cacheFragments, FragmentIndex_searchByKeywords, FragmentIndex_searchByTopic,
    FragmentIndex_searchByType, FragmentIndex_getRecent, FragmentStore_searchByKeywords,
    FragmentStore_getByIds, FragmentStore_searchBySemantic, FragmentIndex_cacheFragment.
  keeps_auto ids_leaf.
Qed.

Ltac returns_step :=
  lazymatch goal with
  | |- returns (bind _ _) => apply returns_bind; [| intros ?]
  | |- returns (ret _) => apply returns_ret
  | |- returns getDB => apply returns_getDB
  | |- returns getRedis => apply returns_getRedis
  | |- returns (putDB _) => apply returns_putDB
  | |- returns (putRedis _) => apply returns_putRedis
  | |- returns (modifyDB _) => apply returns_modifyDB
  | |- returns (modifyRedis _) => apply returns_modifyRedis
  | |- returns (try_catch _ _) => apply returns_try_catch
  | |- returns (forM _ _) => apply returns_forM; intros ?
  | |- returns (foldM _ _ _) => apply returns_foldM; intros ? ?
  | |- returns (if ?b then _ else _) => destruct b
  | |- returns (match ?x with _ => _ end) => destruct x
  | |- returns (let _ := _ in _) => cbv zeta
  end.

Ltac returns_auto := repeat returns_step.

Lemma keeps_ids_autoLink O ids now f a :
  keeps (on_db (same_ids ids)) (_autoLinkOnRemember O now f a).
Proof. unfold _autoLinkOnRemember. keeps_auto ids_leaf. Qed.

Lemma keeps_ids_detectConflicts O ids now c t i :
  keeps (on_db (same_ids ids)) (_detectConflicts O now c t i).
Proof.
  unfold _detectConflicts. apply keeps_try_catch; [| apply keeps_ret].
  apply keeps_bind; [apply keeps_ids_search | intros; apply keeps_ret].
Qed.

Lemma returns_detectConflicts O now c t i : returns (_detectConflicts O now c t i).
Proof. unfold _detectConflicts. returns_auto. Qed.

Lemma hoare_bind A B P (m : M A) (k : A -> M B) Q R :
  hoare P m Q -> (forall a, hoare (Q a) (k a) R) -> hoare P (bind m k) R.
Proof.
  intros Hm Hk w H. destruct (Hm w H) as (a & w1 & E & HQ).
  destruct (Hk a w1 HQ) as (b & w2 & E2 & HR).
  exists b, w2. split; [| exact HR]. unfold bind. now rewrite E.
Qed.

Lemma hoare_ret A P (a : A) (Q : A -> World -> Prop) :
  (forall w, P w -> Q a w) -> hoare P (ret a) Q.
Proof. intros H w Hw. exists a, w. split; [reflexivity | auto]. Qed.

Lemma hoare_keeps A I (m : M A) :
  returns m -> keeps I m -> hoare I m (fun _ w' => I w').
Proof.
  intros Hr Hk w H. destruct (Hr w) as (a & w1 & E).
  exists a, w1. split; [exact E |]. specialize (Hk w H). now rewrite E in Hk.
Qed.

Lemma Sor_default a : Sor (Sor a "default") "default" = Sor a "default".
Proof. now destruct a. Qed.












(** ** [remember] of a content that is already stored *)

(** C1, as the code has it.  A [remember] call on the durable path whose
    redacted, truncated content hashes to the [content_hash] of a stored
    fragment that the caller's agent can see returns the id of that
    fragment, and the rows of the store are the same rows, by id and in
    number, as before. *)
Theorem remember_existing_hash_returns_id :
  forall O now newId params w fragment dup rest,
    (String.eqb (Sor (p_scope params) "permanent") "session"
     && negb (String.eqb (p_sessionId params) ""))%bool = false ->
    FragmentFactory_create O newId params = Some fragment ->
    sql_select (Sor (p_agentId params) "default")
      (fun r => String.eqb (content_hash r)
                           (computeContentHash O (content fragment)))
      (db w) = dup :: rest ->
    exists r w',
      MemoryManager_remember O now newId params w = Return r w'
      /\ rr_id r = id dup
      /\ map id (fragments (db w')) = map id (fragments (db w)).
Proof.
  intros O now newId params w fragment dup rest Hscope Hc Hdup.
  unfold MemoryManager_remember. rewrite Hscope, Hc.
  erewrite bind_Return.
  2:{ unfold FragmentStore_insert. cbn [agent_id set_agent_id content].
      rewrite Sor_default.
      unfold bind, getDB. rewrite Hdup. reflexivity. }
  set (ids := map id (fragments (db w))).
  match goal with |- exists r w', ?m w = _ /\ _ =>
    assert (H : hoare (on_db (same_ids ids)) m
                  (fun r w' => rr_id r = id dup /\ on_db (same_ids ids) w'))
  end.
  { eapply hoare_bind.
    { apply hoare_keeps; [unfold FragmentIndex_index; returns_auto |].
      unfold FragmentIndex_index. keeps_auto ids_leaf. }
    intros ?. eapply hoare_bind.
    { apply hoare_keeps; [returns_auto | keeps_auto ids_leaf]. }
    intros ?. eapply hoare_bind.
    { apply hoare_keeps;
        [apply returns_detectConflicts | apply keeps_ids_detectConflicts]. }
    intros conflicts. eapply hoare_bind.
    { apply hoare_keeps; [returns_auto |].
      apply keeps_try_catch; [apply keeps_ids_autoLink | apply keeps_ret]. }
    intros ?. eapply hoare_bind.
    { apply hoare_keeps; [unfold pushToQueue; returns_auto |].
      unfold pushToQueue. keeps_auto ids_leaf. }
    intros ?. apply hoare_ret. intros w' Hw'.
    split; [reflexivity | exact Hw']. }
  destruct (H w) as (r & w' & E & Hr & Hw'); [reflexivity |].
  exists r, w'. auto.
Qed.

(** The theorem on a second [remember] of the content of [frag-n20]. *)
Lemma remember_existing_hash_returns_id_witness :
  (String.eqb (Sor (p_scope remember_node20) "permanent") "session"
   && negb (String.eqb (p_sessionId remember_node20) ""))%bool = false
  /\ FragmentFactory_create no_services "frag-new" remember_node20
     = Some node20_candidate
  /\ sql_select (Sor (p_agentId remember_node20) "default")
       (fun r => String.eqb (content_hash r)
                   (computeContentHash no_services (content node20_candidate)))
       (db node_world) = [node20]
  /\ exists r w',
      MemoryManager_remember no_services 3000 "frag-new" remember_node20
        node_world = Return r w'
      /\ rr_id r = id node20
      /\ map id (fragments (db w')) = map id (fragments (db node_world)).
Proof.
  split; [reflexivity |]. split; [vm_compute; reflexivity |].
  split; [vm_compute; reflexivity |].
  apply (remember_existing_hash_returns_id no_services 3000 "frag-new"
           remember_node20 node_world node20_candidate node20 []);
    vm_compute; reflexivity.
Defined.

(** C1, as the specification words it, fails twice.  A second
    [remember] of the content of [frag-n20] with importance 0.9 returns
    [frag-n20] and leaves its importance at 0.5, not at the greater value
    0.9: [insert] returns from its duplicate check before the statement
    with [GREATEST] is reached.  And the uniqueness of [content_hash] is
    not per agent: when agent [alice] remembers a content that only a
    fragment of agent [bob] holds, the insert meets the unique index on
    a row the policy hides from her, the call throws and no row is
    added. *)
Lemma remember_existing_hash_not_as_specified :
  let again := MemoryManager_remember no_services 3000 "frag-new"
                 remember_node20 node_world in
  let alice := MemoryManager_remember no_services 3000 "frag-new"
                 alice_remember agents_world in
  option_map rr_id (result again) = Some "frag-n20"%string
  /\ map (fun r => (id r, importance r)) (fragments (db (final again)))
     = [("frag-n20"%string, 0.5); ("frag-n22"%string, 0.5)]
  /\ ~ (0.5 == GREATEST 0.5 0.9)
  /\ sql_select "alice" (fun _ => true) (db agents_world) = [node20]
  /\ result alice = None
  /\ map (fun r => (id r, agent_id r)) (fragments (db (final alice)))
     = [("frag-n20", "default"); ("frag-bob", "bob")]%string.
Proof.
  cbv zeta. split; [vm_compute; reflexivity |].
  split; [vm_compute; reflexivity |].
  split; [vm_compute; discriminate |].
  repeat split; vm_compute; reflexivity.
Qed.

(** ** The token budget of [recall] *)

Section Budget.
Local Open Scope Z_scope.

Lemma jslength_nonneg s : 0 <= jslength s.
Proof. unfold jslength. lia. Qed.

Lemma totalChars_nonneg l : 0 <= totalChars l.
Proof.
  induction l as [| f t IH]; simpl; [lia |].
  pose proof (jslength_nonneg (content (row f))). lia.
Qed.

Lemma totalChars_app a b : totalChars (a ++ b) = totalChars a + totalChars b.
Proof. induction a as [| f t IH]; simpl; [reflexivity | rewrite IH; lia]. Qed.

Lemma trim_loop_spec cb l : forall used,
  exists rest,
    l = (trim_loop cb used l ++ rest)%list
    /\ (trim_loop cb used l <> [] ->
        (inject_Z (used + totalChars (trim_loop cb used l)) <= cb)%Q)
    /\ (forall f rest', rest = f :: rest' ->
        (cb < inject_Z (used + totalChars (trim_loop cb used l)
                        + jslength (content (row f))))%Q).
Proof.
  induction l as [| f t IH]; intros used; cbn [trim_loop].
  - exists []. repeat split; [congruence | discriminate].
  - destruct (Qlt_bool cb (inject_Z (used + jslength (content (row f)))))
      eqn:E.
    + exists (f :: t). split; [reflexivity |]. split; [congruence |].
      intros g rest' Hg. injection Hg as <- <-. apply Qlt_bool_iff in E.
      cbn [totalChars fold_right]. now rewrite Z.add_0_r.
    + apply Qlt_bool_false in E.
      destruct (IH (used + jslength (content (row f))))
        as (rest & Hl & Hfit & Hmax).
      exists rest. split; [simpl; congruence |]. split.
      * intros _. unfold totalChars. cbn [fold_right]. fold totalChars.
        fold (totalChars (trim_loop cb (used + jslength (content (row f))) t)).
        rewrite Z.add_assoc.
        destruct (trim_loop cb (used + jslength (content (row f))) t) eqn:Et.
        { cbn [totalChars fold_right]. now rewrite Z.add_0_r. }
        { apply Hfit. discriminate. }
      * intros g rest' Hg. specialize (Hmax g rest' Hg).
        unfold totalChars. cbn [fold_right].
        fold (totalChars (trim_loop cb (used + jslength (content (row f))) t)).
        now rewrite Z.add_assoc.
Qed.

Lemma insert_sorted_perm A (le : A -> A -> bool) x l :
  Permutation (insert_sorted le x l) (x :: l).
Proof.
  induction l as [| y t IH]; simpl; [reflexivity |].
  destruct (le x y); [reflexivity |].
  rewrite IH. apply perm_swap.
Qed.

Lemma sort_by_perm A (le : A -> A -> bool) l : Permutation (sort_by le l) l.
Proof.
  induction l as [| x t IH]; simpl; [reflexivity |].
  unfold sort_by in *. simpl. rewrite insert_sorted_perm. now constructor.
Qed.












(** The statement of [getLinkedFragments] orders a [SELECT DISTINCT] by
    an expression that is not in its select list. *)
Lemma linked_statement_rejected :
  select_distinct_accepted linked_select_list linked_order_by = false.
Proof. reflexivity. Qed.

(** With an id to start from, [getLinkedFragments] throws and leaves the
    world as it was. *)
Lemma getLinkedFragments_rejected i ids rel a w :
  FragmentStore_getLinkedFragments (i :: ids) rel a w = Throw w.
Proof.
  unfold FragmentStore_getLinkedFragments.
  now rewrite linked_statement_rejected.
Qed.





End Budget.

(** ** MemoryConsolidator: rows of one content hash *)

Section Merge.
Local Open Scope string_scope.

Lemma visible_system r : visible "system" r = true.
Proof.
  unfold visible. replace (safeAgent "system") with "system" by reflexivity.
  simpl. now rewrite orb_true_r.
Qed.

Lemma sql_select_system_all d :
  sql_select "system" (fun _ => true) d = fragments d.
Proof.
  unfold sql_select. induction (fragments d) as [| r t IH]; simpl; [reflexivity |].
  now rewrite visible_system, IH.
Qed.

Lemma set_linked_to_same r : set_linked_to (linked_to r) r = r.
Proof. now destruct r. Qed.

Lemma array_replace_absent l a b : mem a l = false -> array_replace l a b = l.
Proof.
  unfold mem, array_replace. induction l as [| x t IH]; simpl; [reflexivity |].
  intros H. apply orb_false_iff in H as [Hx Ht].
  rewrite String.eqb_sym, Hx, IH; auto.
Qed.

Lemma relink_absent keep rid r : mem rid (linked_to r) = false -> relink keep rid r = r.
Proof.
  intros H. unfold relink. rewrite array_replace_absent by exact H.
  apply set_linked_to_same.
Qed.

Lemma fragments_update_system p f d :
  fragments (sql_update "system" p f d)
  = map (fun r => if p r then f r else r) (fragments d).
Proof.
  unfold sql_update. cbn [fragments]. apply map_ext. intros r.
  now rewrite visible_system.
Qed.

Lemma fragments_delete_system p d :
  fragments (sql_delete "system" p d)
  = filter (fun r => negb (p r)) (fragments d).
Proof.
  unfold sql_delete. cbn [fragments]. apply filter_ext. intros r.
  now rewrite visible_system.
Qed.

(** One pass of the inner loop. *)
Lemma merge_into_run keep rid w :
  exists w',
    merge_into keep rid w = Return tt w'
    /\ fragments (db w') = merge_rows keep rid (fragments (db w)).
Proof.
  unfold merge_into, modifyDB, FragmentStore_delete, bind, getDB, putDB, ret.
  eexists. split; [reflexivity |]. cbn [db].
  rewrite fragments_delete_system, !fragments_update_system.
  unfold merge_rows. induction (fragments (db w)) as [| r t IH]; [reflexivity |].
  cbn [map filter]. rewrite IH. clear IH.
  cbn [mem existsb]. rewrite orb_false_r.
  destruct (String.eqb (id r) rid) eqn:E.
  - cbn [andb].
    assert (H : id_is rid
                  (if mem rid (linked_to (if negb (mem keep (linked_to r))
                                          then append_link keep r else r))
                   then set_linked_to
                          (array_replace
                             (linked_to (if negb (mem keep (linked_to r))
                                         then append_link keep r else r))
                             rid keep)
                          (if negb (mem keep (linked_to r))
                           then append_link keep r else r)
                   else if negb (mem keep (linked_to r))
                        then append_link keep r else r) = true).
    { unfold id_is.
      destruct (negb (mem keep (linked_to r)));
        match goal with |- context [if ?c then _ else _] => destruct c end;
        exact E. }
    rewrite H. unfold id_is. rewrite E. reflexivity.
  - cbn [andb].
    destruct (mem rid (linked_to r)) eqn:M; unfold id_is;
      cbn [id set_linked_to]; rewrite E; cbn [negb map];
      [reflexivity | now rewrite relink_absent].
Qed.

Lemma merge_pairs_cons ids gs :
  merge_pairs (ids :: gs) = (merge_pairs [ids] ++ merge_pairs gs)%list.
Proof. unfold merge_pairs. cbn [map List.concat]. now rewrite app_nil_r. Qed.

Lemma id_relink k rid r : id (relink k rid r) = id r.
Proof. reflexivity. Qed.

Lemma filter_map_id (p : string -> bool) (f : Fragment -> Fragment) l :
  (forall r, id (f r) = id r) ->
  filter (fun r => p (id r)) (map f l) = map f (filter (fun r => p (id r)) l).
Proof.
  intros H. induction l as [| r t IH]; simpl; [reflexivity |].
  rewrite H. destruct (p (id r)); simpl; now rewrite IH.
Qed.

Lemma filter_filter A (p q : A -> bool) l :
  filter p (filter q l) = filter (fun x => q x && p x) l.
Proof.
  induction l as [| x t IH]; simpl; [reflexivity |].
  destruct (q x); simpl; [destruct (p x) |]; now rewrite IH.
Qed.

(** The rows after a run: the removed ids are gone, the other rows are
    relinked. *)
Lemma merge_all_closed pairs : forall rows,
  merge_all pairs rows
  = map (relink_all pairs)
        (filter (fun r => negb (mem (id r) (map snd pairs))) rows).
Proof.
  induction pairs as [| [k rid] rest IH]; intros rows.
  - cbn. rewrite map_id. induction rows; simpl; congruence.
  - change (merge_all ((k, rid) :: rest) rows)
      with (merge_all rest (merge_rows k rid rows)).
    rewrite IH. unfold merge_rows.
    rewrite (filter_map_id (fun i => negb (mem i (map snd rest)))) by reflexivity.
    rewrite map_map, filter_filter. f_equal.
    apply filter_ext. intros r. cbn [map snd mem existsb]. unfold id_is.
    now rewrite negb_orb.
Qed.

Lemma sans_links_relink_all pairs : forall r,
  sans_links (relink_all pairs r) = sans_links r.
Proof.
  induction pairs as [| p rest IH]; intros r; [reflexivity |].
  change (relink_all (p :: rest) r) with (relink_all rest (relink (fst p) (snd p) r)).
  now rewrite IH.
Qed.

Lemma In_array_replace x l a b :
  In x (array_replace l a b) -> (In x l /\ x <> a) \/ x = b.
Proof.
  unfold array_replace. rewrite in_map_iff. intros (y & E & Hy).
  destruct (String.eqb y a) eqn:Ey.
  - right. now symmetry.
  - left. subst x. split; [exact Hy |]. now apply String.eqb_neq.
Qed.

Lemma relink_all_clean pairs : forall r done,
  (forall x, In x done -> ~ In x (linked_to r)) ->
  (forall k rid, In (k, rid) pairs ->
                 ~ In k done /\ ~ In k (map snd pairs)) ->
  forall x, In x (done ++ map snd pairs) ->
            ~ In x (linked_to (relink_all pairs r)).
Proof.
  induction pairs as [| [k rid] rest IH]; intros r done Hdone Hk x Hx.
  - cbn in Hx. rewrite app_nil_r in Hx. now apply Hdone.
  - change (relink_all ((k, rid) :: rest) r)
      with (relink_all rest (relink k rid r)).
    destruct (Hk k rid (or_introl eq_refl)) as [Hk1 Hk2].
    apply (IH (relink k rid r) (done ++ [rid])%list).
    + intros y Hy Hin. cbn [relink linked_to set_linked_to] in Hin.
      apply In_array_replace in Hin as [[Hin Hne] | ->].
      * apply in_app_or in Hy as [Hy | [-> | []]]; [| congruence].
        now apply (Hdone y).
      * apply in_app_or in Hy as [Hy | [<- | []]]; [now apply Hk1 |].
        apply Hk2. now left.
    + intros k' rid' Hin.
      destruct (Hk k' rid' (or_intror Hin)) as [H1 H2]. split.
      * intros Hy. apply in_app_or in Hy as [Hy | [<- | []]]; [now apply H1 |].
        apply H2. now left.
      * intros Hy. apply H2. now right.
    + rewrite <- app_assoc. exact Hx.
Qed.

(** *** The groups *)

Lemma dup_groups_hashes d : dup_groups d = map (group_of d) (dup_hashes d).
Proof.
  unfold dup_groups, dup_hashes. rewrite sql_select_system_all.
  rewrite filter_map_swap, firstn_map. reflexivity.
Qed.

Lemma In_firstn A n : forall (l : list A) x, In x (firstn n l) -> In x l.
Proof.
  induction n as [| n IH]; intros [| y t] x H; simpl in *; try contradiction.
  destruct H as [-> | H]; [now left | right; now apply IH].
Qed.

Lemma NoDup_firstn A n : forall l : list A, NoDup l -> NoDup (firstn n l).
Proof.
  induction n as [| n IH]; intros [| y t] H; simpl; try constructor.
  - inversion H; subst. intros Hin. now apply In_firstn in Hin.
  - inversion H; subst. now apply IH.
Qed.

Lemma NoDup_dup_hashes d : NoDup (dup_hashes d).
Proof. unfold dup_hashes. apply NoDup_firstn, NoDup_filter, NoDup_nodup. Qed.

Lemma mem_In x l : mem x l = true <-> In x l.
Proof.
  unfold mem. rewrite existsb_exists. split.
  - intros (y & Hy & E). apply String.eqb_eq in E. now subst.
  - intros H. exists x. split; [exact H | apply String.eqb_refl].
Qed.

Lemma In_group_of d h i :
  In i (group_of d h)
  <-> exists r, In r (fragments d) /\ id r = i /\ content_hash r = h.
Proof.
  unfold group_of. rewrite in_map_iff. split.
  - intros (r & E & Hr). exists r.
    apply (Permutation_in _ (sort_by_perm _ merge_order _)) in Hr.
    apply filter_In in Hr as [Hr Hh]. apply String.eqb_eq in Hh. auto.
  - intros (r & Hr & E & Hh). exists r. split; [exact E |].
    apply (Permutation_in _ (Permutation_sym (sort_by_perm _ merge_order _))).
    apply filter_In. split; [exact Hr | now apply String.eqb_eq].
Qed.

Lemma NoDup_map_filter (p : Fragment -> bool) l :
  NoDup (map id l) -> NoDup (map id (filter p l)).
Proof.
  induction l as [| r t IH]; simpl; intros H; [constructor |].
  inversion H; subst. destruct (p r); simpl; [| now apply IH].
  constructor; [| now apply IH].
  intros Hin. apply H2. apply in_map_iff in Hin as (x & E & Hx).
  apply filter_In in Hx as [Hx _]. apply in_map_iff. eauto.
Qed.

Lemma NoDup_group_of d h :
  NoDup (map id (fragments d)) -> NoDup (group_of d h).
Proof.
  intros H. unfold group_of.
  eapply Permutation_NoDup;
    [apply Permutation_map, Permutation_sym, sort_by_perm |].
  now apply NoDup_map_filter.
Qed.

Lemma id_injective l r r' :
  NoDup (map id l) -> In r l -> In r' l -> id r = id r' -> r = r'.
Proof.
  induction l as [| x t IH]; simpl; intros H Hr Hr' E; [contradiction |].
  inversion H; subst.
  destruct Hr as [-> | Hr], Hr' as [-> | Hr']; auto.
  - exfalso. apply H2. rewrite E. now apply in_map.
  - exfalso. apply H2. rewrite <- E. now apply in_map.
Qed.

(** An id is in the group of one hash only. *)
Lemma group_of_hash d h h' i :
  NoDup (map id (fragments d)) ->
  In i (group_of d h) -> In i (group_of d h') -> h = h'.
Proof.
  intros H Hi Hi'.
  apply In_group_of in Hi as (r & Hr & E & Hh).
  apply In_group_of in Hi' as (r' & Hr' & E' & Hh').
  assert (r = r') by (eapply id_injective; eauto; congruence).
  congruence.
Qed.

Lemma In_tl A (l : list A) x : In x (tl l) -> In x l.
Proof. destruct l; simpl; auto. Qed.

Lemma NoDup_tl A (l : list A) : NoDup l -> NoDup (tl l).
Proof. destruct l; simpl; [auto |]. now inversion 1. Qed.

Lemma In_removeIds d hs x :
  In x (List.concat (map (@tl string) (map (group_of d) hs)))
  <-> exists h, In h hs /\ In x (tl (group_of d h)).
Proof.
  rewrite in_concat. split.
  - intros (l & Hl & Hx). rewrite map_map in Hl.
    apply in_map_iff in Hl as (h & <- & Hh). eauto.
  - intros (h & Hh & Hx). exists (tl (group_of d h)). split; [| exact Hx].
    rewrite map_map. apply in_map_iff. eauto.
Qed.

Lemma NoDup_removeIds d :
  NoDup (map id (fragments d)) -> NoDup (removeIds_of d).
Proof.
  intros H. unfold removeIds_of. rewrite dup_groups_hashes.
  pose proof (NoDup_dup_hashes d) as Hhs.
  induction (dup_hashes d) as [| h hs IH]; [constructor |].
  inversion Hhs; subst. cbn [map List.concat].
  apply NoDup_app; [now apply NoDup_tl, NoDup_group_of | now apply IH |].
  intros x Hx Hin. apply In_removeIds in Hin as (h' & Hh' & Hx').
  apply In_tl in Hx, Hx'.
  assert (h = h') by (eapply group_of_hash; eauto). congruence.
Qed.

Lemma removeIds_stored d x :
  In x (removeIds_of d) -> In x (map id (fragments d)).
Proof.
  unfold removeIds_of. rewrite dup_groups_hashes.
  intros Hx. apply In_removeIds in Hx as (h & _ & Hx).
  apply In_tl, In_group_of in Hx as (r & Hr & <- & _). now apply in_map.
Qed.

Lemma snd_merge_pairs gs :
  map snd (merge_pairs gs) = List.concat (map (@tl string) gs).
Proof.
  induction gs as [| ids gs IH]; [reflexivity |].
  rewrite merge_pairs_cons, map_app, IH. cbn [map List.concat]. f_equal.
  unfold merge_pairs. cbn [map List.concat]. rewrite app_nil_r.
  destruct ids as [| k rs]; [reflexivity |].
  cbn [tl]. rewrite map_map. cbn [snd]. apply map_id.
Qed.

Lemma In_merge_pairs gs k rid :
  In (k, rid) (merge_pairs gs) ->
  exists rs, In (k :: rs) gs /\ In rid rs.
Proof.
  unfold merge_pairs. rewrite in_concat. intros (l & Hl & Hin).
  apply in_map_iff in Hl as (ids & <- & Hids).
  destruct ids as [| k' rs]; [contradiction |].
  apply in_map_iff in Hin as (x & E & Hx). injection E as <- <-. eauto.
Qed.

(** A survivor is never an id that the run removes. *)
Lemma keep_not_removed d k rid :
  NoDup (map id (fragments d)) ->
  In (k, rid) (merge_pairs (dup_groups d)) ->
  ~ In k (removeIds_of d).
Proof.
  intros H Hin Hk. apply In_merge_pairs in Hin as (rs & Hg & _).
  unfold removeIds_of in Hk. rewrite dup_groups_hashes in Hk, Hg.
  apply in_map_iff in Hg as (h & Eg & Hh).
  apply In_removeIds in Hk as (h' & Hh' & Hk).
  assert (h = h').
  { eapply group_of_hash; eauto; [rewrite Eg; now left | now apply In_tl]. }
  subst h'. pose proof (NoDup_group_of d h H) as Hn.
  rewrite Eg in Hn, Hk. cbn [tl] in Hk. now inversion Hn.
Qed.

Lemma merged_count gs :
  fold_right (fun ids n => (pred (List.length ids) + n)%nat) 0%nat gs
  = List.length (List.concat (map (@tl string) gs)).
Proof.
  induction gs as [| ids gs IH]; [reflexivity |].
  cbn [fold_right map List.concat]. rewrite length_app, IH.
  now destruct ids.
Qed.

Lemma filter_split_length A (p : A -> bool) l :
  (List.length (filter p l) + List.length (filter (fun x => negb (p x)) l))%nat
  = List.length l.
Proof.
  induction l as [| x t IH]; simpl; [reflexivity |].
  destruct (p x); simpl; lia.
Qed.

(** Removing the rows of [k] stored ids takes [k] rows away. *)
Lemma removed_rows_count rows ids :
  NoDup (map id rows) -> NoDup ids -> incl ids (map id rows) ->
  (List.length (filter (fun r => negb (mem (id r) ids)) rows)
   + List.length ids)%nat = List.length rows.
Proof.
  intros Hrows Hids Hincl.
  rewrite <- (filter_split_length _ (fun r => mem (id r) ids) rows).
  rewrite Nat.add_comm. f_equal.
  rewrite <- (length_map id (filter _ rows)).
  apply Permutation_length, NoDup_Permutation;
    [exact Hids | now apply NoDup_map_filter |].
  intros x. rewrite in_map_iff. split.
  - intros Hx. destruct (proj1 (in_map_iff _ _ _) (Hincl x Hx)) as (r & <- & Hr).
    exists r. split; [reflexivity |]. apply filter_In. split; [exact Hr |].
    now apply mem_In.
  - intros (r & <- & Hr). apply filter_In in Hr as [_ Hr]. now apply mem_In.
Qed.

(** *** The survivor *)

Lemma merge_order_iff a b :
  merge_order a b = true
  <-> (importance b < importance a)%Q
      \/ ((importance a == importance b)%Q /\ (created_at a <= created_at b)%Z).
Proof.
  unfold merge_order.
  rewrite orb_true_iff, andb_true_iff, Qlt_bool_iff, Qeq_bool_iff, Z.leb_le.
  reflexivity.
Qed.

Lemma merge_order_total a b : merge_order a b = false -> merge_order b a = true.
Proof.
  intros H. apply merge_order_iff.
  assert (N : ~ ((importance b < importance a)%Q
                 \/ ((importance a == importance b)%Q
                     /\ (created_at a <= created_at b)%Z))).
  { rewrite <- merge_order_iff. congruence. }
  destruct (Qlt_le_dec (importance a) (importance b)) as [L | L]; [now left |].
  destruct (Qlt_le_dec (importance b) (importance a)) as [L' | L'];
    [exfalso; apply N; now left |].
  right. split; [lra |].
  destruct (Z_le_gt_dec (created_at a) (created_at b)) as [C | C]; [| lia].
  exfalso. apply N. right. split; [lra | exact C].
Qed.

Lemma merge_order_trans a b c :
  merge_order a b = true -> merge_order b c = true -> merge_order a c = true.
Proof.
  rewrite !merge_order_iff.
  intros [H1 | [H1 C1]] [H2 | [H2 C2]].
  - left. lra.
  - left. lra.
  - left. lra.
  - right. split; [lra | lia].
Qed.

Lemma merge_order_refl a : merge_order a a = true.
Proof. apply merge_order_iff. right. split; [lra | lia]. Qed.

(** The first row of the sorted group comes before every row of it. *)
Lemma sort_by_head l : forall x t,
  sort_by merge_order l = x :: t ->
  forall y, In y l -> merge_order x y = true.
Proof.
  induction l as [| a l IH]; intros x t E y Hy; [contradiction |].
  change (sort_by merge_order (a :: l))
    with (insert_sorted merge_order a (sort_by merge_order l)) in E.
  destruct (sort_by merge_order l) as [| x' t'] eqn:S.
  - assert (l = []).
    { apply Permutation_nil. rewrite <- S. apply sort_by_perm. }
    subst l. cbn in E. injection E as <- <-.
    destruct Hy as [<- | []]. apply merge_order_refl.
  - cbn [insert_sorted] in E. destruct (merge_order a x') eqn:O.
    + injection E as <- <-. destruct Hy as [<- | Hy]; [apply merge_order_refl |].
      eapply merge_order_trans; [exact O | eapply IH; eauto].
    + injection E as <- <-. destruct Hy as [<- | Hy].
      * now apply merge_order_total.
      * eapply IH; eauto.
Qed.

(** The head of a group is the id of a row of the highest importance of
    its hash, the earliest created among those. *)
Lemma group_of_head d h k rs :
  group_of d h = k :: rs ->
  exists keeper,
    In keeper (fragments d) /\ id keeper = k /\ content_hash keeper = h
    /\ forall r, In r (fragments d) -> content_hash r = h ->
                 (importance r <= importance keeper)%Q
                 /\ ((importance r == importance keeper)%Q ->
                     (created_at keeper <= created_at r)%Z).
Proof.
  unfold group_of. intros E.
  destruct (sort_by merge_order
              (filter (fun r => String.eqb (content_hash r) h) (fragments d)))
    as [| x t] eqn:S; [discriminate |].
  cbn [map] in E. injection E as <- <-.
  assert (Hx : In x (filter (fun r => String.eqb (content_hash r) h)
                            (fragments d))).
  { apply (Permutation_in _ (sort_by_perm _ merge_order _)). rewrite S. now left. }
  apply filter_In in Hx as [Hx Hh]. apply String.eqb_eq in Hh.
  exists x. repeat split; auto.
  - assert (O : merge_order x r = true).
    { eapply sort_by_head; [exact S |]. apply filter_In. split; [assumption |].
      now apply String.eqb_eq. }
    apply merge_order_iff in O as [O | [O _]]; lra.
  - intros Q. assert (O : merge_order x r = true).
    { eapply sort_by_head; [exact S |]. apply filter_In. split; [assumption |].
      now apply String.eqb_eq. }
    apply merge_order_iff in O as [O | [_ O]]; [lra | exact O].
Qed.

(** *** The edges *)

Lemma mem_all_equal x rid gone :
  (forall y, In y gone -> y = rid) -> gone <> [] ->
  mem x gone = String.eqb x rid.
Proof.
  intros Hall Hne. destruct (String.eqb x rid) eqn:E.
  - apply String.eqb_eq in E. subst x. apply mem_In.
    destruct gone as [| y t]; [congruence |].
    left. apply Hall. now left.
  - destruct (mem x gone) eqn:M; [| reflexivity].
    apply mem_In, Hall in M. apply String.eqb_neq in E. congruence.
Qed.

Lemma merge_into_links keep rid w :
  In rid (map id (fragments (db w))) ->
  exists w',
    merge_into keep rid w = Return tt w'
    /\ fragments (db w') = merge_rows keep rid (fragments (db w))
    /\ fragment_links (db w') = unlink [rid] (fragment_links (db w)).
Proof.
  intros Hin. destruct (merge_into_run keep rid w) as (w' & E & F).
  exists w'. split; [exact E |]. split; [exact F |].
  unfold merge_into, modifyDB, FragmentStore_delete, bind, getDB, putDB, ret in E.
  injection E as <-. cbn [db fragment_links sql_delete sql_update].
  unfold unlink. apply filter_ext. intros l.
  set (gone := map id (sql_select _ _ _)).
  assert (Hall : forall y, In y gone -> y = rid).
  { intros y Hy. apply in_map_iff in Hy as (r & <- & Hr).
    apply filter_In in Hr as [_ Hr]. apply andb_true_iff in Hr as [_ Hr].
    now apply String.eqb_eq in Hr. }
  assert (Hne : gone <> []).
  { apply in_map_iff in Hin as (r & E & Hr).
    set (g := fun r => if visible "system" r && mem rid (linked_to r)
                       then set_linked_to (array_replace (linked_to r) rid keep) r
                       else r).
    set (f := fun r => if visible "system" r
                          && (mem (id r) [rid] && negb (mem keep (linked_to r)))
                       then append_link keep r else r).
    assert (Hg : forall x, id (g x) = id x).
    { intros x. unfold g. now destruct (_ && _). }
    assert (Hf : forall x, id (f x) = id x).
    { intros x. unfold f. now destruct (_ && _). }
    assert (Hi : In (id (g (f r))) gone).
    { apply in_map. apply filter_In. split.
      - cbn [fragments]. apply in_map, in_map. exact Hr.
      - rewrite visible_system. unfold id_is. rewrite Hg, Hf, E.
        now rewrite String.eqb_refl. }
    intros Hnil. rewrite Hnil in Hi. contradiction. }
  rewrite !(mem_all_equal _ rid gone Hall Hne).
  cbn [mem existsb]. now rewrite !orb_false_r.
Qed.

Lemma forM_app A (f : A -> M unit) l1 l2 w :
  forM (l1 ++ l2) f w = (forM l1 f ;;; forM l2 f) w.
Proof.
  revert w. induction l1 as [| x t IH]; intros w; cbn [app forM].
  - reflexivity.
  - unfold bind. destruct (f x w) as [[] w1 | w1]; [| reflexivity].
    rewrite IH. reflexivity.
Qed.

Lemma merge_group_pairs ids w :
  merge_group ids w
  = forM (merge_pairs [ids]) (fun p => merge_into (fst p) (snd p)) w.
Proof.
  unfold merge_pairs. cbn [map List.concat]. rewrite app_nil_r.
  destruct ids as [| k rs]; [reflexivity |]. cbn [merge_group].
  revert w. induction rs as [| rid rs IH]; intros w; [reflexivity |].
  cbn [map forM fst snd]. unfold bind.
  destruct (merge_into k rid w) as [[] w1 | w1]; [apply IH | reflexivity].
Qed.

Lemma forM_merge_pairs gs : forall w,
  forM gs merge_group w
  = forM (merge_pairs gs) (fun p => merge_into (fst p) (snd p)) w.
Proof.
  induction gs as [| ids gs IH]; intros w; [reflexivity |].
  rewrite merge_pairs_cons, forM_app. cbn [forM]. unfold bind.
  rewrite merge_group_pairs.
  destruct (forM (merge_pairs [ids]) _ w) as [[] w1 | w1]; [apply IH | reflexivity].
Qed.

Lemma ids_merge_rows k rid rows :
  map id (merge_rows k rid rows)
  = filter (fun i => negb (String.eqb i rid)) (map id rows).
Proof.
  unfold merge_rows. rewrite map_map. cbn [relink id set_linked_to].
  induction rows as [| r t IH]; simpl; [reflexivity |].
  unfold id_is at 1. destruct (String.eqb (id r) rid); simpl; now rewrite IH.
Qed.

Lemma unlink_unlink rid gone links :
  unlink gone (unlink [rid] links) = unlink (rid :: gone) links.
Proof.
  unfold unlink. rewrite filter_filter. apply filter_ext. intros l.
  unfold mem. cbn [existsb]. rewrite !orb_false_r.
  destruct (String.eqb (from_id l) rid), (String.eqb (to_id l) rid),
    (existsb (String.eqb (from_id l)) gone),
    (existsb (String.eqb (to_id l)) gone); reflexivity.
Qed.

(** The whole loop, when the removed ids are distinct and stored. *)
Lemma merge_pairs_run pairs : forall w,
  NoDup (map snd pairs) ->
  incl (map snd pairs) (map id (fragments (db w))) ->
  exists w',
    forM pairs (fun p => merge_into (fst p) (snd p)) w = Return tt w'
    /\ fragments (db w') = merge_all pairs (fragments (db w))
    /\ fragment_links (db w') = unlink (map snd pairs) (fragment_links (db w)).
Proof.
  induction pairs as [| [k rid] rest IH]; intros w Hnd Hincl.
  - exists w. repeat split. unfold unlink. cbn.
    induction (fragment_links (db w)); simpl; congruence.
  - cbn [map snd] in Hnd, Hincl. inversion Hnd; subst.
    destruct (merge_into_links k rid w) as (w1 & E1 & F1 & L1).
    { apply Hincl. now left. }
    destruct (IH w1 H2) as (w2 & E2 & F2 & L2).
    { intros x Hx. rewrite F1, ids_merge_rows. apply filter_In. split.
      - apply Hincl. now right.
      - apply negb_true_iff, String.eqb_neq. intros ->. contradiction. }
    exists w2. split; [| split].
    + cbn [forM fst snd]. unfold bind. rewrite E1. exact E2.
    + rewrite F2, F1. reflexivity.
    + rewrite L2, L1. apply unlink_unlink.
Qed.

(** What the loop of [_mergeDuplicates] would do on a table that held
    several rows of one hash, which the unique index on [content_hash]
    does not admit: on a table whose ids are distinct, the rows and the
    edges it leaves, and the row that is kept of each set, the one of the
    highest importance and, among equals, the earliest created. *)
Lemma mergeDuplicates_run w :
  NoDup (map id (fragments (db w))) ->
  exists w',
    _mergeDuplicates w = Return (List.length (removeIds_of (db w))) w'
    /\ fragments (db w')
       = map (relink_all (merge_pairs (dup_groups (db w))))
             (filter (fun r => negb (mem (id r) (removeIds_of (db w))))
                     (fragments (db w)))
    /\ map sans_links (fragments (db w'))
       = map sans_links
             (filter (fun r => negb (mem (id r) (removeIds_of (db w))))
                     (fragments (db w)))
    /\ (List.length (fragments (db w'))
        + List.length (removeIds_of (db w)))%nat
       = List.length (fragments (db w))
    /\ (forall r rid,
           In r (fragments (db w')) -> In rid (removeIds_of (db w)) ->
           ~ In rid (linked_to r))
    /\ fragment_links (db w')
       = unlink (removeIds_of (db w)) (fragment_links (db w))
    /\ (forall h,
           In h (dup_hashes (db w)) ->
           exists keeper,
             In keeper (fragments (db w))
             /\ content_hash keeper = h
             /\ ~ In (id keeper) (removeIds_of (db w))
             /\ forall r,
                  In r (fragments (db w)) -> content_hash r = h ->
                  (importance r <= importance keeper)%Q
                  /\ ((importance r == importance keeper)%Q ->
                      (created_at keeper <= created_at r)%Z)
                  /\ (r = keeper \/ In (id r) (removeIds_of (db w)))).
Proof.
  intros Hnd. set (d := db w).
  assert (Hsnd : map snd (merge_pairs (dup_groups d)) = removeIds_of d)
    by apply snd_merge_pairs.
  destruct (merge_pairs_run (merge_pairs (dup_groups d)) w)
    as (w' & E & F & L).
  { rewrite Hsnd. now apply NoDup_removeIds. }
  { rewrite Hsnd. intros x. apply removeIds_stored. }
  fold d in F, L. rewrite merge_all_closed, Hsnd in F. rewrite Hsnd in L.
  exists w'. split; [| split; [exact F | split; [| split; [| split; [| split; [exact L |]]]]]].
  - unfold _mergeDuplicates, bind, getDB, ret. fold d.
    rewrite forM_merge_pairs, E. unfold removeIds_of. now rewrite merged_count.
  - rewrite F, map_map. apply map_ext. intros r. apply sans_links_relink_all.
  - rewrite F, length_map. apply removed_rows_count;
      [exact Hnd | now apply NoDup_removeIds | intros x; apply removeIds_stored].
  - intros r rid Hr Hrid. rewrite F in Hr.
    apply in_map_iff in Hr as (r0 & <- & Hr0).
    apply (relink_all_clean _ r0 []).
    + intros x [].
    + intros k rid' Hin. split; [intros [] |]. rewrite Hsnd.
      eapply keep_not_removed; eauto.
    + cbn [app]. now rewrite Hsnd.
  - intros h Hh.
    assert (Hlen : (1 < List.length (group_of d h))%nat).
    { unfold dup_hashes in Hh. apply In_firstn, filter_In in Hh as [_ Hh].
      now apply Nat.ltb_lt in Hh. }
    destruct (group_of d h) as [| k rs] eqn:G; [simpl in Hlen; lia |].
    destruct (group_of_head d h k rs G) as (keeper & Hk & Ek & Hhk & Hbest).
    assert (Hrs : forall x, In x rs -> In x (removeIds_of d)).
    { intros x Hx. unfold removeIds_of. rewrite dup_groups_hashes.
      apply In_removeIds. exists h. split; [exact Hh |]. now rewrite G. }
    exists keeper. split; [exact Hk |]. split; [exact Hhk |]. split.
    + destruct rs as [| rid rs']; [simpl in Hlen; lia |].
      rewrite Ek. apply (keep_not_removed d k rid Hnd).
      unfold merge_pairs. apply in_concat.
      exists (map (pair k) (rid :: rs')). split; [| now left].
      apply in_map_iff. exists (k :: rid :: rs'). split; [reflexivity |].
      rewrite dup_groups_hashes. apply in_map_iff. eauto.
    + intros r Hr Hhr. destruct (Hbest r Hr Hhr) as [B1 B2].
      split; [exact B1 |]. split; [exact B2 |].
      assert (Hi : In (id r) (group_of d h)) by (apply In_group_of; eauto).
      rewrite G in Hi. destruct Hi as [Hi | Hi].
      * left. eapply id_injective; eauto. congruence.
      * right. now apply Hrs.
Qed.

End Merge.

(** ** PII redaction *)

Section Matcher.
Local Open Scope nat_scope.
Local Open Scope list_scope.

(** *** The matcher and the language of a pattern *)

Lemma rep_sound p s : forall lo hi k x,
  rep p lo hi s k = Some x ->
  exists m s', s = m ++ s' /\ Lang (Rep lo hi p) m /\ k s' = Some x.
Proof.
  induction s as [| c t IH]; intros lo hi k x H.
  - destruct lo; [| discriminate]. exists [], []. cbn in *.
    repeat split; auto. destruct hi; [lia | exact I].
  - cbn [rep] in H.
    assert (Hstop : match lo with 0 => k (c :: t) | S _ => None end = Some x ->
                    exists m s', c :: t = m ++ s' /\ Lang (Rep lo hi p) m
                                 /\ k s' = Some x).
    { destruct lo; [| discriminate]. intros E. exists [], (c :: t). cbn.
      repeat split; auto. destruct hi; [lia | exact I]. }
    destruct (p c && match hi with Some 0 => false | _ => true end) eqn:C;
      [| now apply Hstop].
    destruct (rep p (pred lo) (option_map pred hi) t k) as [y |] eqn:R;
      [| now apply Hstop].
    injection H as <-. apply andb_true_iff in C as [Pc Hh].
    destruct (IH _ _ _ _ R) as (m & s' & E & (Hall & Hlo & Hhi) & K).
    exists (c :: m), s'. subst t. cbn. rewrite Pc, Hall.
    repeat split; auto; [lia |].
    destruct hi as [[| h] |]; cbn in *; [discriminate | lia | exact I].
Qed.

Lemma rep_zero p hi s k : k s <> None -> rep p 0 hi s k <> None.
Proof.
  intros K. destruct s as [| c t]; cbn; [exact K |].
  destruct (p c && _); [| exact K].
  destruct (rep p 0 (option_map pred hi) t k); [discriminate | exact K].
Qed.

Lemma rep_complete p m : forall lo hi s' k,
  Lang (Rep lo hi p) m -> k s' <> None -> rep p lo hi (m ++ s') k <> None.
Proof.
  induction m as [| c m IH]; intros lo hi s' k (Hall & Hlo & Hhi) K.
  - cbn in Hlo. assert (lo = 0) by lia. subst lo. now apply rep_zero.
  - cbn in Hall, Hlo, Hhi. apply andb_true_iff in Hall as [Pc Hall].
    cbn [app rep]. rewrite Pc.
    assert (Hh : match hi with Some 0 => false | _ => true end = true).
    { destruct hi as [[| h] |]; auto. lia. }
    rewrite Hh. cbn [andb].
    assert (R : rep p (pred lo) (option_map pred hi) (m ++ s') k <> None).
    { apply IH; [| exact K]. repeat split; auto; [lia |].
      destruct hi as [h |]; cbn; [lia | exact I]. }
    destruct (rep p (pred lo) (option_map pred hi) (m ++ s') k);
      [discriminate | congruence].
Qed.

(** A successful run consumed a string of the language; the
    continuation gave the rest. *)
Lemma bt_sound r : forall s k x,
  bt r s k = Some x ->
  exists m s' x', s = m ++ s' /\ Lang r m /\ k s' = Some x' /\ fst x' = fst x.
Proof.
  induction r as [p | r1 IH1 r2 IH2 | r1 IH1 r2 IH2 | lo hi p | r1 IH1];
    intros s k x H; cbn [bt] in H.
  - destruct s as [| c t]; [discriminate |].
    destruct (p c) eqn:Pc; [| discriminate].
    exists [c], t, x. cbn. eauto 6.
  - destruct (IH1 _ _ _ H) as (m1 & s1 & x1 & E1 & L1 & K1 & F1).
    destruct (IH2 _ _ _ K1) as (m2 & s2 & x2 & E2 & L2 & K2 & F2).
    exists (m1 ++ m2), s2, x2. subst. rewrite <- app_assoc.
    repeat split; auto; [| congruence]. cbn. eauto.
  - destruct (bt r1 s k) as [y |] eqn:B1.
    + injection H as <-.
      destruct (IH1 _ _ _ B1) as (m & s' & x' & E & L & K & F).
      exists m, s', x'. cbn. auto.
    + destruct (IH2 _ _ _ H) as (m & s' & x' & E & L & K & F).
      exists m, s', x'. cbn. auto.
  - destruct (rep_sound _ _ _ _ _ _ H) as (m & s' & E & L & K).
    exists m, s', x. auto.
  - destruct (IH1 _ _ _ H) as (m & s' & x' & E & L & K & F).
    destruct (k s') as [[rest c] |] eqn:Ks; [| discriminate].
    injection K as <-. exists m, s', (rest, c). cbn in *. auto.
Qed.

(** Without a capture group the result is the continuation's. *)
Lemma bt_sound_exact r : forall s k x,
  grp_free r = true -> bt r s k = Some x ->
  exists m s', s = m ++ s' /\ Lang r m /\ k s' = Some x.
Proof.
  induction r as [p | r1 IH1 r2 IH2 | r1 IH1 r2 IH2 | lo hi p | r1 IH1];
    intros s k x G H; cbn [bt grp_free] in *.
  - destruct s as [| c t]; [discriminate |].
    destruct (p c) eqn:Pc; [| discriminate].
    exists [c], t. cbn. eauto 6.
  - apply andb_true_iff in G as [G1 G2].
    destruct (IH1 _ _ _ G1 H) as (m1 & s1 & E1 & L1 & K1).
    destruct (IH2 _ _ _ G2 K1) as (m2 & s2 & E2 & L2 & K2).
    exists (m1 ++ m2), s2. subst. rewrite <- app_assoc.
    repeat split; auto. cbn. eauto.
  - apply andb_true_iff in G as [G1 G2].
    destruct (bt r1 s k) as [y |] eqn:B1.
    + injection H as <-.
      destruct (IH1 _ _ _ G1 B1) as (m & s' & E & L & K).
      exists m, s'. cbn. auto.
    + destruct (IH2 _ _ _ G2 H) as (m & s' & E & L & K).
      exists m, s'. cbn. auto.
  - apply rep_sound. exact H.
  - discriminate.
Qed.

(** A string of the language at the head, and a continuation that
    accepts what follows it, make the run succeed. *)
Lemma bt_complete r : forall m s' k,
  Lang r m -> k s' <> None -> bt r (m ++ s') k <> None.
Proof.
  induction r as [p | r1 IH1 r2 IH2 | r1 IH1 r2 IH2 | lo hi p | r1 IH1];
    intros m s' k L K; cbn [bt Lang] in *.
  - destruct L as (c & -> & Pc). cbn. now rewrite Pc.
  - destruct L as (m1 & m2 & -> & L1 & L2). rewrite <- app_assoc.
    apply IH1; [exact L1 |]. now apply IH2.
  - destruct L as [L | L].
    + specialize (IH1 _ _ _ L K). now destruct (bt r1 (m ++ s') k).
    + destruct (bt r1 (m ++ s') k); [discriminate |]. now apply IH2.
  - now apply rep_complete.
  - apply IH1; [exact L |]. destruct (k s') as [[rest c] |]; congruence.
Qed.

Lemma Lang_nullable r : Lang r [] -> nullable r = true.
Proof.
  induction r as [p | r1 IH1 r2 IH2 | r1 IH1 r2 IH2 | lo hi p | r1 IH1];
    cbn; intros L.
  - destruct L as (c & E & _). discriminate.
  - destruct L as (m1 & m2 & E & L1 & L2).
    symmetry in E. apply app_eq_nil in E as [-> ->].
    now rewrite IH1, IH2.
  - destruct L as [L | L]; [rewrite IH1 | rewrite IH2]; auto using orb_true_r.
  - destruct L as (_ & Hlo & _). cbn in Hlo. apply Nat.eqb_eq. lia.
  - auto.
Qed.

Lemma Lang_alphabet r : forall m, Lang r m -> forallb (alphabet r) m = true.
Proof.
  induction r as [p | r1 IH1 r2 IH2 | r1 IH1 r2 IH2 | lo hi p | r1 IH1];
    cbn [Lang alphabet]; intros m L.
  - destruct L as (c & -> & Pc). cbn. now rewrite Pc.
  - destruct L as (m1 & m2 & -> & L1 & L2). rewrite forallb_app.
    apply andb_true_iff. split.
    + eapply forallb_forall. intros c Hc.
      rewrite (proj1 (forallb_forall _ _) (IH1 _ L1) c Hc). reflexivity.
    + eapply forallb_forall. intros c Hc.
      rewrite (proj1 (forallb_forall _ _) (IH2 _ L2) c Hc). apply orb_true_r.
  - eapply forallb_forall. intros c Hc. destruct L as [L | L].
    + rewrite (proj1 (forallb_forall _ _) (IH1 _ L) c Hc). reflexivity.
    + rewrite (proj1 (forallb_forall _ _) (IH2 _ L) c Hc). apply orb_true_r.
  - apply L.
  - auto.
Qed.

Lemma Lang_first r : forall c m, Lang r (c :: m) -> first_chars r c = true.
Proof.
  induction r as [p | r1 IH1 r2 IH2 | r1 IH1 r2 IH2 | lo hi p | r1 IH1];
    cbn [Lang first_chars]; intros c m L.
  - destruct L as (c' & E & Pc). injection E as -> ->. exact Pc.
  - destruct L as (m1 & m2 & E & L1 & L2). destruct m1 as [| c1 m1].
    + cbn in E. subst m2. rewrite (Lang_nullable _ L1), (IH2 _ _ L2).
      apply orb_true_r.
    + injection E as -> ->. now rewrite (IH1 _ _ L1).
  - destruct L as [L | L]; [rewrite (IH1 _ _ L) | rewrite (IH2 _ _ L)];
      auto using orb_true_r.
  - destruct L as (Hall & _). cbn in Hall. now apply andb_true_iff in Hall.
  - eauto.
Qed.

(** [exec] and the language. *)
Lemma exec_sound r s n cap :
  exec r s = Some (n, cap) ->
  exists m rest, s = m ++ rest /\ List.length m = n /\ Lang r m.
Proof.
  unfold exec. intros H.
  destruct (bt r s (fun s' => Some (s', None))) as [[rest c] |] eqn:B;
    [| discriminate].
  injection H as <- <-.
  destruct (bt_sound _ _ _ _ B) as (m & s' & x' & E & L & K & F).
  cbn beta in K. injection K as <-. cbn in F. subst s' s. exists m, rest.
  repeat split; auto. rewrite length_app. lia.
Qed.

Lemma exec_complete r m rest : Lang r m -> exec r (m ++ rest) <> None.
Proof.
  intros L. unfold exec.
  pose proof (bt_complete r m rest (fun s' => Some (s', None)) L) as H.
  destruct (bt r (m ++ rest) _) as [[a b] |]; [discriminate |].
  exfalso. apply H; [cbn beta; discriminate | reflexivity].
Qed.

Lemma exec_nonempty r s n cap :
  nullable r = false -> exec r s = Some (n, cap) -> n <> 0.
Proof.
  intros N H. destruct (exec_sound _ _ _ _ H) as (m & rest & _ & <- & L).
  destruct m; [| discriminate]. apply Lang_nullable in L. congruence.
Qed.

Lemma exec_first r c t :
  first_chars r c = false -> nullable r = false -> exec r (c :: t) = None.
Proof.
  intros F N. destruct (exec r (c :: t)) as [[n cap] |] eqn:E; [| reflexivity].
  destruct (exec_sound _ _ _ _ E) as (m & rest & Es & _ & L).
  destruct m as [| c' m].
  - apply Lang_nullable in L. congruence.
  - injection Es as <- _. apply Lang_first in L. congruence.
Qed.

Lemma exec_nil r : nullable r = false -> exec r [] = None.
Proof.
  intros N. destruct (exec r []) as [[n cap] |] eqn:E; [| reflexivity].
  destruct (exec_sound _ _ _ _ E) as (m & rest & Es & _ & L).
  symmetry in Es. apply app_eq_nil in Es as [-> _].
  apply Lang_nullable in L. congruence.
Qed.

(** A match cannot run over a character outside the alphabet: what
    follows such a character, or the end, does not matter. *)
Lemma exec_local r a o rest' :
  stops (alphabet r) o ->
  exec r (a ++ o) <> None -> exec r (a ++ rest') <> None.
Proof.
  intros St H. destruct (exec r (a ++ o)) as [[n cap] |] eqn:E; [| congruence].
  destruct (exec_sound _ _ _ _ E) as (m & rest & Es & _ & L).
  assert (Hm : exists a', a = m ++ a').
  { pose proof (Lang_alphabet _ _ L) as Al. clear - Es St Al.
    revert a Es. induction m as [| c m IH]; intros a Es; [now exists a |].
    cbn in Al. apply andb_true_iff in Al as [Ac Al].
    destruct a as [| c' a].
    - cbn in Es. subst o. cbn in St. congruence.
    - injection Es as -> Es. destruct (IH Al _ Es) as (a' & ->). now exists a'. }
  destruct Hm as (a' & ->). rewrite <- app_assoc. now apply exec_complete.
Qed.

(** *** The scan of [replace] *)

Lemma replace_from_skip r f : forall n t,
  replace_from r f n t = replace_from r f 0 (skipn n t).
Proof.
  induction n as [| n IH]; intros [| c t]; cbn [replace_from skipn]; auto.
Qed.

Lemma replace_Scan r f :
  nullable r = false -> forall s, Scan r f s (replace r f s).
Proof.
  intros N s. unfold replace.
  remember (List.length s) as len eqn:Hlen.
  revert s Hlen. induction len as [len IH] using lt_wf_ind. intros s Hlen.
  destruct s as [| c t]; [constructor |].
  cbn [replace_from].
  destruct (exec r (c :: t)) as [[[| n] cap] |] eqn:E.
  - exfalso. eapply exec_nonempty; eauto.
  - destruct (exec_sound _ _ _ _ E) as (m & rest & Es & Hn & L).
    destruct m as [| c' m]; [discriminate |].
    injection Es as <- ->. injection Hn as <-.
    assert (F : firstn (S (List.length m)) (c :: m ++ rest) = c :: m).
    { cbn [firstn]. f_equal.
      rewrite firstn_app, firstn_all, Nat.sub_diag. cbn. apply app_nil_r. }
    assert (K : skipn (List.length m) (m ++ rest) = rest).
    { rewrite skipn_app, skipn_all, Nat.sub_diag. reflexivity. }
    rewrite replace_from_skip, F, K.
    change (c :: m ++ rest) with ((c :: m) ++ rest) in *.
    apply Scan_hit; [discriminate | exact E |].
    eapply IH; [| reflexivity]. subst len. cbn. rewrite length_app. lia.
  - apply Scan_keep; [exact E |]. eapply IH; [| reflexivity]. subst len. cbn. lia.
Qed.

Lemma free_replace r f t : free r t -> replace r f t = t.
Proof.
  unfold replace. induction t as [| c t IH]; [reflexivity |].
  intros [E F]. cbn [replace_from]. rewrite E. now rewrite IH.
Qed.

Lemma free_app r a b :
  free r (a ++ b)
  <-> (forall a1 a2, a = a1 ++ a2 -> a2 <> [] -> exec r (a2 ++ b) = None)
      /\ free r b.
Proof.
  induction a as [| c a IH]; cbn [app free].
  - split; [| tauto]. intros F. split; [| exact F].
    intros a1 a2 E. symmetry in E. apply app_eq_nil in E as [_ ->]. congruence.
  - rewrite IH. split.
    + intros (E & H & F). split; [| exact F].
      intros [| c1 a1] a2 Ea Hne.
      * cbn in Ea. subst a2. exact E.
      * injection Ea as -> ->. eapply H; eauto.
    + intros (H & F). split; [| split; [| exact F]].
      * apply (H [] (c :: a)); [reflexivity | discriminate].
      * intros a1 a2 -> Hne. apply (H (c :: a1) a2); auto.
Qed.

Lemma free_suffix r a b : free r (a ++ b) -> free r b.
Proof. intros F. now apply free_app in F. Qed.

Lemma free_at r a c t : free r (a ++ c :: t) -> exec r (c :: t) = None.
Proof. intros F. apply free_suffix in F. apply F. Qed.

(** *** Inert replacement texts *)

Lemma chunk_split C b ch :
  chunk C b = Some ch -> exists c b', b = ch ++ c :: b' /\ C c = false.
Proof.
  revert ch. induction b as [| c t IH]; cbn; intros ch H; [discriminate |].
  destruct (C c) eqn:Cc.
  - destruct (chunk C t) as [ch' |]; [| discriminate]. injection H as <-.
    destruct (IH _ eq_refl) as (c' & b' & -> & Hc). exists c', b'. auto.
  - injection H as <-. exists c, t. auto.
Qed.

Lemma inert_check_sound r body :
  nullable r = false -> inert_check r body = true -> inert r body.
Proof.
  intros N H. unfold inert_check in H.
  destruct body as [| c0 body0] eqn:Eb; [discriminate |]. rewrite <- Eb in *.
  apply andb_true_iff in H as [Hc H]. apply negb_true_iff in Hc.
  split; [rewrite Eb; exact Hc |]. split; [rewrite Eb; discriminate |].
  clear Eb Hc c0 body0. intros b1 b2 rest -> Hne. revert H.
  induction b1 as [| c b1 IH]; cbn [app].
  - destruct b2 as [| c b2]; [congruence |]. cbn [inert_from].
    intros H. apply andb_true_iff in H as [H _].
    destruct (chunk (alphabet r) (c :: b2)) as [ch |] eqn:Ch; [| discriminate].
    destruct (exec r ch) eqn:E; [discriminate |].
    destruct (chunk_split _ _ _ Ch) as (c' & b' & -> & Hc').
    destruct (exec r ((ch ++ c' :: b') ++ rest)) eqn:E2; [| reflexivity].
    exfalso. rewrite <- app_assoc in E2.
    apply (exec_local r ch ((c' :: b') ++ rest) []);
      [exact Hc' | congruence | now rewrite app_nil_r].
  - cbn [inert_from]. intros H. apply andb_true_iff in H as [_ H]. now apply IH.
Qed.

(** *** What a scan leaves of a second pattern *)

Section Core.
Variables (r r' : regex) (f' : jsstring -> option jsstring -> jsstring).
Variables (pre_of body_of : jsstring -> option jsstring -> jsstring).
Hypothesis Hnull : nullable r = false.
Hypothesis Hf : forall m cap, f' m cap = pre_of m cap ++ body_of m cap.
Hypothesis Htok : forall m rest cap,
  m <> [] -> exec r' (m ++ rest) = Some (List.length m, cap) ->
  (exists m', m = pre_of m cap ++ m') /\ inert r (body_of m cap).

(** The output follows the input up to a character outside the alphabet
    of [r]. *)
Lemma scan_agree s out :
  Scan r' f' s out ->
  exists a o o', out = a ++ o /\ s = a ++ o' /\ stops (alphabet r) o.
Proof.
  induction 1 as [| c t out E S IH | m rest cap out Hne E S IH].
  - exists [], [], []. cbn. auto.
  - destruct IH as (a & o & o' & -> & -> & St). exists (c :: a), o, o'. auto.
  - destruct (Htok m rest cap Hne E) as ((m' & Em) & St & Hb & _).
    exists (pre_of m cap), (body_of m cap ++ out), (m' ++ rest).
    split; [now rewrite Hf, app_assoc |].
    split; [now rewrite app_assoc, <- Em |].
    destruct (body_of m cap); [easy | exact St].
Qed.

Lemma scan_free s out :
  Scan r' f' s out ->
  (forall a c t, s = a ++ c :: t ->
                 exec r' (c :: t) = None -> exec r (c :: t) = None) ->
  (forall a m rest cap p1 p2 m',
      s = a ++ m ++ rest -> m <> [] ->
      exec r' (m ++ rest) = Some (List.length m, cap) ->
      pre_of m cap = p1 ++ p2 -> p2 <> [] -> m = pre_of m cap ++ m' ->
      exec r (p2 ++ m' ++ rest) = None) ->
  free r out.
Proof.
  induction 1 as [| c t out E S IH | m rest cap out Hne E S IH];
    intros Hkeep Hpre.
  - exact I.
  - cbn [free]. split.
    + destruct (scan_agree _ _ S) as (a & o & o' & -> & -> & St).
      destruct (exec r (c :: a ++ o)) eqn:X; [| reflexivity]. exfalso.
      apply (exec_local r (c :: a) o o' St); [cbn [app]; congruence |].
      cbn [app]. rewrite (Hkeep [] c (a ++ o')); auto.
    + apply IH.
      * intros a c' t' -> . apply (Hkeep (c :: a)). reflexivity.
      * intros a m rest cap p1 p2 m' ->. apply (Hpre (c :: a)). reflexivity.
  - destruct (Htok m rest cap Hne E) as ((m' & Em) & St & Hb & In).
    rewrite Hf, <- app_assoc. apply free_app. split; [| apply free_app; split].
    + intros p1 p2 Ep Hp2.
      destruct (exec r (p2 ++ body_of m cap ++ out)) eqn:X; [| reflexivity].
      exfalso.
      apply (exec_local r p2 (body_of m cap ++ out) (m' ++ rest)).
      * destruct (body_of m cap); [congruence | exact St].
      * congruence.
      * rewrite (Hpre [] m rest cap p1 p2 m'); auto.
    + intros b1 b2 Eb Hb2. eapply In; eauto.
    + apply IH.
      * intros a c t ->. apply (Hkeep (m ++ a)). now rewrite <- app_assoc.
      * intros a m0 rest0 cap0 p1 p2 m0' ->. apply (Hpre (m ++ a)).
        now rewrite <- app_assoc.
Qed.
End Core.
End Matcher.

Section Password.
Local Open Scope nat_scope.
Local Open Scope list_scope.

(** *** Literals under the [i] flag *)

Lemma lit_char_fold x c :
  upper x = false -> lit_char true x c = (fold_case c =? x)%N.
Proof.
  unfold lit_char, fold_case, upper, lower, between. intros U.
  repeat match goal with
         | |- context [N.eqb ?a ?b] => destruct (N.eqb_spec a b)
         | |- context [N.leb ?a ?b] => destruct (N.leb_spec a b)
         | H : context [N.leb ?a ?b] |- _ => destruct (N.leb_spec a b)
         end; cbn in *; try reflexivity; try discriminate; lia.
Qed.

Lemma bt_lit_units ic : forall l x s k,
  bt (lit_units ic x l) s k
  = match strip ic (x :: l) s with Some t => k t | None => None end.
Proof.
  induction l as [| y l IH]; intros x s k; cbn [lit_units bt strip].
  - destruct s as [| c t]; [reflexivity |]. now destruct (lit_char ic x c).
  - destruct s as [| c t]; [reflexivity |].
    destruct (lit_char ic x c); [apply IH | reflexivity].
Qed.

Lemma bt_lit ic w s k :
  w <> [] ->
  bt (lit ic w) s k
  = match strip ic w s with Some t => k t | None => None end.
Proof. destruct w as [| x l]; [congruence |]. intros _. apply bt_lit_units. Qed.

Lemma strip_match w : forall k t,
  forallb (fun x => negb (upper x)) w = true ->
  map fold_case k = w -> strip true w (k ++ t) = Some t.
Proof.
  induction w as [| x w IH]; intros k t U E.
  - destruct k; [reflexivity | discriminate].
  - destruct k as [| c k]; [discriminate |]. injection E as Ec Ek.
    cbn in U. apply andb_true_iff in U as [Ux U]. apply negb_true_iff in Ux.
    cbn [app strip]. rewrite (lit_char_fold _ _ Ux), Ec, N.eqb_refl.
    now apply IH.
Qed.

Lemma strip_mismatch w : forall k t,
  forallb (fun x => negb (upper x)) w = true ->
  mismatch w (map fold_case k) = true -> strip true w (k ++ t) = None.
Proof.
  induction w as [| x w IH]; intros k t U M; [discriminate |].
  destruct k as [| c k]; [discriminate |].
  cbn in U. apply andb_true_iff in U as [Ux U]. apply negb_true_iff in Ux.
  cbn [app strip map mismatch] in *. rewrite (lit_char_fold _ _ Ux).
  destruct (N.eqb_spec (fold_case c) x) as [Eq | Ne]; [| reflexivity].
  rewrite Eq, N.eqb_refl in M. cbn [negb orb] in M. now apply IH.
Qed.

Lemma Lang_lit_units : forall l x k,
  forallb (fun x => negb (upper x)) (x :: l) = true ->
  Lang (lit_units true x l) k -> map fold_case k = x :: l.
Proof.
  induction l as [| y l IH]; intros x k U L; cbn [lit_units Lang] in L;
    cbn in U; apply andb_true_iff in U as [Ux U]; apply negb_true_iff in Ux.
  - destruct L as (c & -> & Hc). rewrite (lit_char_fold _ _ Ux) in Hc.
    apply N.eqb_eq in Hc. cbn. now rewrite Hc.
  - destruct L as (m1 & m2 & -> & (c & -> & Hc) & L2).
    rewrite (lit_char_fold _ _ Ux) in Hc. apply N.eqb_eq in Hc.
    cbn. rewrite Hc. f_equal. now apply IH.
Qed.

Lemma units_Lang : forall l x k,
  forallb (fun x => negb (upper x)) (x :: l) = true ->
  map fold_case k = x :: l -> Lang (lit_units true x l) k.
Proof.
  induction l as [| y l IH]; intros x k U E; cbn [lit_units Lang];
    cbn in U; apply andb_true_iff in U as [Ux U]; apply negb_true_iff in Ux;
    destruct k as [| c k]; try discriminate; injection E as Ec Ek.
  - destruct k; [| discriminate]. exists c. split; [reflexivity |].
    rewrite (lit_char_fold _ _ Ux), Ec. apply N.eqb_refl.
  - exists [c], k. split; [reflexivity |]. split.
    + exists c. split; [reflexivity |].
      rewrite (lit_char_fold _ _ Ux), Ec. apply N.eqb_refl.
    + now apply IH.
Qed.

Lemma key_words_lower :
  forallb (forallb (fun x => negb (upper x))) key_words = true.
Proof. reflexivity. Qed.

Lemma key_word_lower w :
  In w key_words -> forallb (fun x => negb (upper x)) w = true.
Proof. intros H. exact (proj1 (forallb_forall _ _) key_words_lower w H). Qed.

(** The group matches the keys, in any case, and nothing else. *)
Lemma Lang_keys k : Lang re_keys k <-> is_key k.
Proof.
  unfold is_key, re_keys, key_words. cbn [Lang In]. split.
  - intros [L | [L | [L | [L | L]]]];
      apply Lang_lit_units in L; try reflexivity; rewrite L; cbn; tauto.
  - intros [E | [E | [E | [E | [E | []]]]]]; symmetry in E;
      [left | right; left | right; right; left | right; right; right; left
       | right; right; right; right];
      apply units_Lang; try reflexivity; exact E.
Qed.

(** At a key the group hands over to its continuation, once. *)
Lemma bt_keys k t kont : is_key k -> bt re_keys (k ++ t) kont = kont t.
Proof.
  unfold is_key, re_keys, key_words. cbn [In bt].
  rewrite !bt_lit by discriminate.
  intros [E | [E | [E | [E | [E | []]]]]]; symmetry in E;
    repeat match goal with
           | |- context [strip true ?w (k ++ t)] =>
               first [ rewrite (strip_match w k t eq_refl E)
                     | rewrite (strip_mismatch w k t eq_refl)
                         by (rewrite E; reflexivity) ]
           end;
    now destruct (kont t).
Qed.

(** *** The greedy run to the end of the value *)

Lemma rep_all p m : forall lo rest k x,
  forallb p m = true -> stops p rest -> lo <= List.length m ->
  k rest = Some x -> rep p lo None (m ++ rest) k = Some x.
Proof.
  induction m as [| c m IH]; intros lo rest k x Hall St Hlo K.
  - cbn in Hlo. assert (lo = 0) by lia. subst lo. cbn [app].
    destruct rest as [| c rest]; cbn [rep]; [exact K |].
    cbn in St. rewrite St. exact K.
  - cbn in Hall, Hlo. apply andb_true_iff in Hall as [Pc Hall].
    cbn [app rep option_map]. rewrite Pc. cbn [andb].
    rewrite (IH (pred lo) rest k x); auto. lia.
Qed.

Lemma rep_accept_stops p s : forall lo rest cap,
  rep p lo None s accept = Some (rest, cap) -> stops p rest.
Proof.
  induction s as [| c t IH]; intros lo rest cap H; cbn [rep option_map] in H.
  - destruct lo; [| discriminate]. injection H as <- _. exact I.
  - destruct (p c) eqn:Pc; cbn [andb] in H.
    + destruct (rep p (pred lo) None t accept) as [y |] eqn:R.
      * injection H as ->. eapply IH; eauto.
      * destruct lo; [| discriminate]. exfalso.
        cbn [pred] in R. revert R. apply rep_zero. discriminate.
    + destruct lo; [| discriminate]. injection H as <- _. exact Pc.
Qed.

Lemma re_password_parts : re_password = Seq (Grp re_keys) re_tail.
Proof. reflexivity. Qed.

Lemma tail_token rest :
  stops value_char rest ->
  bt re_tail (REDACTED_PWD ++ rest) accept = Some (rest, None).
Proof.
  intros St. unfold re_tail. cbn [bt].
  apply (rep_all space [] 0); [reflexivity | reflexivity | cbn; lia |].
  cbn -[rep]. apply (rep_all space [32%N] 0);
    [reflexivity | reflexivity | cbn; lia |].
  apply (rep_all value_char (js "[REDACTED_PWD]") 1);
    [reflexivity | exact St | cbn; lia | reflexivity].
Qed.

(** What the replacer writes is matched as a whole by the pattern, with
    the same key captured. *)
Lemma exec_token k rest :
  is_key k -> stops value_char rest ->
  exec re_password (k ++ REDACTED_PWD ++ rest)
  = Some (List.length (k ++ REDACTED_PWD), Some k).
Proof.
  intros Hk St. unfold exec. rewrite re_password_parts. cbn [bt].
  rewrite (bt_keys _ _ _ Hk). fold accept. rewrite (tail_token _ St).
  rewrite !length_app. f_equal. f_equal; [lia |]. f_equal.
  replace (List.length k + (List.length REDACTED_PWD + List.length rest)
           - (List.length REDACTED_PWD + List.length rest))
    with (List.length k + 0) by lia.
  rewrite firstn_app_2. cbn. apply app_nil_r.
Qed.

(** A match of the pattern: the captured key, then the rest of the
    match, up to the end of the value. *)
Lemma exec_password s n cap :
  exec re_password s = Some (n, cap) ->
  exists k mt rest,
    s = k ++ mt ++ rest /\ n = List.length (k ++ mt) /\ cap = Some k
    /\ is_key k /\ Lang re_tail mt /\ stops value_char rest.
Proof.
  unfold exec. rewrite re_password_parts. cbn [bt]. fold accept.
  destruct (bt re_keys s _) as [[rest cap'] |] eqn:B; [| discriminate].
  intros H. injection H as <- <-.
  apply bt_sound_exact in B as (k & s' & -> & Lk & B); [| reflexivity].
  destruct (bt re_tail s' accept) as [[rest' c0] |] eqn:T; [| discriminate].
  injection B as <- <-.
  assert (St : stops value_char rest').
  { unfold re_tail in T. cbn [bt] in T.
    apply rep_sound in T as (m1 & s1 & _ & _ & T).
    destruct s1 as [| c s1]; [discriminate |].
    destruct (assign_char c); [| discriminate].
    apply rep_sound in T as (m2 & s2 & _ & _ & T).
    eapply rep_accept_stops; eauto. }
  destruct (bt_sound _ _ _ _ T) as (mt & s2 & x' & -> & Lt & K & F).
  unfold accept in K. injection K as <-. cbn in F. subst s2.
  exists k, mt, rest'. rewrite !length_app.
  split; [reflexivity |]. split; [lia |]. split.
  - f_equal. replace (List.length k + (List.length mt + List.length rest')
                      - (List.length mt + List.length rest'))
      with (List.length k + 0) by lia.
    rewrite firstn_app_2. cbn. apply app_nil_r.
  - split; [now apply Lang_keys |]. auto.
Qed.

(** *** The shape of a password match *)

Lemma forallb_map A B (f : A -> B) p l :
  forallb p (map f l) = forallb (fun x => p (f x)) l.
Proof. induction l as [| x l IH]; cbn; [reflexivity | now rewrite IH]. Qed.

Lemma key_shape k :
  is_key k ->
  exists c0 k', k = c0 :: k' /\ key_initial c0 = true
                /\ forallb key_inner k' = true.
Proof.
  unfold is_key, key_words. cbn [In].
  destruct k as [| c0 k'];
    [intros [E | [E | [E | [E | [E | []]]]]]; discriminate |].
  intros H. exists c0, k'. split; [reflexivity |].
  unfold key_initial, key_inner.
  change (forallb (fun c => inner_code (fold_case c)) k')
    with (forallb (fun c => inner_code (fold_case c)) k').
  rewrite <- (forallb_map _ _ fold_case inner_code k').
  cbn [map] in H.
  destruct H as [E | [E | [E | [E | [E | []]]]]];
    injection E as <- <-; split; reflexivity.
Qed.

Lemma inner_not_initial c : key_inner c = true -> key_initial c = false.
Proof.
  unfold key_inner, key_initial, inner_code. intros H.
  apply existsb_exists in H as (x & Hx & E). apply N.eqb_eq in E. rewrite E.
  assert (F : forallb (fun x => negb (initial_code x))
                (List.concat (map (@tl N) key_words)) = true) by reflexivity.
  apply (proj1 (forallb_forall _ _) F) in Hx. now apply negb_true_iff in Hx.
Qed.

Lemma space_not_initial c : space c = true -> key_initial c = false.
Proof.
  unfold space, between. intros H.
  rewrite !orb_true_iff, !andb_true_iff, !N.leb_le, !N.eqb_eq in H.
  assert (U : upper c = false).
  { unfold upper, between. apply andb_false_iff. rewrite !N.leb_gt. lia. }
  unfold key_initial, fold_case, initial_code. rewrite U.
  apply orb_false_iff. rewrite !N.eqb_neq. lia.
Qed.

Lemma assign_not_initial c : assign_char c = true -> key_initial c = false.
Proof.
  unfold assign_char, is_chr.
  change (chr ":") with 58%N. change (chr "=") with 61%N. intros H.
  rewrite !orb_true_iff, !N.eqb_eq in H.
  assert (U : upper c = false).
  { unfold upper, between. apply andb_false_iff. rewrite !N.leb_gt. lia. }
  unfold key_initial, fold_case, initial_code. rewrite U.
  apply orb_false_iff. rewrite !N.eqb_neq. lia.
Qed.

Lemma initial_not_inner c : key_initial c = true -> head_inner c = false.
Proof.
  intros H. unfold head_inner.
  destruct (key_inner c) eqn:A;
    [apply inner_not_initial in A; congruence |].
  destruct (space c) eqn:B;
    [apply space_not_initial in B; congruence |].
  destruct (assign_char c) eqn:C;
    [apply assign_not_initial in C; congruence |].
  reflexivity.
Qed.

Lemma first_password c :
  first_chars re_password c
  = lit_char true 112 c || lit_char true 48708 c.
Proof.
  destruct (lit_char true 112 c) eqn:A, (lit_char true 48708 c) eqn:B;
    cbv -[lit_char]; rewrite ?A, ?B; reflexivity.
Qed.

(** No match of the pattern starts with a character that starts no key. *)
Lemma exec_not_initial c t :
  key_initial c = false -> exec re_password (c :: t) = None.
Proof.
  unfold key_initial, initial_code. intros H.
  apply orb_false_iff in H as [H1 H2].
  apply exec_first; [| reflexivity].
  rewrite first_password, !lit_char_fold by reflexivity.
  now rewrite H1, H2.
Qed.

Lemma Lang_password m :
  Lang re_password m
  <-> exists k w1 a w2 v,
        m = k ++ w1 ++ a :: w2 ++ v /\ is_key k
        /\ forallb space w1 = true /\ assign_char a = true
        /\ forallb space w2 = true /\ forallb value_char v = true
        /\ v <> [].
Proof.
  rewrite re_password_parts. unfold re_tail. cbn [Lang]. split.
  - intros (k & mt & -> & Lk & w1 & m1 & -> & (S1 & _) & a' & m2 & ->
            & (a & -> & Ha) & w2 & v & -> & (S2 & _) & V & Hv & _).
    exists k, w1, a, w2, v. apply Lang_keys in Lk.
    repeat split; auto. destruct v; [cbn in Hv; lia | discriminate].
  - intros (k & w1 & a & w2 & v & -> & Hk & S1 & Ha & S2 & V & Hv).
    exists k, (w1 ++ a :: w2 ++ v). split; [reflexivity |].
    split; [now apply Lang_keys |].
    exists w1, (a :: w2 ++ v). split; [reflexivity |].
    split; [repeat split; auto; lia |].
    exists [a], (w2 ++ v). split; [reflexivity |].
    split; [exists a; auto |].
    exists w2, v. split; [reflexivity |].
    split; [repeat split; auto; lia |].
    repeat split; auto. destruct v; [congruence | cbn; lia].
Qed.

(** The head of a match: after its first character only inner
    characters, and a value character after it. *)
Lemma password_head m :
  Lang re_password m ->
  exists c0 h v0 v,
    m = c0 :: h ++ v0 :: v /\ forallb head_inner h = true
    /\ value_char v0 = true
    /\ forall c', value_char c' = true ->
                   Lang re_password (c0 :: h ++ [c']).
Proof.
  intros L. apply Lang_password in L
    as (k & w1 & a & w2 & v & -> & Hk & S1 & Ha & S2 & V & Hv).
  destruct (key_shape _ Hk) as (c0 & k' & -> & Hc0 & Hk').
  destruct v as [| v0 v]; [congruence |].
  cbn in V. apply andb_true_iff in V as [V0 V].
  exists c0, (k' ++ w1 ++ a :: w2), v0, v. split; [| split; [| split]].
  - cbn. now rewrite <- !app_assoc.
  - rewrite !forallb_app. cbn [forallb]. unfold head_inner.
    rewrite Ha, !andb_true_iff. repeat split.
    + apply forallb_forall. intros x Hx.
      now rewrite (proj1 (forallb_forall _ _) Hk' x Hx).
    + apply forallb_forall. intros x Hx.
      rewrite (proj1 (forallb_forall _ _) S1 x Hx). now destruct (key_inner x).
    + now destruct (key_inner a), (space a).
    + apply forallb_forall. intros x Hx.
      rewrite (proj1 (forallb_forall _ _) S2 x Hx). now destruct (key_inner x).
  - exact V0.
  - intros c' Hc'. apply Lang_password.
    exists (c0 :: k'), w1, a, w2, [c']. cbn. rewrite <- !app_assoc. cbn.
    repeat split; auto; [now rewrite Hc' | discriminate].
Qed.

(** A match that starts before the place where two texts part starts in
    both of them. *)
Lemma exec_transfer a o o' :
  a <> [] -> bound o o' ->
  exec re_password (a ++ o) <> None -> exec re_password (a ++ o') <> None.
Proof.
  intros Ha Hb H.
  destruct (exec re_password (a ++ o)) as [[n cap] |] eqn:E; [| congruence].
  clear H. destruct (exec_sound _ _ _ _ E) as (m & rest & Es & _ & L).
  destruct (password_head _ L) as (c0 & h & v0 & v & -> & Hh & Hv0 & Build).
  destruct a as [| a0 a]; [congruence |]. clear Ha.
  cbn [app] in Es. injection Es as -> Es.
  rewrite <- app_assoc in Es. cbn [app] in Es.
  assert (Hcase : (exists a1, a = h ++ v0 :: a1)
                  \/ (a = h /\ exists o1, o = v0 :: o1)).
  { clear - Es Hh Hb. revert a Es.
    induction h as [| x h IH]; intros a Es; cbn [app] in Es.
    - destruct a as [| y a].
      + right. split; [reflexivity |]. cbn in Es. subst o. eauto.
      + left. injection Es as Ey _. subst y. exists a. reflexivity.
    - cbn in Hh. apply andb_true_iff in Hh as [Hx Hh].
      destruct a as [| y a].
      + cbn in Es. subst o. cbn in Hb. destruct Hb as [Hb _]. congruence.
      + injection Es as Ey Es. subst y.
        destruct (IH Hh _ Es) as [(a1 & E1) | (E1 & o1 & E2)].
        * left. exists a1. now rewrite E1.
        * right. split; [now rewrite E1 | eauto]. }
  destruct Hcase as [(a1 & ->) | (-> & o1 & ->)].
  - change (c0 :: (h ++ v0 :: a1) ++ o')
      with ((c0 :: h ++ v0 :: a1) ++ o').
    replace ((c0 :: h ++ v0 :: a1) ++ o')
      with ((c0 :: h ++ [v0]) ++ a1 ++ o')
      by (cbn; rewrite <- !app_assoc; reflexivity).
    apply exec_complete. now apply Build.
  - cbn in Hb. destruct Hb as [_ Hb].
    destruct o' as [| c' o']; [congruence |].
    replace ((c0 :: h) ++ c' :: o') with ((c0 :: h ++ [c']) ++ o')
      by (cbn; rewrite <- !app_assoc; reflexivity).
    apply exec_complete. apply Build. auto.
Qed.
End Password.

Section Redaction.
Local Open Scope nat_scope.
Local Open Scope list_scope.

(** *** Texts that the password step leaves alone *)

Lemma replace_hit r f s n cap :
  nullable r = false -> exec r s = Some (n, cap) ->
  replace r f s = f (firstn n s) cap ++ replace r f (skipn n s).
Proof.
  intros N E. pose proof (exec_nonempty _ _ _ _ N E) as Hn.
  destruct s as [| c t]; [rewrite exec_nil in E by exact N; discriminate |].
  destruct n as [| n]; [congruence |].
  unfold replace. cbn [replace_from]. rewrite E, replace_from_skip. reflexivity.
Qed.

Lemma selfrep_app a b :
  selfrep (a ++ b)
  <-> (forall a1 a2, a = a1 ++ a2 -> a2 <> [] ->
         exec re_password (a2 ++ b) = None \/ tokform (a2 ++ b))
      /\ selfrep b.
Proof.
  induction a as [| c a IH]; cbn [app selfrep].
  - split; [| tauto]. intros F. split; [| exact F].
    intros a1 a2 E. symmetry in E. apply app_eq_nil in E as [_ ->]. congruence.
  - rewrite IH. split.
    + intros (E & H & F). split; [| exact F].
      intros [| c1 a1] a2 Ea Hne.
      * cbn in Ea. subst a2. exact E.
      * injection Ea as -> ->. eapply H; eauto.
    + intros (H & F). split; [| split; [| exact F]].
      * apply (H [] (c :: a)); [reflexivity | discriminate].
      * intros a1 a2 -> Hne. apply (H (c :: a1) a2); auto.
Qed.

Lemma selfrep_suffix a b : selfrep (a ++ b) -> selfrep b.
Proof. intros F. now apply selfrep_app in F. Qed.

Lemma selfrep_replace t :
  selfrep t -> replace re_password password_replacer t = t.
Proof.
  remember (List.length t) as len eqn:Hlen.
  revert t Hlen. induction len as [len IH] using lt_wf_ind. intros t Hlen S.
  destruct t as [| c t]; [reflexivity |].
  destruct S as [[E | (k & rest & Et & Hk & St)] S].
  - unfold replace. cbn [replace_from]. rewrite E. f_equal.
    apply (IH (List.length t)); auto. subst len. cbn. lia.
  - destruct (key_shape _ Hk) as (c0 & k' & -> & _).
    assert (Ec : c = c0 /\ t = k' ++ REDACTED_PWD ++ rest).
    { change ((c0 :: k') ++ REDACTED_PWD ++ rest)
        with (c0 :: (k' ++ REDACTED_PWD ++ rest)) in Et.
      split; congruence. }
    clear Et. destruct Ec as [-> ->].
    change (c0 :: k' ++ REDACTED_PWD ++ rest)
      with ((c0 :: k') ++ REDACTED_PWD ++ rest).
    rewrite (replace_hit re_password password_replacer _ _ _ eq_refl
               (exec_token (c0 :: k') rest Hk St)).
    assert (K : skipn (List.length ((c0 :: k') ++ REDACTED_PWD))
                  ((c0 :: k') ++ REDACTED_PWD ++ rest) = rest).
    { rewrite app_assoc, skipn_app, skipn_all, Nat.sub_diag. reflexivity. }
    rewrite K. cbn [password_replacer].
    rewrite app_assoc in S. apply selfrep_suffix in S.
    rewrite (IH (List.length rest)); auto; [now rewrite app_assoc |].
    subst len. cbn [List.length]. rewrite !length_app. lia.
Qed.

(** *** The scan, step by step *)

Lemma Scan_nil_inv r f out : Scan r f [] out -> out = [].
Proof.
  intros H. remember [] as s eqn:Es.
  destruct H as [| c t out E S | m rest cap out Hne E S];
    [reflexivity | discriminate |].
  apply app_eq_nil in Es as [-> _]. congruence.
Qed.

Lemma Scan_keep_inv r f c t out :
  exec r (c :: t) = None -> Scan r f (c :: t) out ->
  exists out', out = c :: out' /\ Scan r f t out'.
Proof.
  intros E H. remember (c :: t) as s eqn:Es.
  destruct H as [| c' t' out E' S | m rest cap out Hne E' S].
  - discriminate.
  - injection Es as -> ->. eauto.
  - congruence.
Qed.

(** A prefix where no match starts is copied. *)
Lemma Scan_prefix r f p : forall rest out,
  (forall p1 p2, p = p1 ++ p2 -> p2 <> [] -> exec r (p2 ++ rest) = None) ->
  Scan r f (p ++ rest) out ->
  exists out', out = p ++ out' /\ Scan r f rest out'.
Proof.
  induction p as [| c p IH]; intros rest out Hp S; [exists out; auto |].
  assert (E : exec r (c :: p ++ rest) = None).
  { apply (Hp [] (c :: p)); [reflexivity | discriminate]. }
  cbn [app] in S. destruct (Scan_keep_inv _ _ _ _ _ E S) as (out1 & -> & S1).
  assert (Hp' : forall p1 p2, p = p1 ++ p2 -> p2 <> [] ->
                              exec r (p2 ++ rest) = None).
  { intros p1 p2 -> Hne. apply (Hp (c :: p1) p2); auto. }
  destruct (IH rest out1 Hp' S1) as (out' & -> & S').
  exists out'. auto.
Qed.

Lemma value_initial c : value_char c = false -> key_initial c = false.
Proof.
  unfold value_char. intros H. apply negb_false_iff, orb_true_iff in H.
  destruct H as [H | H]; [now apply space_not_initial |].
  unfold is_chr in H. apply N.eqb_eq in H. subst c. reflexivity.
Qed.

(** The scan keeps the character that ends a value. *)
Lemma scan_stops r f rest out :
  nullable r = false ->
  (forall c, value_char c = false -> first_chars r c = false) ->
  Scan r f rest out -> stops value_char rest -> stops value_char out.
Proof.
  intros N F S St. destruct rest as [| c t].
  - apply Scan_nil_inv in S. now subst.
  - cbn in St. apply Scan_keep_inv in S as (out' & -> & _); [exact St |].
    apply exec_first; auto.
Qed.

Lemma password_first_value c :
  value_char c = false -> first_chars re_password c = false.
Proof.
  intros H. apply value_initial in H. unfold key_initial, initial_code in H.
  apply orb_false_iff in H as [H1 H2].
  rewrite first_password, !lit_char_fold by reflexivity. now rewrite H1, H2.
Qed.

(** Nothing in the marker starts a match, whatever follows. *)
Lemma pwd_token_inert b1 b2 rest :
  REDACTED_PWD = b1 ++ b2 -> b2 <> [] -> exec re_password (b2 ++ rest) = None.
Proof.
  intros E Hne. unfold REDACTED_PWD in E. cbn in E.
  do 17 (destruct b1 as [| ? b1];
         [cbn [app] in E; subst b2;
          first [ congruence
                | apply exec_not_initial; reflexivity
                | vm_compute; reflexivity ]
         | cbn [app] in E; try (injection E as <- E) ]).
  all: try discriminate.
Qed.

Lemma app_inv_length A (a b c d : list A) :
  a ++ b = c ++ d -> List.length a = List.length c -> a = c /\ b = d.
Proof.
  revert c. induction a as [| x a IH]; intros [| y c] E L; try discriminate.
  - auto.
  - injection E as -> E. injection L as L.
    destruct (IH _ E L) as [-> ->]. auto.
Qed.

(** A match found by the scan: the captured key, the rest of the match,
    and the end of the value. *)
Lemma password_hit m rest cap :
  exec re_password (m ++ rest) = Some (List.length m, cap) ->
  exists k mt,
    m = k ++ mt /\ cap = Some k /\ is_key k /\ Lang re_tail mt
    /\ stops value_char rest.
Proof.
  intros E.
  destruct (exec_password _ _ _ E)
    as (k & mt & rest' & Es & Hn & Hcap & Hk & Lt & St).
  rewrite app_assoc in Es.
  destruct (app_inv_length _ _ _ _ _ Es Hn) as [-> ->].
  exists k, mt. auto.
Qed.

Lemma password_scan_bound s out :
  Scan re_password password_replacer s out ->
  exists a o o', out = a ++ o /\ s = a ++ o' /\ bound o o'.
Proof.
  induction 1 as [| c t out E S IH | m rest cap out Hne E S IH].
  - exists [], [], []. cbn. auto.
  - destruct IH as (a & o & o' & -> & -> & B). exists (c :: a), o, o'. auto.
  - destruct (password_hit _ _ _ E) as (k & mt & -> & -> & Hk & _ & _).
    destruct (key_shape _ Hk) as (c0 & k' & -> & Hc0 & _).
    exists [], (password_replacer ((c0 :: k') ++ mt) (Some (c0 :: k')) ++ out),
      (((c0 :: k') ++ mt) ++ rest).
    split; [reflexivity |]. split; [reflexivity |].
    cbn [password_replacer app bound].
    split; [apply initial_not_inner; exact Hc0 | auto].
Qed.

(** After the password step every match of the pattern is one that the
    replacer wrote. *)
Lemma password_scan_selfrep s out :
  Scan re_password password_replacer s out -> selfrep out.
Proof.
  induction 1 as [| c t out E S IH | m rest cap out Hne E S IH].
  - exact I.
  - cbn [selfrep]. split; [left | exact IH].
    destruct (password_scan_bound _ _ S) as (a & o & o' & -> & -> & B).
    destruct (exec re_password (c :: a ++ o)) eqn:X; [| reflexivity].
    exfalso. apply (exec_transfer (c :: a) o o'); [discriminate | exact B | |].
    + cbn [app]. congruence.
    + exact E.
  - destruct (password_hit _ _ _ E) as (k & mt & -> & -> & Hk & _ & St).
    change (password_replacer (k ++ mt) (Some k) ++ out)
      with ((k ++ REDACTED_PWD) ++ out).
    rewrite <- app_assoc.
    assert (St' : stops value_char out).
    { eapply scan_stops; eauto; [reflexivity | apply password_first_value]. }
    destruct (key_shape _ Hk) as (c0 & k' & -> & Hc0 & Hk').
    apply selfrep_app. split; [| apply selfrep_app; split; [| exact IH]].
    + intros [| x k1] k2 Ek Hk2.
      * right. cbn [app] in Ek. subst k2.
        exists (c0 :: k'), out. auto.
      * left. injection Ek as -> ->.
        destruct k2 as [| c2 k2]; [congruence |].
        cbn [app]. apply exec_not_initial, inner_not_initial.
        rewrite forallb_app in Hk'. apply andb_true_iff in Hk' as [_ Hk'].
        cbn in Hk'. now apply andb_true_iff in Hk'.
    + intros b1 b2 Eb Hb. left. eapply pwd_token_inert; eauto.
Qed.

(** *** The phone step after the password step *)

Lemma first_phone c : first_chars re_phone c = (c =? 48)%N.
Proof.
  destruct (N.eqb_spec c 48) as [-> | Ne]; [reflexivity |].
  apply N.eqb_neq in Ne. cbv -[N.eqb]. now rewrite Ne.
Qed.

Lemma phone_first_value c :
  value_char c = false -> first_chars re_phone c = false.
Proof.
  intros H. rewrite first_phone. apply N.eqb_neq. intros ->. discriminate.
Qed.

Lemma phone_token_inert b1 b2 rest :
  REDACTED_PHONE = b1 ++ b2 -> b2 <> [] ->
  exec re_password (b2 ++ rest) = None.
Proof.
  intros E Hne. unfold REDACTED_PHONE in E. cbn in E.
  do 17 (destruct b1 as [| ? b1];
         [cbn [app] in E; subst b2;
          first [ congruence
                | apply exec_not_initial; reflexivity
                | vm_compute; reflexivity ]
         | cbn [app] in E; try (injection E as <- E) ]).
  all: try discriminate.
Qed.

Lemma phone_scan_bound s out :
  Scan re_phone (fun _ _ => REDACTED_PHONE) s out ->
  exists a o o', out = a ++ o /\ s = a ++ o' /\ bound o o'.
Proof.
  induction 1 as [| c t out E S IH | m rest cap out Hne E S IH].
  - exists [], [], []. cbn. auto.
  - destruct IH as (a & o & o' & -> & -> & B). exists (c :: a), o, o'. auto.
  - destruct (exec_sound _ _ _ _ E) as (m1 & rest1 & Es & Hn & L).
    destruct (app_inv_length _ _ _ _ _ Es (eq_sym Hn)) as [<- <-].
    destruct m as [| c m]; [congruence |].
    apply Lang_first in L. rewrite first_phone in L. apply N.eqb_eq in L.
    subst c. exists [], (REDACTED_PHONE ++ out), ((48%N :: m) ++ rest).
    split; [reflexivity |]. split; [reflexivity |].
    split; [reflexivity | intros _; reflexivity].
Qed.

(** The phone pattern starts nowhere in what the password replacer
    wrote. *)
Lemma phone_skips_token k rest p1 p2 :
  is_key k -> k ++ REDACTED_PWD = p1 ++ p2 -> p2 <> [] ->
  exec re_phone (p2 ++ rest) = None.
Proof.
  intros Hk E Hne.
  assert (F : forallb (fun c => negb (c =? 48)%N) (k ++ REDACTED_PWD) = true).
  { rewrite forallb_app. apply andb_true_iff. split; [| reflexivity].
    destruct (key_shape _ Hk) as (c0 & k' & -> & Hc0 & Hk').
    cbn [forallb]. apply andb_true_iff. split.
    - destruct (N.eqb_spec c0 48) as [-> | _]; [discriminate | reflexivity].
    - apply forallb_forall. intros x Hx.
      pose proof (proj1 (forallb_forall _ _) Hk' x Hx) as Hi.
      destruct (N.eqb_spec x 48) as [-> | _]; [discriminate | reflexivity]. }
  rewrite E, forallb_app in F. apply andb_true_iff in F as [_ F].
  destruct p2 as [| c p2]; [congruence |]. cbn in F.
  apply andb_true_iff in F as [F _].
  cbn [app]. apply exec_first; [| reflexivity].
  rewrite first_phone. now apply negb_true_iff.
Qed.

Lemma phone_scan_selfrep s out :
  Scan re_phone (fun _ _ => REDACTED_PHONE) s out ->
  selfrep s -> selfrep out.
Proof.
  induction 1 as [| c t out E S IH | m rest cap out Hne E S IH]; intros Hs.
  - exact I.
  - destruct Hs as [Hc Ht]. cbn [selfrep]. split; [| now apply IH].
    destruct Hc as [X | (k & rest & Et & Hk & St)].
    + left. destruct (phone_scan_bound _ _ S) as (a & o & o' & -> & -> & B).
      destruct (exec re_password (c :: a ++ o)) eqn:Y; [| reflexivity].
      exfalso.
      apply (exec_transfer (c :: a) o o'); [discriminate | exact B | |].
      * cbn [app]. congruence.
      * exact X.
    + right. pose proof (Scan_keep c E S) as S'. rewrite Et in S'.
      rewrite app_assoc in S'.
      apply Scan_prefix in S' as (out' & Eo & S');
        [| intros p1 p2; now apply phone_skips_token].
      exists k, out'. rewrite Eo, <- app_assoc. repeat split; auto.
      eapply scan_stops; eauto; [reflexivity | apply phone_first_value].
  - apply selfrep_suffix in Hs. apply selfrep_app. split; [| now apply IH].
    intros b1 b2 Eb Hb. left. eapply phone_token_inert; eauto.
Qed.

(** *** The four steps *)

(** A step leaves no match of its own pattern. *)
Lemma free_after_self r tok s :
  nullable r = false -> inert r tok ->
  free r (replace r (fun _ _ => tok) s).
Proof.
  intros N I.
  apply (scan_free r r (fun _ _ => tok) (fun _ _ => []) (fun _ _ => tok)
           (fun _ _ => eq_refl)) with (s := s).
  - intros m rest cap _ _. split; [now exists m | exact I].
  - now apply replace_Scan.
  - auto.
  - intros a m rest cap p1 p2 m' _ _ _ E Hne. symmetry in E.
    apply app_eq_nil in E as [_ ->]. congruence.
Qed.

(** A step with an inert marker brings no match of an earlier pattern. *)
Lemma free_after_other r r' tok s :
  nullable r = false -> nullable r' = false -> inert r tok ->
  free r s -> free r (replace r' (fun _ _ => tok) s).
Proof.
  intros N N' I F.
  apply (scan_free r r' (fun _ _ => tok) (fun _ _ => []) (fun _ _ => tok)
           (fun _ _ => eq_refl)) with (s := s).
  - intros m rest cap _ _. split; [now exists m | exact I].
  - now apply replace_Scan.
  - intros a c t -> _. eapply free_at; eauto.
  - intros a m rest cap p1 p2 m' _ _ _ E Hne. symmetry in E.
    apply app_eq_nil in E as [_ ->]. congruence.
Qed.

(** Nor does the password step, whose replacement starts with the key it
    found. *)
Lemma free_after_password r s :
  nullable r = false -> inert r REDACTED_PWD ->
  free r s -> free r (replace re_password password_replacer s).
Proof.
  intros N I F.
  apply (scan_free r re_password password_replacer
           (fun _ cap => match cap with Some k => k | None => [] end)
           (fun _ _ => REDACTED_PWD) (fun _ _ => eq_refl)) with (s := s).
  - intros m rest cap _ E.
    destruct (password_hit _ _ _ E) as (k & mt & -> & -> & _).
    split; [now exists mt | exact I].
  - now apply replace_Scan.
  - intros a c t -> _. eapply free_at; eauto.
  - intros a m rest cap p1 p2 m' -> _ _ Ep Hne Em.
    rewrite Em, Ep in F. destruct p2 as [| c p2]; [congruence |].
    apply (free_at r (a ++ p1) c (p2 ++ m' ++ rest)).
    rewrite <- !app_assoc in F. rewrite <- app_assoc. exact F.
Qed.

(** A text without a key, an address or a number, and where every
    password match is one the replacer wrote, is a fixed point. *)
Lemma redactPII_fixed y :
  free re_api_key y -> free re_email y -> selfrep y -> free re_phone y ->
  _redactPII y = y.
Proof.
  intros A E P H. unfold _redactPII.
  rewrite (free_replace _ _ _ A), (free_replace _ _ _ E),
    (selfrep_replace _ P), (free_replace _ _ _ H).
  reflexivity.
Qed.

(** C9.  For every input string [s] the redaction is idempotent: the four
    ordered substitutions applied to a text that was redacted once leave
    it as it is, [_redactPII (_redactPII s) = _redactPII s]. *)
Theorem redactPII_idempotent s : _redactPII (_redactPII s) = _redactPII s.
Proof.
  apply redactPII_fixed; unfold _redactPII.
  - apply free_after_other; try reflexivity;
      [now apply inert_check_sound |].
    apply free_after_password; try reflexivity;
      [now apply inert_check_sound |].
    apply free_after_other; try reflexivity;
      [now apply inert_check_sound |].
    apply free_after_self; try reflexivity. now apply inert_check_sound.
  - apply free_after_other; try reflexivity;
      [now apply inert_check_sound |].
    apply free_after_password; try reflexivity;
      [now apply inert_check_sound |].
    apply free_after_self; try reflexivity. now apply inert_check_sound.
  - eapply phone_scan_selfrep; [now apply replace_Scan |].
    eapply password_scan_selfrep. now apply replace_Scan.
  - apply free_after_self; try reflexivity. now apply inert_check_sound.
Qed.
End Redaction.

(** ** The row policy in the store *)
Section StorePolicy.
Local Open Scope list_scope.

Lemma In_sort_by A (le : A -> A -> bool) l x :
  In x (sort_by le l) <-> In x l.
Proof.
  split; intros H.
  - eapply Permutation_in; [apply sort_by_perm | exact H].
  - eapply Permutation_in; [apply Permutation_sym, sort_by_perm | exact H].
Qed.

Lemma In_sql_select a p d r :
  In r (sql_select a p d)
  <-> In r (fragments d) /\ visible a r = true /\ p r = true.
Proof.
  unfold sql_select. rewrite filter_In, andb_true_iff. tauto.
Qed.

Lemma Forall_sql_select a p d :
  Forall (fun r => In r (fragments d) /\ visible a r = true)
         (sql_select a p d).
Proof.
  apply Forall_forall. intros r H. apply In_sql_select in H. tauto.
Qed.

Lemma visible_Sor a r : visible (Sor a "default") r = visible a r.
Proof. unfold visible, safeAgent. now rewrite Sor_default. Qed.

Lemma Forall_sub A (P : A -> Prop) (l l' : list A) :
  (forall x, In x l' -> In x l) -> Forall P l -> Forall P l'.
Proof.
  intros Hs H. apply Forall_forall. intros x Hx.
  rewrite Forall_forall in H. auto.
Qed.


Lemma reads_getByIds ids a :
  reads_visible (fun l => l) a (FragmentStore_getByIds ids a).
Proof.
  intros w. unfold FragmentStore_getByIds.
  destruct ids as [| i0 ids]; [eexists; split; [reflexivity | constructor] |].
  eexists. split; [reflexivity |].
  eapply Forall_sub; [| apply Forall_sql_select].
  intros x Hx. apply In_sort_by in Hx. exact Hx.
Qed.

Lemma reads_searchByKeywords kws opts :
  reads_visible (fun l => l) (o_agentId opts)
    (FragmentStore_searchByKeywords kws opts).
Proof.
  intros w. eexists. split; [reflexivity |].
  apply Forall_forall. intros x Hx.
  apply In_firstn in Hx. apply In_sort_by in Hx. apply In_sql_select in Hx.
  rewrite visible_Sor in Hx. tauto.
Qed.

Lemma reads_searchBySemantic O q n s a :
  reads_visible (map row) a (FragmentStore_searchBySemantic O q n s a).
Proof.
  intros w. eexists. split; [reflexivity |].
  cbv beta. rewrite map_map. simpl. rewrite map_id.
  eapply Forall_sub; [| apply Forall_sql_select].
  intros x Hx. apply In_firstn in Hx. apply In_sort_by in Hx. exact Hx.
Qed.



Lemma hidden_rows_Sor a d :
  hidden_rows (Sor a "default") d = hidden_rows a d.
Proof.
  unfold hidden_rows. apply filter_ext. intros r. now rewrite visible_Sor.
Qed.

Lemma hidden_update a p f d :
  (forall r, agent_id (f r) = agent_id r) ->
  hidden_rows a (sql_update a p f d) = hidden_rows a d.
Proof.
  intros Hf. unfold hidden_rows, sql_update. simpl.
  induction (fragments d) as [| r t IH]; simpl; [reflexivity |].
  rewrite IH. destruct (visible a r) eqn:V; simpl.
  - destruct (p r); simpl; [| now rewrite V].
    now rewrite (visible_agent a r (f r) (Hf r)), V.
  - now rewrite V.
Qed.

Lemma hidden_delete a p d :
  hidden_rows a (sql_delete a p d) = hidden_rows a d.
Proof.
  unfold hidden_rows, sql_delete. simpl.
  induction (fragments d) as [| r t IH]; simpl; [reflexivity |].
  destruct (visible a r) eqn:V; simpl.
  - destruct (p r); simpl; [exact IH | now rewrite V].
  - rewrite V. simpl. now rewrite IH.
Qed.

Lemma hidden_archive a now r a' d :
  hidden_rows a (archive_db now r a' d) = hidden_rows a d.
Proof. unfold archive_db. now destruct (existsb _ _). Qed.

Lemma agent_apply_updates O u r : agent_id (apply_updates O u r) = agent_id r.
Proof.
  unfold apply_updates, opt_set.
  destruct (u_is_anchor u), (u_importance u), (u_type u), (u_keywords u),
    (u_topic u), (u_content u); reflexivity.
Qed.

Lemma createLink_spares_hidden f t rel a :
  spares_hidden a (FragmentStore_createLink f t rel a).
Proof.
  intros w.
  unfold FragmentStore_createLink, sql_upsert_link, modifyDB, bind, getDB,
    putDB, ret, throw. simpl.
  destruct (_ && _)%bool; simpl; [| reflexivity].
  now rewrite !hidden_update.
Qed.

(** X3.  [insert], [update], [delete] and [incrementAccess] neither change
    nor remove a row that the policy hides from the calling agent,
    whether they return or throw. *)
Theorem store_writes_spare_hidden_rows O now a :
  (forall f, spares_hidden (agent_id f) (FragmentStore_insert O now f))
  /\ (forall i u, spares_hidden a (FragmentStore_update O now i u a))
  /\ (forall i, spares_hidden a (FragmentStore_delete i a))
  /\ (forall ids, spares_hidden a (FragmentStore_incrementAccess now ids a)).
Proof.
  repeat split.
  - intros f w. rewrite <- !(hidden_rows_Sor (agent_id f)).
    unfold FragmentStore_insert, sql_insert_fragment, bind, getDB, putDB,
      ret, throw. simpl.
    destruct (sql_select _ _ (db w)); simpl; [| reflexivity].
    destruct (find _ (fragments (db w))) as [r |]; simpl.
    + destruct (visible _ r); simpl; [| reflexivity].
      now apply hidden_update.
    + destruct (mem (id f) _); simpl; [reflexivity |].
      destruct (check_importance _); simpl; [| reflexivity].
      destruct (visible _ _) eqn:V; simpl; [| reflexivity].
      unfold hidden_rows. simpl. rewrite filter_app. simpl.
      rewrite V. simpl. apply app_nil_r.
  - intros i u w.
    unfold FragmentStore_update, FragmentStore_getById,
      FragmentStore_archiveVersion, modifyDB, sql_update_row, bind, getDB,
      putDB, ret, throw. simpl.
    destruct (sql_select a (id_is i) (db w)) as [| r t] eqn:E; simpl;
      [reflexivity |].
    destruct (match u_content u with Some _ => _ | None => _ end); simpl;
      [| apply hidden_archive].
    destruct (no_updates u); simpl; [apply hidden_archive |].
    rewrite sql_select_archive, E. simpl.
    destruct (_ && _)%bool; simpl; [apply hidden_archive |].
    destruct (check_importance _); simpl; [| apply hidden_archive].
    rewrite hidden_update; [apply hidden_archive |].
    intros x. simpl. apply agent_apply_updates.
  - intros i w. apply hidden_delete.
  - intros ids w.
    destruct (incrementAccess_run now ids a w) as [E | E]; rewrite E;
      [reflexivity |].
    simpl. now apply hidden_update.
Qed.

End StorePolicy.

(** ** Round trips through the store *)

Section StoreRoundTrips.
Local Open Scope list_scope.

Lemma hd_sql_select a p d r :
  hd_error (sql_select a p d) = Some r ->
  In r (fragments d) /\ visible a r = true /\ p r = true.
Proof.
  intros H. apply In_sql_select.
  destruct (sql_select a p d) as [| x t]; [discriminate |].
  injection H as ->. now left.
Qed.

Lemma sql_select_first a p d r :
  In r (fragments d) -> visible a r = true -> p r = true ->
  exists r', hd_error (sql_select a p d) = Some r'.
Proof.
  intros H V P.
  assert (Hin : In r (sql_select a p d)) by (apply In_sql_select; auto).
  destruct (sql_select a p d) as [| x t]; [contradiction |].
  now exists x.
Qed.

Lemma filter_none A (p : A -> bool) l :
  (forall x, In x l -> p x = false) -> filter p l = [].
Proof.
  induction l as [| x t IH]; simpl; intros H; [reflexivity |].
  rewrite (H x) by now left. apply IH. intros y Hy. apply H. now right.
Qed.

Lemma Sor_same a : Sor a a = a.
Proof. now destruct a. Qed.

Lemma NoDup_snoc A (l : list A) x : NoDup l -> ~ In x l -> NoDup (l ++ [x]).
Proof.
  intros H Hx. induction H as [| y t Hy Ht IH]; simpl.
  - constructor; [tauto | constructor].
  - constructor.
    + rewrite in_app_iff. simpl. intros [H | [H | []]]; [tauto |].
      subst. apply Hx. now left.
    + apply IH. intros H. apply Hx. now right.
Qed.

Lemma ids_update a p f d :
  keeps_key f ->
  map id (fragments (sql_update a p f d)) = map id (fragments d).
Proof.
  intros Hf. unfold sql_update. simpl. rewrite map_map. apply map_ext.
  intros r. destruct (visible a r && p r)%bool; [apply Hf | reflexivity].
Qed.

(** X4.  What [insert] returns is the id under which the calling agent finds
    a row with the hash of the inserted content; ids stay unique. *)
Theorem insert_then_getById O now f w i w' :
  NoDup (map id (fragments (db w))) ->
  FragmentStore_insert O now f w = Return i w' ->
  exists r,
    FragmentStore_getById i (agent_id f) w' = Return (Some r) w'
    /\ id r = i
    /\ content_hash r = computeContentHash O (content f)
    /\ NoDup (map id (fragments (db w'))).
Proof.
  intros ND H.
  unfold FragmentStore_insert, bind, getDB in H. simpl in H.
  destruct (sql_select _ _ (db w)) as [| dup t] eqn:E.
  - unfold sql_insert_fragment, bind, getDB, putDB, ret, throw in H.
    simpl in H.
    destruct (find _ (fragments (db w))) as [r0 |] eqn:F.
    + destruct (visible _ r0) eqn:V; [| discriminate].
      apply find_some in F. destruct F as [Hin Hh]. simpl in Hh.
      assert (X : In r0 (sql_select (Sor (agent_id f) "default")
                  (fun r => (content_hash r =? computeContentHash O (content f))%string)
                  (db w))) by (apply In_sql_select; auto).
      rewrite E in X. contradiction.
    + destruct (mem (id f) _) eqn:Hm; [discriminate |].
      destruct (check_importance _); simpl in H; [| discriminate].
      destruct (visible _ _) eqn:V; simpl in H; [| discriminate].
      rewrite Sor_same in H. injection H as <- <-.
      rewrite visible_Sor in V.
      assert (Hfresh : ~ In (id f) (map id (fragments (db w)))).
      { intros X. apply mem_In in X. congruence. }
      eexists. split; [| split; [| split]].
      * unfold FragmentStore_getById, bind, getDB, ret. simpl.
        unfold sql_select. simpl. rewrite filter_app. simpl.
        rewrite V. unfold id_is at 2. simpl. rewrite String.eqb_refl. simpl.
        replace (filter _ (fragments (db w))) with (@nil Fragment);
          [reflexivity |].
        symmetry. apply filter_none. intros x Hx.
        apply andb_false_iff. right. unfold id_is.
        apply String.eqb_neq. intros Ex. apply Hfresh. rewrite <- Ex.
        now apply in_map.
      * reflexivity.
      * reflexivity.
      * simpl. rewrite map_app. simpl. now apply NoDup_snoc.
  - injection H as <- <-.
    assert (Hd : In dup (sql_select (Sor (agent_id f) "default")
                  (fun r => (content_hash r =? computeContentHash O (content f))%string)
                  (db w))) by (rewrite E; now left).
    apply In_sql_select in Hd. destruct Hd as (Hin & V & Hh).
    rewrite visible_Sor in V.
    destruct (sql_select_first (agent_id f) (id_is (id dup)) (db w) dup Hin V)
      as (r' & Hr'); [apply String.eqb_refl |].
    exists dup. unfold FragmentStore_getById, bind, getDB, ret. simpl.
    apply hd_sql_select in Hr' as Hs. destruct Hs as (Hin' & _ & Hid).
    apply String.eqb_eq in Hid.
    assert (r' = dup) by (eapply id_injective; eauto). subst r'.
    rewrite Hr'. repeat split; auto. now apply String.eqb_eq.
Qed.

Lemma insert_then_getById_witness :
  NoDup (map id (fragments (db agents_world)))
  /\ exists i w',
       FragmentStore_insert no_services 5000 alice_note agents_world
       = Return i w'
       /\ exists r,
            FragmentStore_getById i (agent_id alice_note) w'
            = Return (Some r) w'
            /\ id r = i
            /\ content_hash r
               = computeContentHash no_services (content alice_note)
            /\ NoDup (map id (fragments (db w'))).
Proof.
  assert (ND : NoDup (map id (fragments (db agents_world)))).
  { simpl. repeat constructor; simpl; intuition discriminate. }
  split; [exact ND |].
  eexists _, _. split; [vm_compute; reflexivity |].
  apply (insert_then_getById no_services 5000 alice_note agents_world);
    [exact ND | vm_compute; reflexivity].
Defined.



Lemma mem_snoc x l y : mem x (l ++ [y]) = (mem x l || String.eqb x y)%bool.
Proof.
  unfold mem. rewrite existsb_app. simpl. now rewrite orb_false_r.
Qed.

Lemma existsb_id_update i a p f d :
  keeps_key f ->
  existsb (id_is i) (fragments (sql_update a p f d))
  = existsb (id_is i) (fragments d).
Proof.
  intros Hf. unfold sql_update. simpl.
  induction (fragments d) as [| r t IH]; simpl; [reflexivity |].
  rewrite IH. f_equal.
  destruct (visible a r && p r)%bool; [| reflexivity].
  unfold id_is. now rewrite (proj1 (Hf r)).
Qed.

Lemma upsert_twice f t rel l :
  upsert f t rel (upsert f t rel l) = upsert f t rel l.
Proof.
  unfold upsert at 2 3. destruct (existsb (link_is f t) l) eqn:E.
  - unfold upsert.
    assert (E' : existsb (link_is f t)
                   (map (fun x => if link_is f t x then mkLink f t rel else x) l)
                 = true).
    { apply existsb_exists in E. destruct E as (x & Hx & Hl).
      apply existsb_exists. exists (mkLink f t rel). split.
      - apply in_map_iff. exists x. now rewrite Hl.
      - unfold link_is. simpl. now rewrite !String.eqb_refl. }
    rewrite E'. rewrite map_map. apply map_ext. intros x.
    destruct (link_is f t x) eqn:L; [| now rewrite L].
    unfold link_is. simpl. now rewrite !String.eqb_refl.
  - unfold upsert. rewrite existsb_app. simpl.
    unfold link_is at 2. simpl. rewrite !String.eqb_refl. simpl.
    rewrite orb_true_r. rewrite map_app. simpl.
    unfold link_is at 2. simpl. rewrite !String.eqb_refl. simpl.
    f_equal. rewrite <- (map_id l) at 2. apply map_ext_in. intros x Hx.
    destruct (link_is f t x) eqn:L; [| reflexivity].
    assert (X : existsb (link_is f t) l = true)
      by (apply existsb_exists; eauto).
    congruence.
Qed.

(** One pass of the two [linked_to] statements of [createLink]. *)
Lemma link_arrays_twice a f t r :
  let g1 r := if (visible a r && (id_is f r && negb (mem t (linked_to r))))%bool
              then append_link t r else r in
  let g2 r := if (visible a r && (id_is t r && negb (mem f (linked_to r))))%bool
              then append_link f r else r in
  g2 (g1 (g2 (g1 r))) = g2 (g1 r).
Proof.
  intros g1 g2.
  assert (K1 : forall x, visible a (g1 x) = visible a x /\ id (g1 x) = id x).
  { intros x. unfold g1. destruct (_ && _)%bool; split; reflexivity. }
  assert (K2 : forall x, visible a (g2 x) = visible a x /\ id (g2 x) = id x).
  { intros x. unfold g2. destruct (_ && _)%bool; split; reflexivity. }
  assert (M1 : forall x y, mem y (linked_to x) = true ->
                           mem y (linked_to (g1 x)) = true).
  { intros x y H. unfold g1. destruct (_ && _)%bool; [| exact H].
    simpl. rewrite mem_snoc, H. reflexivity. }
  assert (M2 : forall x y, mem y (linked_to x) = true ->
                           mem y (linked_to (g2 x)) = true).
  { intros x y H. unfold g2. destruct (_ && _)%bool; [| exact H].
    simpl. rewrite mem_snoc, H. reflexivity. }
  assert (F1 : forall x, g1 (g2 (g1 x)) = g2 (g1 x)).
  { intros x. unfold g1 at 1.
    destruct (visible a (g2 (g1 x))
              && (id_is f (g2 (g1 x))
                  && negb (mem t (linked_to (g2 (g1 x))))))%bool eqn:C;
      [| reflexivity].
    exfalso. apply andb_true_iff in C. destruct C as [V C].
    apply andb_true_iff in C. destruct C as [I C].
    apply negb_true_iff in C.
    rewrite (proj1 (K2 _)), (proj1 (K1 _)) in V.
    unfold id_is in I. rewrite (proj2 (K2 _)), (proj2 (K1 _)) in I.
    assert (X : mem t (linked_to (g1 x)) = true).
    { unfold g1. unfold id_is. rewrite V, I. simpl.
      destruct (mem t (linked_to x)) eqn:Mx; simpl; [exact Mx |].
      rewrite mem_snoc, String.eqb_refl. apply orb_true_r. }
    apply M2 in X. congruence. }
  rewrite F1.
  unfold g2 at 1.
  destruct (visible a (g2 (g1 r))
            && (id_is t (g2 (g1 r))
                && negb (mem f (linked_to (g2 (g1 r))))))%bool eqn:C;
    [| reflexivity].
  exfalso. apply andb_true_iff in C. destruct C as [V C].
  apply andb_true_iff in C. destruct C as [I C].
  apply negb_true_iff in C.
  rewrite (proj1 (K2 _)) in V. unfold id_is in I. rewrite (proj2 (K2 _)) in I.
  assert (X : mem f (linked_to (g2 (g1 r))) = true).
  { unfold g2. unfold id_is. rewrite V, I. simpl.
    destruct (mem f (linked_to (g1 r))) eqn:Mx; simpl; [exact Mx |].
    rewrite mem_snoc, String.eqb_refl. apply orb_true_r. }
  congruence.
Qed.

Lemma createLink_db_twice f t rel a d :
  createLink_db f t rel a (createLink_db f t rel a d)
  = createLink_db f t rel a d.
Proof.
  unfold createLink_db, sql_update. simpl. f_equal.
  - rewrite !map_map. apply map_ext. intros r.
    apply (link_arrays_twice a f t r).
  - apply upsert_twice.
Qed.

(** X6.  [createLink] throws, changing nothing, unless both rows exist,
    whoever owns them.  When they do, it returns with the edge stored; of
    the two [linked_to] arrays it extends only those the policy shows to
    the caller, so the rows hidden from the caller stay as they were; and
    a second call with the same arguments changes nothing more. *)
Theorem createLink_needs_rows_and_repeats f t rel a w :
  if (existsb (id_is f) (fragments (db w))
      && existsb (id_is t) (fragments (db w)))%bool
  then exists w',
         FragmentStore_createLink f t rel a w = Return tt w'
         /\ In (mkLink f t rel) (fragment_links (db w'))
         /\ hidden_rows a (db w') = hidden_rows a (db w)
         /\ FragmentStore_createLink f t rel a w' = Return tt w'
  else FragmentStore_createLink f t rel a w = Throw w.
Proof.
  destruct (existsb (id_is f) (fragments (db w))
            && existsb (id_is t) (fragments (db w)))%bool eqn:E.
  - apply andb_true_iff in E. destruct E as [E1 E2].
    eexists. split; [now apply createLink_Return |]. split; [| split].
    + simpl. unfold upsert.
      destruct (existsb (link_is f t) (fragment_links (db w))) eqn:L.
      * apply existsb_exists in L. destruct L as (x & Hx & Hl).
        apply in_map_iff. exists x. now rewrite Hl.
      * apply in_or_app. right. now left.
    + pose proof (createLink_spares_hidden f t rel a w) as H.
      rewrite (createLink_Return f t rel a w E1 E2) in H. exact H.
    + rewrite createLink_Return.
      * cbn [db redis llm_calls]. now rewrite createLink_db_twice.
      * cbn [db]. unfold createLink_db.
        rewrite !existsb_id_update by apply keeps_key_append_link.
        exact E1.
      * cbn [db]. unfold createLink_db.
        rewrite !existsb_id_update by apply keeps_key_append_link.
        exact E2.
  - unfold FragmentStore_createLink, sql_upsert_link, bind, getDB, throw.
    simpl. now rewrite E.
Qed.

End StoreRoundTrips.

(** ** The maintenance sweeps of the store *)

Section Sweeps.
Local Open Scope list_scope.

Lemma Forall2_map_self A (R : A -> A -> Prop) (f : A -> A) l :
  (forall x, R x (f x)) -> Forall2 R l (map f l).
Proof. intros H. induction l; simpl; constructor; auto. Qed.

(** X7.  [deleteExpired] reports how many rows it removed, adds and changes
    none, and removes no row that is permanent, anchored, of importance
    0.1 or more, read or created within the last 90 days, or whose
    [linked_to] array does not hold exactly one id; a row without any
    link is among those it keeps. *)
Theorem deleteExpired_spares now w :
  exists n w',
    FragmentStore_deleteExpired now w = Return n w'
    /\ List.length (fragments (db w))
       = (n + List.length (fragments (db w')))%nat
    /\ (forall r, In r (fragments (db w')) -> In r (fragments (db w)))
    /\ (forall r, In r (fragments (db w)) ->
          ttl_tier r = permanent \/ is_anchor r = true
          \/ 0.1 <= importance r
          \/ List.length (linked_to r) <> 1%nat
          \/ (exists t, accessed_at r = Some t /\ (now - 90 * DAY <= t)%Z)
          \/ (now - 90 * DAY <= created_at r)%Z ->
          In r (fragments (db w'))).
Proof.
  eexists _, _. split; [reflexivity |].
  cbn [db final]. rewrite fragments_delete_system. unfold rowCount.
  split; [| split].
  - unfold sql_select.
    rewrite <- (filter_split_length _ (expired now) (fragments (db w))).
    f_equal. f_equal. apply filter_ext. intros r.
    now rewrite visible_system.
  - intros r Hr. apply filter_In in Hr. tauto.
  - intros r Hin H. apply filter_In. split; [exact Hin |].
    apply negb_true_iff. unfold expired.
    destruct H as [H | [H | [H | [H | [(t & H & Ht) | H]]]]].
    + rewrite H. simpl. now rewrite andb_false_r.
    + rewrite H. simpl. now rewrite !andb_false_r.
    + apply Qle_bool_iff in H. unfold Qlt_bool. now rewrite H.
    + destruct (List.length (linked_to r)) as [| [| n]]; simpl;
        [now rewrite !andb_false_r | congruence | now rewrite !andb_false_r].
    + rewrite H. unfold older_than.
      replace (t <? now - 90 * DAY)%Z with false
        by (symmetry; apply Z.ltb_ge; exact Ht).
      now rewrite !andb_false_r.
    + replace (created_at r <? now - 90 * DAY)%Z with false
        by (symmetry; apply Z.ltb_ge; exact H).
      now rewrite !andb_false_r.
Qed.

Lemma set_importance_same r : set_importance (importance r) r = r.
Proof. now destruct r. Qed.

Lemma set_ttl_tier_same r : set_ttl_tier (ttl_tier r) r = r.
Proof. now destruct r. Qed.

(** X8.  On rows that satisfy the [CHECK] on [importance], [decayImportance]
    raises no importance and keeps the [CHECK]; permanent rows,
    preferences and anchors keep theirs. *)
Theorem decayImportance_never_raises now w :
  Forall (fun r => check_importance r = true) (fragments (db w)) ->
  exists w',
    FragmentStore_decayImportance now w = Return tt w'
    /\ Forall2
         (fun r r' =>
            r' = set_importance (importance r') r
            /\ importance r' <= importance r
            /\ check_importance r' = true
            /\ (ttl_tier r = permanent \/ type r = preference
                \/ is_anchor r = true -> r' = r))
         (fragments (db w)) (fragments (db w')).
Proof.
  intros Hc. eexists. split; [reflexivity |].
  cbn [db final]. rewrite fragments_update_system.
  induction (fragments (db w)) as [| r t IH]; simpl; constructor.
  - inversion Hc as [| ? ? Hr _]; subst.
    unfold check_importance in Hr. apply andb_true_iff in Hr.
    destruct Hr as [H0 H1]. apply Qle_bool_iff in H0, H1.
    destruct (decays now r) eqn:D.
    + split; [reflexivity |]. simpl. split; [| split].
      * lra.
      * unfold check_importance. simpl. apply andb_true_iff.
        split; apply Qle_bool_iff; lra.
      * unfold decays in D. intros [H | [H | H]]; rewrite H in D;
          simpl in D; rewrite ?andb_false_r in D; discriminate.
    + split; [symmetry; apply set_importance_same |].
      split; [lra |]. split; [| reflexivity].
      unfold check_importance. apply andb_true_iff.
      split; now apply Qle_bool_iff.
  - apply IH. now inversion Hc.
Qed.

Lemma decayImportance_never_raises_witness :
  Forall (fun r => check_importance r = true) (fragments (db linked_world))
  /\ exists w',
       FragmentStore_decayImportance linked_now linked_world = Return tt w'
       /\ Forall2
            (fun r r' =>
               r' = set_importance (importance r') r
               /\ importance r' <= importance r
               /\ check_importance r' = true
               /\ (ttl_tier r = permanent \/ type r = preference
                   \/ is_anchor r = true -> r' = r))
            (fragments (db linked_world)) (fragments (db w')).
Proof.
  assert (H : Forall (fun r => check_importance r = true)
                (fragments (db linked_world)))
    by (repeat constructor).
  split; [exact H |].
  exact (decayImportance_never_raises linked_now linked_world H).
Defined.

(** X9.  After [transitionTTL] every preference, every row with five or more
    links and every row of importance 0.8 or more is permanent, and a
    permanent row stays so.  The sweep changes the tier only, and apart
    from the promotions its one move is from warm to cold: a hot row is
    never demoted and a cold row never comes back. *)
Theorem transitionTTL_tiers now w :
  exists w',
    FragmentStore_transitionTTL now w = Return tt w'
    /\ Forall2
         (fun r r' =>
            r' = set_ttl_tier (ttl_tier r') r
            /\ (ttl_tier r = permanent \/ type r = preference
                \/ (5 <= List.length (linked_to r))%nat
                \/ 0.8 <= importance r -> ttl_tier r' = permanent)
            /\ (ttl_tier r' = ttl_tier r \/ ttl_tier r' = permanent
                \/ ttl_tier r = warm /\ ttl_tier r' = cold))
         (fragments (db w)) (fragments (db w')).
Proof.
  eexists. split; [reflexivity |].
  cbn [db final]. rewrite !fragments_update_system, !map_map.
  apply Forall2_map_self. intros r.
  assert (Ep : FragmentType_eqb (type r) preference = true
               <-> type r = preference)
    by (destruct (type r); simpl; split; congruence).
  assert (El : Nat.leb 5 (List.length (linked_to r)) = true
               <-> (5 <= List.length (linked_to r))%nat)
    by apply Nat.leb_le.
  assert (Eq : Qle_bool 0.8 (importance r) = true <-> 0.8 <= importance r)
    by apply Qle_bool_iff.
  unfold not_permanent, goes_cold.
  destruct (Qlt_bool (importance r) 0.3
            || match accessed_at r with
               | Some a => (a <? now - 30 * DAY)%Z
               | None => (created_at r <? now - 30 * DAY)%Z
               end)%bool eqn:C;
  destruct (FragmentType_eqb (type r) preference) eqn:P,
           (Nat.leb 5 (List.length (linked_to r))) eqn:L,
           (Qle_bool 0.8 (importance r)) eqn:Q,
           (ttl_tier r) eqn:T;
    repeat (cbn [importance set_ttl_tier type linked_to accessed_at
                 created_at ttl_tier TTLTier_eqb negb andb orb];
            rewrite ?T, ?P, ?L, ?Q, ?C);
    (split; [try reflexivity; rewrite <- T; symmetry; apply set_ttl_tier_same |]);
    (split; [intros [H | [H | [H | H]]];
             first [reflexivity | discriminate
                   | apply Ep in H; discriminate
                   | apply El in H; discriminate
                   | apply Eq in H; discriminate] |]);
    auto.
Qed.

End Sweeps.

(** ** The Redis index *)

Section Index.
Variable O : Oracles.
Local Open Scope list_scope.

Lemma In_sadd x y l : In x (sadd y l) <-> x = y \/ In x l.
Proof.
  unfold sadd. destruct (mem y l) eqn:E.
  - apply mem_In in E. split; [tauto |]. intros [-> | H]; auto.
  - rewrite in_app_iff. simpl. split; intros H; intuition.
Qed.

Lemma In_srem x y l : In x (srem y l) <-> In x l /\ x <> y.
Proof.
  unfold srem, remove_id. rewrite filter_In, negb_true_iff.
  now rewrite String.eqb_neq.
Qed.

Lemma kw_fold_add i kws : forall m k,
  In k (map (toLowerCase O) kws) \/ In i (m k) ->
  In i (fold_left (fun m k => let k := toLowerCase O k in
                              upd m k (sadd i (m k))) kws m k).
Proof.
  induction kws as [| x t IH]; intros m k H; simpl.
  - destruct H as [[] | H]. exact H.
  - apply IH. unfold upd.
    destruct (String.eqb_spec k (toLowerCase O x)) as [E | N].
    + right. apply In_sadd. now left.
    + destruct H as [[E | H] | H]; [congruence | now left | now right].
Qed.

Lemma kw_fold_rem i kws : forall m k,
  In i (fold_left (fun m k => let k := toLowerCase O k in
                              upd m k (srem i (m k))) kws m k) ->
  In i (m k) /\ ~ In k (map (toLowerCase O) kws).
Proof.
  induction kws as [| x t IH]; intros m k H; simpl in *.
  - tauto.
  - apply IH in H. destruct H as [H Ht]. unfold upd in H.
    destruct (String.eqb_spec k (toLowerCase O x)) as [E | N].
    + apply In_srem in H. tauto.
    + split; [exact H |]. intros [E | X]; [congruence | tauto].
Qed.

(** X10.  Once a fragment is indexed, the lookups by each of its keywords, by
    its topic and by its type find its id, and the set of the session
    holds it; the database is not touched. *)
Theorem index_then_lookup now f s w :
  ready (redis w) = true ->
  exists w',
    FragmentIndex_index O now f s w = Return tt w'
    /\ db w' = db w
    /\ (forall k, In k (keywords f) ->
          exists l, FragmentIndex_searchByKeywords O [k] w' = Return l w'
                    /\ In (id f) l)
    /\ (exists l, FragmentIndex_searchByTopic (topic f) w' = Return l w'
                  /\ In (id f) l)
    /\ (exists l, FragmentIndex_searchByType (type f) w' = Return l w'
                  /\ In (id f) l)
    /\ (s <> EmptyString -> In (id f) (frag_sess (redis w') s)).
Proof.
  intros R. eexists. split; [reflexivity |].
  unfold FragmentIndex_searchByKeywords, FragmentIndex_searchByTopic,
    FragmentIndex_searchByType, bind, getRedis, ret.
  cbn [final db redis]. rewrite R. cbn [negb ready frag_kw frag_tp frag_ty frag_sess].
  split; [reflexivity |]. split; [| split; [| split]].
  - intros k Hk. cbn [fold_left List.length].
    change (Nat.ltb 1 1) with false. rewrite andb_false_r.
    eexists. split; [reflexivity |].
    apply kw_fold_add. left. now apply in_map.
  - eexists. split; [reflexivity |]. unfold upd.
    rewrite String.eqb_refl. apply In_sadd. now left.
  - eexists. split; [reflexivity |]. unfold updT.
    replace (FragmentType_eqb (type f) (type f)) with true
      by now destruct (type f).
    apply In_sadd. now left.
  - intros Hs. destruct s as [| c s']; [congruence |].
    unfold upd. rewrite String.eqb_refl. apply In_sadd. now left.
Qed.

Lemma In_zrem e x l : In e (zrem x l) -> snd e <> x.
Proof.
  unfold zrem. rewrite filter_In, negb_true_iff, String.eqb_neq. tauto.
Qed.

(** X11.  After [deindex] the lookups by the given keywords, by the topic (when
    it is not empty), by the type and by recency no longer return the
    id, and its cache entry is gone.  The session sets are not touched:
    an id stays in the set of its session. *)
Theorem deindex_then_lookup i kws tpc ty w :
  exists w',
    FragmentIndex_deindex O i kws tpc ty w = Return tt w'
    /\ db w' = db w
    /\ (forall k, In k kws ->
          exists l, FragmentIndex_searchByKeywords O [k] w' = Return l w'
                    /\ ~ In i l)
    /\ (tpc <> EmptyString ->
          exists l, FragmentIndex_searchByTopic tpc w' = Return l w'
                    /\ ~ In i l)
    /\ (exists l, FragmentIndex_searchByType ty w' = Return l w'
                  /\ ~ In i l)
    /\ (forall n, exists l, FragmentIndex_getRecent n w' = Return l w'
                            /\ ~ In i l)
    /\ FragmentIndex_getCachedFragment i w' = Return None w'
    /\ frag_sess (redis w') = frag_sess (redis w).
Proof.
  eexists. split; [reflexivity |].
  unfold FragmentIndex_searchByKeywords, FragmentIndex_searchByTopic,
    FragmentIndex_searchByType, FragmentIndex_getRecent,
    FragmentIndex_getCachedFragment, bind, getRedis, ret.
  cbn [final db redis].
  destruct (ready (redis w)) eqn:R; cbn [negb]; rewrite ?R;
    cbn [negb ready frag_kw frag_tp frag_ty frag_sess frag_recent frag_hot].
  - split; [reflexivity |]. repeat split.
    + intros k Hk. cbn [fold_left List.length].
      change (Nat.ltb 1 1) with false. rewrite andb_false_r.
      eexists. split; [reflexivity |].
      intros X. apply kw_fold_rem in X.
      apply (proj2 X). now apply in_map.
    + intros Ht. eexists. split; [reflexivity |].
      destruct tpc as [| c t']; [congruence |].
      unfold upd. rewrite String.eqb_refl. intros X. apply In_srem in X.
      tauto.
    + eexists. split; [reflexivity |]. unfold updT.
      replace (FragmentType_eqb ty ty) with true by now destruct ty.
      intros X. apply In_srem in X. tauto.
    + intros n. eexists. split; [reflexivity |].
      intros X. apply in_map_iff in X. destruct X as (e & E & He).
      assert (Hs : In e (sort_by (fun a b => (fst b <=? fst a)%Z)
                           (zrem i (frag_recent (redis w)))))
        by (destruct n; [exact He | now apply In_firstn in He]).
      apply In_sort_by in Hs. apply In_zrem in Hs. congruence.
    + unfold upd. now rewrite String.eqb_refl.
  - split; [reflexivity |].
    repeat split; intros; try (eexists; split; [reflexivity | tauto]).
Qed.

(** *** Working memory *)

Lemma wm_total_acc l : forall acc,
  fold_left (fun sum p => (sum + wm_estimated_tokens p)%Z) l acc
  = (acc + wm_total l)%Z.
Proof.
  unfold wm_total.
  induction l as [| p t IH]; intros acc; simpl; [lia |].
  rewrite IH, (IH (wm_estimated_tokens p)). lia.
Qed.

Lemma wm_total_cons p t :
  wm_total (p :: t) = (wm_estimated_tokens p + wm_total t)%Z.
Proof. unfold wm_total at 1. simpl. apply wm_total_acc. Qed.

Lemma wm_filter_protected l : forall i n,
  filter (fun p => Qlt_bool 0.8 (wm_importance p)) (wm_filter l i n)
  = filter (fun p => Qlt_bool 0.8 (wm_importance p)) l.
Proof.
  induction l as [| p t IH]; intros i n; simpl; [reflexivity |].
  destruct (Nat.ltb i n && Qle_bool (wm_importance p) 0.8)%bool eqn:E.
  - apply andb_true_iff in E. destruct E as [_ E].
    unfold Qlt_bool at 2. rewrite E. simpl. apply IH.
  - simpl. now rewrite IH.
Qed.

Lemma wm_filter_incl l : forall i n, incl (wm_filter l i n) l.
Proof.
  induction l as [| p t IH]; intros i n; simpl; [apply incl_refl |].
  destruct (Nat.ltb i n && Qle_bool (wm_importance p) 0.8)%bool.
  - apply incl_tl, IH.
  - apply incl_cons; [now left | apply incl_tl, IH].
Qed.

(** X12.  [_enforceWmBudget] drops no entry of importance above 0.8: the
    protected entries of the list are the same before and after, in the
    same order; and it adds nothing. *)
Theorem enforceWmBudget_keeps_protected l :
  filter (fun p => Qlt_bool 0.8 (wm_importance p)) (_enforceWmBudget l)
  = filter (fun p => Qlt_bool 0.8 (wm_importance p)) l
  /\ incl (_enforceWmBudget l) l.
Proof.
  unfold _enforceWmBudget.
  destruct (wm_total l <=? WM_MAX_TOKENS)%Z; [split; [reflexivity | apply incl_refl] |].
  destruct (Nat.ltb 0 _); [| split; [reflexivity | apply incl_refl]].
  split; [apply wm_filter_protected | apply wm_filter_incl].
Qed.

Lemma wm_removed_unprotected l : forall k,
  Forall (fun p => wm_importance p <= 0.8) l ->
  (k <= wm_removed l (wm_total l) k)%nat
  /\ (wm_total (skipn (wm_removed l (wm_total l) k - k) l)
      <= WM_MAX_TOKENS)%Z.
Proof.
  induction l as [| p t IH]; intros k H.
  - simpl. rewrite Nat.sub_diag. simpl. split; [lia | discriminate].
  - inversion H as [| ? ? Hp Ht]; subst.
    cbn [wm_removed].
    destruct (wm_total (p :: t) <=? WM_MAX_TOKENS)%Z eqn:E.
    + rewrite Nat.sub_diag. cbn [skipn]. split; [lia |].
      now apply Z.leb_le.
    + replace (Qlt_bool 0.8 (wm_importance p)) with false.
      2:{ symmetry. unfold Qlt_bool. apply negb_false_iff.
          now apply Qle_bool_iff. }
      rewrite wm_total_cons.
      replace (wm_estimated_tokens p + wm_total t - wm_estimated_tokens p)%Z
        with (wm_total t) by lia.
      destruct (IH (S k) Ht) as [H1 H2]. split; [lia |].
      replace (wm_removed t (wm_total t) (S k) - k)%nat
        with (S (wm_removed t (wm_total t) (S k) - S k))%nat by lia.
      exact H2.
Qed.

Lemma wm_filter_unprotected l : forall i n,
  Forall (fun p => wm_importance p <= 0.8) l ->
  wm_filter l i n = skipn (n - i) l.
Proof.
  induction l as [| p t IH]; intros i n H; simpl.
  - now destruct (n - i)%nat.
  - inversion H as [| ? ? Hp Ht]; subst.
    replace (Qle_bool (wm_importance p) 0.8) with true
      by (symmetry; now apply Qle_bool_iff).
    rewrite andb_true_r. destruct (Nat.ltb_spec i n) as [L | L].
    + rewrite IH by exact Ht.
      replace (n - i)%nat with (S (n - S i))%nat by lia. reflexivity.
    + rewrite IH by exact Ht.
      replace (n - i)%nat with 0%nat by lia.
      replace (n - S i)%nat with 0%nat by lia. reflexivity.
Qed.

(** X13.  When no entry is protected, what [_enforceWmBudget] leaves fits the
    budget of 500 tokens, and it is a suffix of the list: the oldest
    entries go first. *)
Theorem enforceWmBudget_fits l :
  Forall (fun p => wm_importance p <= 0.8) l ->
  (wm_total (_enforceWmBudget l) <= WM_MAX_TOKENS)%Z
  /\ exists k, _enforceWmBudget l = skipn k l.
Proof.
  intros H. unfold _enforceWmBudget.
  destruct (wm_total l <=? WM_MAX_TOKENS)%Z eqn:E.
  - split; [now apply Z.leb_le | now exists 0%nat].
  - destruct (wm_removed_unprotected l 0 H) as [_ H2].
    rewrite Nat.sub_0_r in H2.
    destruct (Nat.ltb_spec 0 (wm_removed l (wm_total l) 0)) as [L | L].
    + rewrite wm_filter_unprotected by exact H. rewrite Nat.sub_0_r.
      split; [exact H2 | eauto].
    + replace (wm_removed l (wm_total l) 0) with 0%nat in H2 by lia.
      split; [exact H2 | now exists 0%nat].
Qed.

Lemma enforceWmBudget_fits_witness :
  Forall (fun p => wm_importance p <= 0.8) wm_three
  /\ (wm_total wm_three > WM_MAX_TOKENS)%Z
  /\ (wm_total (_enforceWmBudget wm_three) <= WM_MAX_TOKENS)%Z
  /\ exists k, _enforceWmBudget wm_three = skipn k wm_three.
Proof.
  assert (H : Forall (fun p => wm_importance p <= 0.8) wm_three).
  { repeat constructor; unfold Qle; simpl; lia. }
  split; [exact H |]. split; [reflexivity |].
  exact (enforceWmBudget_fits wm_three H).
Defined.

Lemma wm_filter_past l : forall i n, (n <= i)%nat -> wm_filter l i n = l.
Proof.
  induction l as [| p t IH]; intros i n H; simpl; [reflexivity |].
  replace (Nat.ltb i n) with false by (symmetry; apply Nat.ltb_ge; lia).
  simpl. f_equal. apply IH. lia.
Qed.

(** X14.  The filter of [_enforceWmBudget] compares an entry's position with
    the number of entries counted for removal.  So a protected entry at
    the head shields the unprotected entry behind it: when dropping that
    one entry would meet the budget, the loop counts it, the filter
    drops nothing, and the list stays above the budget. *)
Theorem enforceWmBudget_shielded p u rest :
  0.8 < wm_importance p ->
  wm_importance u <= 0.8 ->
  (WM_MAX_TOKENS < wm_total (p :: u :: rest))%Z ->
  (wm_total (p :: u :: rest) - wm_estimated_tokens u <= WM_MAX_TOKENS)%Z ->
  _enforceWmBudget (p :: u :: rest) = p :: u :: rest.
Proof.
  intros Hp Hu Hover Hfit. unfold _enforceWmBudget.
  destruct (wm_total (p :: u :: rest) <=? WM_MAX_TOKENS)%Z eqn:E;
    [reflexivity |].
  assert (Pp : Qlt_bool 0.8 (wm_importance p) = true)
    by now apply Qlt_bool_iff.
  assert (Pu : Qlt_bool 0.8 (wm_importance u) = false).
  { unfold Qlt_bool. apply negb_false_iff. now apply Qle_bool_iff. }
  assert (R : wm_removed (p :: u :: rest) (wm_total (p :: u :: rest)) 0
              = 1%nat).
  { cbn [wm_removed]. rewrite E, Pp, Pu.
    destruct rest as [| x t]; [reflexivity |].
    cbn [wm_removed].
    replace (_ <=? WM_MAX_TOKENS)%Z with true
      by (symmetry; now apply Z.leb_le).
    reflexivity. }
  rewrite R. cbn [Nat.ltb Nat.leb wm_filter].
  replace (Qle_bool (wm_importance p) 0.8) with false.
  2:{ symmetry. apply Qle_bool_false. now apply Qlt_not_le. }
  cbn [andb]. f_equal. f_equal. apply wm_filter_past. lia.
Qed.

Lemma enforceWmBudget_shielded_witness :
  0.8 < wm_importance wm_pinned
  /\ wm_importance wm_large <= 0.8
  /\ (WM_MAX_TOKENS < wm_total [wm_pinned; wm_large; wm_small])%Z
  /\ (wm_total [wm_pinned; wm_large; wm_small]
      - wm_estimated_tokens wm_large <= WM_MAX_TOKENS)%Z
  /\ _enforceWmBudget [wm_pinned; wm_large; wm_small]
     = [wm_pinned; wm_large; wm_small].
Proof.
  assert (Hp : 0.8 < wm_importance wm_pinned) by reflexivity.
  assert (Hu : wm_importance wm_large <= 0.8)
    by (unfold Qle; simpl; lia).
  assert (H1 : (WM_MAX_TOKENS < wm_total [wm_pinned; wm_large; wm_small])%Z)
    by reflexivity.
  assert (H2 : (wm_total [wm_pinned; wm_large; wm_small]
                - wm_estimated_tokens wm_large <= WM_MAX_TOKENS)%Z)
    by (vm_compute; discriminate).
  split; [exact Hp |]. split; [exact Hu |]. split; [exact H1 |].
  split; [exact H2 |].
  exact (enforceWmBudget_shielded wm_pinned wm_large [wm_small] Hp Hu H1 H2).
Defined.

End Index.

Lemma index_then_lookup_witness :
  ready (redis budget_world) = true
  /\ exists w' l,
       FragmentIndex_index no_services 1000 fix_note "sess-1" budget_world
       = Return tt w'
       /\ FragmentIndex_searchByKeywords no_services ["sentinel"%string] w'
          = Return l w'
       /\ In (id fix_note) l.
Proof.
  split; [reflexivity |].
  destruct (index_then_lookup no_services 1000 fix_note "sess-1" budget_world eq_refl)
    as (w' & E & _ & Hk & _).
  destruct (Hk "sentinel"%string (or_introl eq_refl)) as (l & El & Hl).
  exists w', l. repeat split; assumption.
Defined.

(** ** Search and recall *)

Section Search.
Variable O : Oracles.
Local Open Scope list_scope.

Lemma seen_set_ids seen f :
  map (fun h => id (row h)) (seen_set seen f)
  = if mem (id (row f)) (map (fun h => id (row h)) seen)
    then map (fun h => id (row h)) seen
    else map (fun h => id (row h)) seen ++ [id (row f)].
Proof.
  induction seen as [| e t IH]; [reflexivity |].
  cbn [seen_set map]. unfold mem. cbn [existsb]. fold (mem (id (row f))).
  rewrite (String.eqb_sym (id (row f)) (id (row e))).
  destruct (String.eqb_spec (id (row e)) (id (row f))) as [E | N].
  - cbn [orb map]. f_equal. now destruct (_ && _)%bool.
  - cbn [orb map]. rewrite IH. unfold mem.
    now destruct (existsb _ _).
Qed.

Lemma seen_set_In seen f x : In x (seen_set seen f) -> x = f \/ In x seen.
Proof.
  induction seen as [| e t IH]; simpl.
  - intros [<- | []]. now left.
  - destruct (String.eqb (id (row e)) (id (row f))).
    + destruct (_ && _)%bool; intros [<- | H]; auto.
    + intros [<- | H]; [auto |]. apply IH in H. tauto.
Qed.

Lemma seen_fold l : forall acc,
  NoDup (map (fun h => id (row h)) acc) ->
  NoDup (map (fun h => id (row h)) (fold_left seen_set l acc))
  /\ (forall i, In i (map (fun h => id (row h)) (fold_left seen_set l acc))
                <-> In i (map (fun h => id (row h)) acc)
                    \/ In i (map (fun h => id (row h)) l))
  /\ (forall x, In x (fold_left seen_set l acc) -> In x acc \/ In x l).
Proof.
  induction l as [| f t IH]; intros acc ND; simpl.
  - split; [exact ND |]. split; [intros; tauto | auto].
  - assert (ND' : NoDup (map (fun h => id (row h)) (seen_set acc f))).
    { rewrite seen_set_ids.
      destruct (mem _ _) eqn:E; [exact ND |].
      apply NoDup_snoc; [exact ND |]. intros X. apply mem_In in X.
      congruence. }
    destruct (IH _ ND') as (H1 & H2 & H3).
    split; [exact H1 |]. split.
    + intros i. rewrite H2, seen_set_ids.
      destruct (mem _ _) eqn:E.
      * apply mem_In in E. split; [tauto |].
        intros [H | [<- | H]]; auto.
      * rewrite in_app_iff. simpl. tauto.
    + intros x Hx. apply H3 in Hx. destruct Hx as [Hx | Hx]; [| tauto].
      apply seen_set_In in Hx. destruct Hx as [-> | Hx]; auto.
Qed.

Lemma rank_sort_perm now n (l : list Hit) : Permutation (rank_sort now n l) l.
Proof.
  unfold rank_sort. destruct (_ <=? _)%Z; apply sort_by_perm.
Qed.

Lemma deduplicate_distinct_lemma now l n :
  NoDup (map (fun h => id (row h)) (_deduplicate now l n))
  /\ (forall i, In i (map (fun h => id (row h)) (_deduplicate now l n))
                <-> In i (map (fun h => id (row h)) l))
  /\ incl (_deduplicate now l n) l.
Proof.
  unfold _deduplicate.
  destruct (seen_fold l [] (NoDup_nil _)) as (H1 & H2 & H3).
  pose proof (rank_sort_perm now n (fold_left seen_set l [])) as P.
  pose proof (Permutation_map (fun h => id (row h)) P) as Pm.
  split; [| split].
  - eapply Permutation_NoDup; [apply Permutation_sym, Pm | exact H1].
  - intros i. split; intros H.
    + eapply Permutation_in in H; [| exact Pm]. apply H2 in H. simpl in H.
      tauto.
    + eapply Permutation_in; [apply Permutation_sym, Pm |]. apply H2.
      now right.
  - intros x Hx. eapply Permutation_in in Hx; [| exact P].
    apply H3 in Hx. simpl in Hx. tauto.
Qed.

(** X15.  [_deduplicate] returns every id of its input once, and no fragment
    that was not in its input. *)
Theorem deduplicate_distinct now l n :
  NoDup (map (fun h => id (row h)) (_deduplicate now l n))
  /\ (forall i, In i (map (fun h => id (row h)) (_deduplicate now l n))
                <-> In i (map (fun h => id (row h)) l))
  /\ incl (_deduplicate now l n) l.
Proof. apply deduplicate_distinct_lemma. Qed.

Lemma visible_default r :
  visible "default" r = true -> agent_id r = "default"%string.
Proof.
  unfold visible. replace (safeAgent "default") with "default"%string
    by reflexivity.
  simpl. rewrite !orb_false_r, orb_diag. apply String.eqb_eq.
Qed.

Lemma In_trim cb l : forall used x, In x (trim_loop cb used l) -> In x l.
Proof.
  induction l as [| f t IH]; intros used x; simpl; [tauto |].
  destruct (Qlt_bool _ _); simpl; [tauto |].
  intros [<- | H]; [now left | right; eauto].
Qed.

(** The stored rows that the policy shows to [default]. *)
Lemma reads_searchL2 q ids :
  reads (_searchL2 q ids)
    (fun w l => Forall (fun h => In (row h) (fragments (db w))
                                 /\ agent_id (row h) = "default"%string) l).
Proof.
  intros w. unfold _searchL2.
  set (opts := mkSearchOptions _ _ _ _ _).
  assert (H1 : exists a, match q_keywords q with
                         | [] => ret []
                         | _ :: _ => FragmentStore_searchByKeywords
                                       (q_keywords q) opts
                         end w = Return a w
                         /\ Forall (fun r => In r (fragments (db w))
                                             /\ visible "" r = true) a).
  { destruct (q_keywords q) as [| k ks] eqn:K.
    - eexists. split; [reflexivity | constructor].
    - apply (reads_searchByKeywords (k :: ks) opts w). }
  destruct H1 as (a & E1 & F1).
  assert (H1' : (match q_keywords q with
                 | [] => ret []
                 | ks => FragmentStore_searchByKeywords ks opts
                 end) w = Return a w).
  { destruct (q_keywords q); exact E1. }
  set (missing := filter (fun i => negb (mem i (map id a))) ids).
  assert (H2 : exists b, match missing with
                         | [] => ret []
                         | _ :: _ => FragmentStore_getByIds missing "default"
                         end w = Return b w
                         /\ Forall (fun r => In r (fragments (db w))
                                             /\ visible "default" r = true) b).
  { destruct missing as [| m ms] eqn:Em.
    - eexists. split; [reflexivity | constructor].
    - apply (reads_getByIds (m :: ms) "default" w). }
  destruct H2 as (b & E2 & F2).
  exists (map plain (a ++ b)). split.
  { rewrite (bind_Return _ _ _ _ _ _ _ H1').
    fold missing. rewrite (bind_Return _ _ _ _ _ _ _ E2). reflexivity. }
  apply Forall_forall. intros h Hh. apply in_map_iff in Hh.
  destruct Hh as (r & <- & Hr). simpl. apply in_app_iff in Hr.
  rewrite Forall_forall in F1, F2.
  destruct Hr as [Hr | Hr].
  - destruct (F1 r Hr) as [Hin V]. split; [exact Hin |].
    apply visible_default. change (visible (Sor "" "default") r = true).
    now rewrite visible_Sor.
  - destruct (F2 r Hr) as [Hin V]. split; [exact Hin |].
    now apply visible_default.
Qed.

Lemma reads_searchL3 text :
  reads (_searchL3 O text)
    (fun w l => Forall (fun h => In (row h) (fragments (db w))
                                 /\ agent_id (row h) = "default"%string) l).
Proof.
  intros w. unfold _searchL3.
  destruct (generateEmbedding O text) as [vec |].
  - destruct (reads_searchBySemantic O vec 10 0.3 "default" w)
      as (l & E & F).
    exists l. split; [exact E |].
    apply Forall_forall. intros h Hh. rewrite Forall_forall in F.
    destruct (F (row h) (in_map row _ _ Hh)) as [Hin V].
    split; [exact Hin | now apply visible_default].
  - eexists. split; [reflexivity | constructor].
Qed.

Lemma reads_tryHotCache ids :
  reads (_tryHotCache ids)
    (fun w l => Forall (fun h => exists i, frag_hot (redis w) i = Some h) l).
Proof.
  intros w. eexists. split; [reflexivity |].
  apply Forall_forall. intros h Hh. apply in_flat_map in Hh.
  destruct Hh as (i & _ & Hh).
  destruct (ready (redis w)); [| contradiction].
  destruct (frag_hot (redis w) i) as [c |] eqn:E; [| contradiction].
  destruct (content (row c)); [contradiction |].
  destruct Hh as [<- | []]. eauto.
Qed.

Lemma reads_searchL1 q : reads (_searchL1 O q) (fun _ _ => True).
Proof.
  intros w. unfold _searchL1, FragmentIndex_searchByKeywords,
    FragmentIndex_searchByTopic, FragmentIndex_searchByType,
    FragmentIndex_getRecent, bind, getRedis, ret.
  destruct (q_keywords q) as [| k ks]; destruct (q_topic q);
    destruct (q_type q); destruct (ready (redis w)); simpl;
    repeat match goal with
           | |- context [if ?b then _ else _] => destruct b
           end;
    eexists; split; try reflexivity; exact I.
Qed.

Lemma cacheFragments_db l : forall w,
  exists w', _cacheFragments l w = Return tt w' /\ db w' = db w.
Proof.
  induction l as [| h t IH]; intros w; [now exists w |].
  cbn [_cacheFragments forM].
  unfold _cacheFragments in IH.
  destruct (IH (final (FragmentIndex_cacheFragment h w))) as (w' & E & D).
  exists w'. split; [| exact D].
  unfold bind at 1.
  change (FragmentIndex_cacheFragment h w)
    with (Return tt (final (FragmentIndex_cacheFragment h w))).
  exact E.
Qed.

Lemma Forall2_refl_access counted l : Forall2 (access_only counted) l l.
Proof. induction l; constructor; [now left | assumption]. Qed.

(** What [incrementAccess] leaves of the tables. *)
Lemma incrementAccess_rows now l a w :
  exists w',
    FragmentStore_incrementAccess now l a w = Return tt w'
    /\ Forall2 (access_only (fun r => visible a r = true /\ In (id r) l))
               (fragments (db w)) (fragments (db w'))
    /\ fragment_links (db w') = fragment_links (db w)
    /\ fragment_versions (db w') = fragment_versions (db w)
    /\ redis w' = redis w.
Proof.
  destruct (incrementAccess_run now l a w) as [E | E]; rewrite E.
  - exists w. split; [reflexivity |].
    split; [apply Forall2_refl_access | repeat split].
  - eexists. split; [reflexivity |]. cbn [db redis fragments sql_update
      fragment_links fragment_versions].
    split; [| repeat split].
    induction (fragments (db w)) as [| r t IH]; cbn [map]; constructor;
      [| exact IH].
    destruct (visible a r && mem (id r) l)%bool eqn:V; [| now left].
    apply andb_true_iff in V. destruct V as [V1 V2]. right.
    split; [split; [exact V1 | now apply mem_In] | eauto].
Qed.

(** The two calls that [search] starts on the fragments it returns. *)
Lemma search_tail now (trimmed : list Hit) w :
  exists w',
    search_started now trimmed w = Return tt w'
    /\ Forall2 (access_only
                  (fun r => agent_id r = "default"%string
                            /\ In (id r) (map (fun f => id (row f)) trimmed)))
               (fragments (db w)) (fragments (db w'))
    /\ fragment_links (db w') = fragment_links (db w)
    /\ fragment_versions (db w') = fragment_versions (db w).
Proof.
  unfold search_started. destruct trimmed as [| h t].
  - exists w. split; [reflexivity |].
    split; [apply Forall2_refl_access | split; reflexivity].
  - set (l := h :: t).
    destruct (incrementAccess_rows now (map (fun f => id (row f)) l)
                "default" w) as (w1 & E1 & F & L & V & _).
    destruct (cacheFragments_db l w1) as (w' & E & D).
    exists w'. split; [| rewrite D; split; [| split; assumption]].
    + rewrite (bind_Return _ _ _ _ _ _ _ E1). exact E.
    + eapply Forall2_impl; [| exact F].
      intros r r' [H | [[H1 H2] H3]]; [now left | right].
      split; [split; [now apply visible_default | exact H2] | exact H3].
Qed.

(** Up to its [return], [search] only reads: what it returns, and where
    each hit comes from. *)
Lemma answer_sources now q w :
  exists res,
    search_answer O now q w = Return res w
    /\ NoDup (map (fun h => id (row h)) (res_fragments res))
    /\ Forall (fun h => (exists i, frag_hot (redis w) i = Some h)
                        \/ In (row h) (fragments (db w))
                           /\ agent_id (row h) = "default"%string)
              (res_fragments res).
Proof.
  destruct (reads_searchL1 q w) as (l1 & E1 & _).
  assert (Hc : exists cached,
             match l1 with [] => ret [] | _ :: _ => _tryHotCache l1 end w
             = Return cached w
             /\ Forall (fun h => exists i, frag_hot (redis w) i = Some h)
                       cached).
  { destruct l1 as [| i t].
    - eexists. split; [reflexivity | constructor].
    - apply (reads_tryHotCache (i :: t) w). }
  destruct Hc as (cached & E2 & F2).
  assert (H2 : exists l2,
             (if Nat.ltb (List.length cached) 3
              then _searchL2 q l1 else ret []) w = Return l2 w
             /\ Forall (fun h => In (row h) (fragments (db w))
                                 /\ agent_id (row h) = "default"%string) l2).
  { destruct (Nat.ltb _ 3).
    - apply reads_searchL2.
    - eexists. split; [reflexivity | constructor]. }
  destruct H2 as (l2 & E3 & F3).
  assert (H3 : exists l3,
             (if (Nat.ltb (List.length (cached ++ l2)) 3
                  && match q_text q with [] => false | _ => true end
                  && OPENAI_API_KEY O)%bool
              then _searchL3 O (q_text q) else ret []) w = Return l3 w
             /\ Forall (fun h => In (row h) (fragments (db w))
                                 /\ agent_id (row h) = "default"%string) l3).
  { destruct (_ && _)%bool.
    - apply reads_searchL3.
    - eexists. split; [reflexivity | constructor]. }
  destruct H3 as (l3 & E4 & F4).
  set (unique := _deduplicate now ((cached ++ l2) ++ l3) (q_fragmentCount q)).
  set (trimmed := _trimToTokenBudget unique (Qor (q_tokenBudget q) 1000)).
  eexists. split.
  { unfold search_answer. cbv zeta.
    rewrite (bind_Return _ _ _ _ _ _ _ E1).
    rewrite (bind_Return _ _ _ _ _ _ _ E2).
    rewrite (bind_Return _ _ _ _ _ _ _ E3).
    rewrite (bind_Return _ _ _ _ _ _ _ E4).
    fold unique. fold trimmed. reflexivity. }
  cbn [res_fragments].
  destruct (deduplicate_distinct_lemma now ((cached ++ l2) ++ l3)
              (q_fragmentCount q)) as (D1 & _ & D3).
  fold unique in D1, D3.
  destruct (trim_loop_spec
              (Qor (q_tokenBudget q) 1000 * inject_Z CHARS_PER_TOKEN)
              unique 0) as (rest & Hl & _).
  fold (_trimToTokenBudget unique (Qor (q_tokenBudget q) 1000)) in Hl.
  fold trimmed in Hl.
  split.
  - rewrite Hl, map_app in D1. now apply NoDup_app_remove_r in D1.
  - apply Forall_forall. intros h Hh.
    assert (Hu : In h unique) by (rewrite Hl; apply in_or_app; now left).
    apply D3 in Hu. rewrite Forall_forall in F2, F3, F4.
    apply in_app_iff in Hu. destruct Hu as [Hu | Hu]; [| right; auto].
    apply in_app_iff in Hu. destruct Hu as [Hu | Hu]; [left | right]; auto.
Qed.

(** What [search] returns, where each hit comes from, and what the calls
    it starts leave of the tables. *)
Lemma search_sources now q w :
  exists res w',
    search_answer O now q w = Return res w
    /\ FragmentSearch_search O now q w = Return res w'
    /\ NoDup (map (fun h => id (row h)) (res_fragments res))
    /\ Forall (fun h => (exists i, frag_hot (redis w) i = Some h)
                        \/ In (row h) (fragments (db w))
                           /\ agent_id (row h) = "default"%string)
              (res_fragments res)
    /\ Forall2 (access_only
                  (fun r => agent_id r = "default"%string
                            /\ In (id r) (map (fun h => id (row h))
                                              (res_fragments res))))
               (fragments (db w)) (fragments (db w'))
    /\ fragment_links (db w') = fragment_links (db w)
    /\ fragment_versions (db w') = fragment_versions (db w).
Proof.
  destruct (answer_sources now q w) as (res & Ea & ND & F).
  destruct (search_tail now (res_fragments res) w) as (w' & Et & D).
  exists res, w'. split; [exact Ea |]. split.
  { unfold FragmentSearch_search.
    rewrite (bind_Return _ _ _ _ _ _ _ Ea).
    rewrite (bind_Return _ _ _ _ _ _ _ Et). reflexivity. }
  split; [exact ND |]. split; [exact F | exact D].
Qed.



Lemma annotate_fields now h :
  row (annotate now h) = row h
  /\ hit_relation (annotate now h) = hit_relation h.
Proof. unfold annotate. destruct (_ <=? _)%Z; split; reflexivity. Qed.

(** What [recall] does after the search: with link expansion on and a
    fragment found it throws; otherwise it returns the fragments of the
    search, ranked, annotated and filtered. *)
Lemma recall_sources now p w :
  exists res0 w1,
    FragmentSearch_search O now (recall_query p) w = Return res0 w1
    /\ NoDup (map (fun h => id (row h)) (res_fragments res0))
    /\ Forall (fun h => (exists i, frag_hot (redis w) i = Some h)
                        \/ In (row h) (fragments (db w))
                           /\ agent_id (row h) = "default"%string)
              (res_fragments res0)
    /\ if (match rp_includeLinks p with Some false => false | _ => true end
           && match res_fragments res0 with [] => false | _ => true end)%bool
       then MemoryManager_recall O now p w = Throw w1
       else exists res,
              MemoryManager_recall O now p w = Return res w1
              /\ res_count res = List.length (res_fragments res)
              /\ NoDup (map (fun h => id (row h)) (res_fragments res))
              /\ (forall h, In h (res_fragments res) ->
                    exists g, In g (res_fragments res0) /\ row g = row h).
Proof.
  destruct (search_sources now (recall_query p) w)
    as (res0 & w1 & _ & E1 & ND & F & _).
  exists res0, w1. split; [exact E1 |]. split; [exact ND |].
  split; [exact F |].
  unfold MemoryManager_recall. cbv zeta.
  change (mkQuery (rp_keywords p) (rp_topic p) (rp_type p) (rp_text p)
            (Qor (rp_tokenBudget p) 1000) (rp_minImportance p)
            (rp_fragmentCount p)) with (recall_query p).
  rewrite (bind_Return _ _ _ _ _ _ _ E1).
  assert (Hfrs : forall frs,
             frs = res_fragments res0 ->
             exists res,
               (fragments <- ret frs ;;
                ret (mkSearchResult
                       (match rp_threshold p with
                        | Some th =>
                            filter (fun f => match hit_similarity f with
                                             | None => true
                                             | Some s => Qle_bool th s
                                             end)
                              (map (annotate now)
                                 (rank_sort now (rp_fragmentCount p)
                                    fragments))
                        | None =>
                            map (annotate now)
                              (rank_sort now (rp_fragmentCount p) fragments)
                        end)
                       (res_totalTokens res0) (res_searchPath res0)
                       (List.length
                          (match rp_threshold p with
                           | Some th =>
                               filter (fun f => match hit_similarity f with
                                                | None => true
                                                | Some s => Qle_bool th s
                                                end)
                                 (map (annotate now)
                                    (rank_sort now (rp_fragmentCount p)
                                       fragments))
                           | None =>
                               map (annotate now)
                                 (rank_sort now (rp_fragmentCount p)
                                    fragments)
                           end)))) w1 = Return res w1
               /\ res_count res = List.length (res_fragments res)
               /\ NoDup (map (fun h => id (row h)) (res_fragments res))
               /\ (forall h, In h (res_fragments res) ->
                     exists g, In g (res_fragments res0) /\ row g = row h)).
  { intros frs ->. eexists. split; [reflexivity |].
    cbn [res_fragments res_count]. split; [reflexivity |].
    set (sorted := rank_sort now (rp_fragmentCount p) (res_fragments res0)).
    set (noted := map (annotate now) sorted).
    assert (Hn : NoDup (map (fun h => id (row h)) noted)).
    { unfold noted. rewrite map_map.
      rewrite (map_ext _ (fun h => id (row h)))
        by (intros h; now rewrite (proj1 (annotate_fields now h))).
      eapply Permutation_NoDup; [| exact ND].
      apply Permutation_map, Permutation_sym, rank_sort_perm. }
    assert (Fn : forall h, In h noted ->
                   exists g, In g (res_fragments res0) /\ row g = row h).
    { intros h Hh. unfold noted in Hh.
      apply in_map_iff in Hh. destruct Hh as (g & <- & Hg).
      exists g. split; [| symmetry; apply annotate_fields].
      apply (Permutation_in _ (rank_sort_perm now _ _)) in Hg. exact Hg. }
    destruct (rp_threshold p) as [th |]; [| split; assumption].
    split.
    - clear Fn. induction noted as [| x t IH]; simpl; [constructor |].
      simpl in Hn. inversion Hn; subst.
      destruct (match hit_similarity x with
                | Some s => Qle_bool th s | None => true end);
        simpl; [| now apply IH].
      constructor; [| now apply IH].
      intros X. apply in_map_iff in X. destruct X as (y & Ey & Hy).
      apply filter_In in Hy. apply H1. apply in_map_iff. exists y. tauto.
    - intros h Hh. apply filter_In in Hh. apply Fn. tauto. }
  destruct (res_fragments res0) as [| h0 t0] eqn:Er.
  - rewrite andb_false_r. cbn [List.length Nat.eqb negb].
    rewrite andb_false_r. now apply Hfrs.
  - cbn [List.length Nat.eqb negb]. rewrite !andb_true_r.
    destruct (match rp_includeLinks p with
              | Some false => false | _ => true end).
    + cbn [map].
      rewrite (bind_Throw _ _ _ _ _ _
                 (bind_Throw _ _ _ _ _ _
                    (getLinkedFragments_rejected _ _ _ _ _))).
      reflexivity.
    + now apply Hfrs.
Qed.


(** X19.  The search behind [recall] does not use the caller's agent id, and
    the link expansion never completes: with the expansion on, which is
    the default, [recall] throws as soon as the search has found a
    fragment, and whenever [recall] returns, each fragment it returns
    shows a row that [default] owns or that was in the hot cache.  A
    fragment of the caller's own is returned only if the hot cache held
    it, whoever the caller is. *)
Theorem recall_answers_as_default now p w :
  (forall res0 w1,
      FragmentSearch_search O now (recall_query p) w = Return res0 w1 ->
      res_fragments res0 <> [] ->
      rp_includeLinks p <> Some false ->
      MemoryManager_recall O now p w = Throw w1)
  /\ (forall res w',
         MemoryManager_recall O now p w = Return res w' ->
         (res_fragments res <> [] -> rp_includeLinks p = Some false)
         /\ Forall (fun h => (exists i c, frag_hot (redis w) i = Some c
                                          /\ row c = row h)
                             \/ In (row h) (fragments (db w))
                                /\ agent_id (row h) = "default"%string)
                   (res_fragments res)).
Proof.
  destruct (recall_sources now p w) as (res0 & w1 & E0 & _ & F & H).
  split.
  - intros res0' w1' E0' Hne Hl. rewrite E0 in E0'.
    injection E0' as <- <-.
    destruct (res_fragments res0); [congruence |].
    destruct (rp_includeLinks p) as [[|] |]; cbn [andb] in H;
      congruence.
  - intros res w' E.
    destruct (_ && _)%bool eqn:C; [congruence |].
    destruct H as (res' & E' & _ & _ & Hsub).
    rewrite E' in E. injection E as <- <-. split.
    + intros Hne.
      destruct (res_fragments res') as [| h t] eqn:Er; [congruence |].
      destruct (Hsub h (or_introl eq_refl)) as (g & Hg & _).
      destruct (res_fragments res0); [destruct Hg |].
      rewrite andb_true_r in C.
      now destruct (rp_includeLinks p) as [[|] |].
    + apply Forall_forall. intros h Hh.
      destruct (Hsub h Hh) as (g & Hg & Eg).
      rewrite Forall_forall in F. rewrite <- Eg.
      destruct (F g Hg) as [(i & Hi) | Hd]; [left; eauto | now right].
Qed.

End Search.


(** The same call without [includeLinks]: the search finds the note and
    the link expansion throws. *)
Lemma recall_answers_as_default_witness :
  exists res0 w1,
    FragmentSearch_search no_services 1000
      (recall_query (recall_noauth None)) budget_world = Return res0 w1
    /\ map (fun h => id (row h)) (res_fragments res0) = ["frag-ko"%string]
    /\ MemoryManager_recall no_services 1000 (recall_noauth None)
         budget_world = Throw w1.
Proof.
  destruct (FragmentSearch_search no_services 1000
              (recall_query (recall_noauth None)) budget_world)
    as [res0 w1 | w1] eqn:E; [| vm_compute in E; discriminate].
  exists res0, w1. split; [reflexivity |].
  assert (Hids : map (fun h => id (row h)) (res_fragments res0)
                 = ["frag-ko"%string]).
  { vm_compute in E. injection E as <- <-. reflexivity. }
  split; [exact Hids |].
  apply (proj1 (recall_answers_as_default no_services 1000
                  (recall_noauth None) budget_world) res0 w1 E).
  - intros X. rewrite X in Hids. discriminate.
  - discriminate.
Defined.

(** ** FragmentFactory *)

Section Factory.
Variable O : Oracles.
Local Open Scope nat_scope.
Local Open Scope list_scope.

(** X20.  After [_redactPII] no position of the text starts a match of the
    key, address or phone pattern, and every match of the password
    pattern that is left is a key followed by the marker, which the
    replacer rewrites to itself. *)
Theorem redactPII_leaves_no_match s :
  free re_api_key (_redactPII s)
  /\ free re_email (_redactPII s)
  /\ free re_phone (_redactPII s)
  /\ selfrep (_redactPII s).
Proof.
  unfold _redactPII. split; [| split; [| split]].
  - apply free_after_other; try reflexivity;
      [now apply inert_check_sound |].
    apply free_after_password; try reflexivity;
      [now apply inert_check_sound |].
    apply free_after_other; try reflexivity;
      [now apply inert_check_sound |].
    apply free_after_self; try reflexivity. now apply inert_check_sound.
  - apply free_after_other; try reflexivity;
      [now apply inert_check_sound |].
    apply free_after_password; try reflexivity;
      [now apply inert_check_sound |].
    apply free_after_self; try reflexivity. now apply inert_check_sound.
  - apply free_after_self; try reflexivity. now apply inert_check_sound.
  - eapply phone_scan_selfrep; [now apply replace_Scan |].
    eapply password_scan_selfrep. now apply replace_Scan.
Qed.

Lemma truncate_length c : List.length (truncate c) <= 303.
Proof.
  unfold truncate, MAX_FRAGMENT_LENGTH.
  destruct (Nat.ltb_spec 300 (List.length c)) as [L | L]; [| lia].
  rewrite length_app, length_firstn.
  change (List.length (js "...")) with 3. lia.
Qed.

(** X21.  [create] throws exactly when the content is empty or blank.
    Otherwise the fragment carries the given id and the trimmed,
    redacted content, cut after 300 code units with three dots added:
    never more than 303 code units. *)
Theorem create_content newId p :
  match FragmentFactory_create O newId p with
  | None => trim (p_content p) = []
  | Some f =>
      trim (p_content p) <> []
      /\ id f = newId
      /\ content f = truncate (_redactPII (trim (p_content p)))
      /\ List.length (content f) <= 303
      /\ (List.length (_redactPII (trim (p_content p))) <= 300 ->
          content f = _redactPII (trim (p_content p)))
  end.
Proof.
  unfold FragmentFactory_create.
  destruct (trim (p_content p)) as [| c t] eqn:E; [reflexivity |].
  cbn [id content]. split; [discriminate |]. split; [reflexivity |].
  split; [reflexivity |]. split; [apply truncate_length |].
  intros L. unfold truncate, MAX_FRAGMENT_LENGTH.
  destruct (Nat.ltb_spec 300 (List.length (_redactPII (c :: t)))); [lia |].
  reflexivity.
Qed.

(** X22.  A fragment created without an importance takes the weight of its
    type, and with it a tier that is never cold: preferences, errors and
    decisions are permanent, procedures hot, facts and relations warm. *)
Theorem create_default_tier newId p f :
  FragmentFactory_create O newId p = Some f ->
  p_importance p = None ->
  (importance f == IMPORTANCE_WEIGHT (type f))%Q
  /\ ttl_tier f = match type f with
                  | preference | error | decision => permanent
                  | procedure => hot
                  | fact | relation => warm
                  end.
Proof.
  unfold FragmentFactory_create. intros H Hi.
  destruct (trim (p_content p)); [discriminate |].
  injection H as <-. cbn [importance type ttl_tier]. rewrite Hi.
  destruct (p_type p) as [[] |]; split; reflexivity.
Qed.

End Factory.

Lemma create_default_tier_witness :
  exists f,
    FragmentFactory_create no_services "frag-new" alice_remember = Some f
    /\ p_importance alice_remember = None
    /\ (importance f == IMPORTANCE_WEIGHT (type f))%Q
    /\ ttl_tier f = warm.
Proof.
  eexists. split; [vm_compute; reflexivity |]. split; [reflexivity |].
  apply (create_default_tier no_services "frag-new" alice_remember);
    [vm_compute; reflexivity | reflexivity].
Defined.

(** ** Redaction and truncation *)

Section Truncation.
Variable O : Oracles.
Local Open Scope nat_scope.
Local Open Scope list_scope.

Lemma first_in_alphabet r : forall c,
  first_chars r c = true -> alphabet r c = true.
Proof.
  induction r as [p | r1 IH1 r2 IH2 | r1 IH1 r2 IH2 | lo hi p | r1 IH1];
    cbn [first_chars alphabet]; intros c H; auto.
  - apply orb_true_iff in H. apply orb_true_iff.
    destruct H as [H | H]; [left; auto |].
    apply andb_true_iff in H. right. apply IH2. tauto.
  - apply orb_true_iff in H. apply orb_true_iff.
    destruct H as [H | H]; auto.
Qed.

Lemma free_outside r d :
  nullable r = false ->
  (forall c, In c d -> alphabet r c = false) -> free r d.
Proof.
  intros N H. induction d as [| c t IH]; cbn [free]; [exact I |].
  split.
  - apply exec_first; [| exact N].
    destruct (first_chars r c) eqn:F; [| reflexivity].
    apply first_in_alphabet in F. rewrite H in F by now left. discriminate.
  - apply IH. intros x Hx. apply H. now right.
Qed.

(** Cutting a text and closing it with characters that the pattern
    cannot read brings no match. *)
Lemma free_cut r a q d :
  nullable r = false -> d <> [] ->
  (forall c, In c d -> alphabet r c = false) ->
  free r (a ++ q) -> free r (a ++ d).
Proof.
  intros N Hd Hout F. apply free_app. split; [| now apply free_outside].
  intros a1 a2 -> Hne.
  destruct (exec r (a2 ++ d)) as [x |] eqn:E; [| reflexivity].
  exfalso.
  assert (St : stops (alphabet r) d).
  { destruct d as [| c t]; [congruence |]. apply Hout. now left. }
  apply (exec_local r a2 d q St); [congruence |].
  apply free_app in F. destruct F as [F _]. now apply (F a1 a2).
Qed.

Lemma last_of_snoc A (a l m : list A) c :
  l <> [] -> a ++ l = m ++ [c] -> In c l.
Proof.
  intros Hl E. apply (f_equal (@rev A)) in E.
  rewrite !rev_app_distr in E. cbn in E.
  destruct (rev l) as [| x t] eqn:R.
  - apply (f_equal (@rev A)) in R. rewrite rev_involutive in R. cbn in R.
    congruence.
  - cbn in E. injection E as <- _. apply in_rev. rewrite R. now left.
Qed.

(** A match of the address pattern ends with a letter. *)
Lemma Lang_email_last m :
  Lang re_email m -> exists m' c, m = m' ++ [c] /\ letter c = true.
Proof.
  unfold re_email. cbn [Lang].
  intros (m1 & x1 & -> & _ & m2 & x2 & -> & _ & m3 & x3 & -> & _
          & m4 & m5 & -> & _ & Hall & Hlen & _).
  destruct (rev m5) as [| c t] eqn:R.
  - apply (f_equal (@rev N)) in R. rewrite rev_involutive in R. cbn in R.
    subst m5. cbn in Hlen. lia.
  - apply (f_equal (@rev N)) in R. rewrite rev_involutive in R. cbn in R.
    subst m5. exists (m1 ++ m2 ++ m3 ++ m4 ++ rev t), c. split.
    + now rewrite <- !app_assoc.
    + rewrite forallb_app in Hall. apply andb_true_iff in Hall.
      destruct Hall as [_ Hc]. cbn in Hc. now rewrite andb_true_r in Hc.
Qed.

Lemma free_email_cut a q :
  free re_email (a ++ q) -> free re_email (a ++ js "...").
Proof.
  intros F. apply free_app. split.
  2:{ cbn [js map list_ascii_of_string free].
      repeat split; vm_compute; reflexivity. }
  intros a1 a2 -> Hne.
  destruct (exec re_email (a2 ++ js "...")) as [[n cap] |] eqn:E;
    [| reflexivity].
  exfalso.
  destruct (exec_sound _ _ _ _ E) as (m & rest & Es & _ & L).
  assert (Fq : exec re_email (a2 ++ q) = None).
  { apply free_app in F. destruct F as [F _]. now apply (F a1 a2). }
  apply app_eq_app in Es. destruct Es as (l & [[E1 E2] | [E1 E2]]).
  - apply (exec_complete re_email m (l ++ q) L).
    rewrite app_assoc, <- E1. exact Fq.
  - destruct l as [| x l'].
    + rewrite app_nil_r in E1. subst m.
      apply (exec_complete re_email a2 q L). exact Fq.
    + destruct (Lang_email_last m L) as (m' & c & Em & Hc).
      rewrite Em in E1. symmetry in E1.
      apply last_of_snoc in E1; [| discriminate].
      assert (Hd : In c (js "...")) by (rewrite E2; apply in_or_app; now left).
      cbn in Hd. destruct Hd as [<- | [<- | [<- | []]]]; discriminate.
Qed.

(** X23.  The content of a fragment that the factory builds holds no match of
    the key, address or phone pattern at any position, also when it was
    cut after 300 code units and closed with three dots. *)
Theorem create_content_has_no_match newId p f :
  FragmentFactory_create O newId p = Some f ->
  free re_api_key (content f) /\ free re_email (content f)
  /\ free re_phone (content f).
Proof.
  unfold FragmentFactory_create. intros H.
  destruct (trim (p_content p)) as [| c0 t0]; [discriminate |].
  injection H as <-. cbn [content].
  set (red := _redactPII (c0 :: t0)).
  assert (Fk : free re_api_key red).
  { unfold red, _redactPII.
    apply free_after_other; try reflexivity;
      [now apply inert_check_sound |].
    apply free_after_password; try reflexivity;
      [now apply inert_check_sound |].
    apply free_after_other; try reflexivity;
      [now apply inert_check_sound |].
    apply free_after_self; try reflexivity. now apply inert_check_sound. }
  assert (Fe : free re_email red).
  { unfold red, _redactPII.
    apply free_after_other; try reflexivity;
      [now apply inert_check_sound |].
    apply free_after_password; try reflexivity;
      [now apply inert_check_sound |].
    apply free_after_self; try reflexivity. now apply inert_check_sound. }
  assert (Fp : free re_phone red).
  { unfold red, _redactPII.
    apply free_after_self; try reflexivity. now apply inert_check_sound. }
  unfold truncate. destruct (Nat.ltb _ _); [| auto].
  rewrite <- (firstn_skipn MAX_FRAGMENT_LENGTH red) in Fk, Fe, Fp.
  assert (Dots : forall c, In c (js "...") -> c = 46%N).
  { intros c Hc. cbn in Hc. intuition. }
  split; [| split].
  - eapply free_cut; [reflexivity | discriminate | | exact Fk].
    intros c Hc. rewrite (Dots c Hc). reflexivity.
  - eapply free_email_cut. exact Fe.
  - eapply free_cut; [reflexivity | discriminate | | exact Fp].
    intros c Hc. rewrite (Dots c Hc). reflexivity.
Qed.

End Truncation.

Lemma create_content_has_no_match_witness :
  exists f,
    FragmentFactory_create no_services "frag-new" mail_params = Some f
    /\ content f = js "Write to [REDACTED_EMAIL] for access."
    /\ free re_api_key (content f) /\ free re_email (content f)
    /\ free re_phone (content f).
Proof.
  eexists. split; [vm_compute; reflexivity |]. split; [reflexivity |].
  apply (create_content_has_no_match no_services "frag-new" mail_params).
  vm_compute. reflexivity.
Defined.

(** ** MemoryManager *)

Section Manager.
Variable O : Oracles.
Local Open Scope list_scope.

Lemma upsert_has f t rel l : existsb (link_is f t) (upsert f t rel l) = true.
Proof.
  unfold upsert. destruct (existsb (link_is f t) l) eqn:E.
  - apply existsb_exists in E. destruct E as (x & Hx & Hl).
    apply existsb_exists. exists (mkLink f t rel). split.
    + apply in_map_iff. exists x. now rewrite Hl.
    + unfold link_is. simpl. now rewrite !String.eqb_refl.
  - rewrite existsb_app. simpl. unfold link_is at 2. simpl.
    rewrite !String.eqb_refl. simpl. apply orb_true_r.
Qed.

Lemma links_archive now r a d :
  fragment_links (archive_db now r a d) = fragment_links d.
Proof. unfold archive_db. now destruct (existsb _ _). Qed.


Lemma delete_spares r frag a d :
  NoDup (map id (fragments d)) ->
  In r (fragments d) -> In frag (fragments d) ->
  ttl_tier r = permanent -> ttl_tier frag <> permanent ->
  NoDup (map id (fragments (sql_delete a (id_is (id frag)) d)))
  /\ In r (fragments (sql_delete a (id_is (id frag)) d)).
Proof.
  intros ND Hr Hf Tr Tf. unfold sql_delete. cbn [fragments]. split.
  - now apply NoDup_map_filter.
  - apply filter_In. split; [exact Hr |]. apply negb_true_iff.
    apply andb_false_iff. right. unfold id_is. apply String.eqb_neq.
    intros E. assert (r = frag) by (eapply id_injective; eauto).
    congruence.
Qed.

Lemma TTLTier_eqb_eq a b : TTLTier_eqb a b = true <-> a = b.
Proof. destruct a, b; simpl; split; congruence. Qed.

(** One step of [forget]: the row found under an id is deleted unless
    it is permanent. *)
Lemma forget_step_spares r a frag w :
  NoDup (map id (fragments (db w))) ->
  In r (fragments (db w)) -> ttl_tier r = permanent ->
  In frag (fragments (db w)) ->
  TTLTier_eqb (ttl_tier frag) permanent = false ->
  exists ok w',
    (FragmentIndex_deindex O (id frag) (keywords frag) (topic frag)
       (type frag) ;;;
     FragmentStore_delete (id frag) a) w = Return ok w'
    /\ NoDup (map id (fragments (db w')))
    /\ In r (fragments (db w')).
Proof.
  intros ND Hr Tr Hf Tf. eexists _, _. split; [reflexivity |].
  cbn [db]. apply delete_spares; auto.
  intros X. apply TTLTier_eqb_eq in X. congruence.
Qed.

Lemma forget_topic_spares r a ids : forall acc w,
  NoDup (map id (fragments (db w))) ->
  In r (fragments (db w)) -> ttl_tier r = permanent ->
  exists w', final (forget_topic O false a ids acc w) = w'
             /\ NoDup (map id (fragments (db w')))
             /\ In r (fragments (db w')).
Proof.
  induction ids as [| tid rest IH]; intros acc w ND Hr Tr;
    [now exists w |].
  cbn [forget_topic]. unfold FragmentStore_getById at 1.
  unfold bind at 1. unfold bind at 1. unfold getDB at 1. unfold ret at 1.
  cbv beta iota.
  destruct (hd_error (sql_select a (id_is tid) (db w))) as [frag |] eqn:E;
    [| now apply IH].
  rewrite andb_true_r.
  destruct (TTLTier_eqb (ttl_tier frag) permanent) eqn:T; [now apply IH |].
  apply hd_sql_select in E. destruct E as (Hf & _ & _).
  destruct (forget_step_spares r a frag w ND Hr Tr Hf T)
    as (ok & w' & E' & ND' & Hr').
  unfold bind at 1.
  change (FragmentIndex_deindex O (id frag) (keywords frag) (topic frag)
            (type frag) w)
    with (Return tt (final (FragmentIndex_deindex O (id frag) (keywords frag)
                              (topic frag) (type frag) w))).
  cbv beta iota.
  unfold bind in E'. cbv beta iota in E'.
  change (FragmentIndex_deindex O (id frag) (keywords frag) (topic frag)
            (type frag) w)
    with (Return tt (final (FragmentIndex_deindex O (id frag) (keywords frag)
                              (topic frag) (type frag) w))) in E'.
  cbv beta iota in E'.
  unfold bind at 1. rewrite E'. now apply IH.
Qed.

Lemma forget_by_topic_spares r p a acc w :
  fp_force p = false ->
  NoDup (map id (fragments (db w))) ->
  In r (fragments (db w)) -> ttl_tier r = permanent ->
  In r (fragments (db (final (forget_by_topic O p a acc w)))).
Proof.
  intros F ND Hr Tr. unfold forget_by_topic. rewrite F.
  destruct (fp_topic p) as [| c0 s0]; [exact Hr |].
  unfold FragmentIndex_searchByTopic, bind, getRedis, ret. cbv beta iota.
  destruct (forget_topic_spares r a
              (if ready (redis w) then frag_tp (redis w) (String c0 s0)
               else [])
              acc w ND Hr Tr) as (w' & -> & _ & H).
  exact H.
Qed.

(** X25.  Without [force], [forget] deletes no permanent fragment, by id or
    by topic. *)
Theorem forget_spares_permanent p w r :
  NoDup (map id (fragments (db w))) ->
  fp_force p = false ->
  In r (fragments (db w)) -> ttl_tier r = permanent ->
  In r (fragments (db (final (MemoryManager_forget O p w)))).
Proof.
  intros ND F Hr Tr. unfold MemoryManager_forget.
  set (a := Sor (fp_agentId p) "default").
  destruct (fp_id p) as [| c i'] eqn:Ei; [now apply forget_by_topic_spares |].
  unfold FragmentStore_getById at 1.
  unfold bind at 1. unfold bind at 1. unfold getDB at 1. unfold ret at 1.
  cbv beta iota.
  destruct (hd_error (sql_select a (id_is (String c i')) (db w)))
    as [frag |] eqn:E; [| exact Hr].
  rewrite F. rewrite andb_true_r.
  destruct (TTLTier_eqb (ttl_tier frag) permanent) eqn:T; [exact Hr |].
  apply hd_sql_select in E. destruct E as (Hf & _ & _).
  destruct (forget_step_spares r a frag w ND Hr Tr Hf T)
    as (ok & w' & E' & ND' & Hr').
  unfold bind at 1.
  change (FragmentIndex_deindex O (id frag) (keywords frag) (topic frag)
            (type frag) w)
    with (Return tt (final (FragmentIndex_deindex O (id frag) (keywords frag)
                              (topic frag) (type frag) w))).
  cbv beta iota.
  unfold bind in E'. cbv beta iota in E'.
  change (FragmentIndex_deindex O (id frag) (keywords frag) (topic frag)
            (type frag) w)
    with (Return tt (final (FragmentIndex_deindex O (id frag) (keywords frag)
                              (topic frag) (type frag) w))) in E'.
  cbv beta iota in E'.
  unfold bind at 1. rewrite E'. now apply forget_by_topic_spares.
Qed.

Lemma keeps_key_updates now u :
  keeps_key (fun r => set_access (access_count r) (Some now)
                        (set_verified_at (Some now) (apply_updates O u r))).
Proof.
  intros r. split; simpl; [| apply agent_apply_updates].
  unfold apply_updates, opt_set.
  destruct (u_is_anchor u), (u_importance u), (u_type u), (u_keywords u),
    (u_topic u), (u_content u); reflexivity.
Qed.

(** After an [update] that returned a row, the agent still finds a row
    under the id. *)
Lemma update_row_stays now i u a w r w1 :
  FragmentStore_update O now i u a w = Return (UpdRow r) w1 ->
  exists r1, hd_error (sql_select a (id_is i) (db w1)) = Some r1.
Proof.
  unfold FragmentStore_update, FragmentStore_getById,
    FragmentStore_archiveVersion, modifyDB.
  unfold bind at 1. unfold bind at 1. unfold getDB at 1. unfold ret at 1.
  cbv beta iota.
  destruct (hd_error (sql_select a (id_is i) (db w))) as [e |] eqn:E;
    [| discriminate].
  unfold bind, getDB, putDB, ret. cbn [db redis llm_calls].
  destruct (match u_content u with Some _ => _ | None => _ end);
    [| discriminate].
  destruct (no_updates u).
  - intros H. injection H as <- <-. cbn [db].
    rewrite sql_select_archive, E. eauto.
  - unfold sql_update_row, bind, getDB, putDB, ret, throw.
    cbn [db redis llm_calls]. rewrite sql_select_archive.
    destruct (sql_select a (id_is i) (db w)) as [| x t] eqn:Es;
      [discriminate |].
    destruct (_ && _)%bool; [discriminate |].
    destruct (negb (check_importance _)); [discriminate |].
    intros H. injection H as <- <-. cbn [db].
    rewrite sql_select_update by apply keeps_key_updates.
    rewrite sql_select_archive, Es. simpl. eauto.
Qed.

(** X26.  [amend] with [supersedes] links the fragment to "the old one" and
    lowers the old one's importance to 0.3; but old and new are the same
    row.  So the amended fragment ends up with an edge to itself, its
    own id in [linked_to], and importance 0.3 whatever was asked for. *)
Theorem amend_supersedes_is_self_link now p w res w' :
  ap_supersedes p = true ->
  MemoryManager_amend O now p w = Return (AmendUpdated res) w' ->
  existsb (link_is (ap_id p) (ap_id p)) (fragment_links (db w')) = true
  /\ exists r,
       FragmentStore_getById (ap_id p) (Sor (ap_agentId p) "default") w'
       = Return (Some r) w'
       /\ importance r = 0.3
       /\ In (ap_id p) (linked_to r).
Proof.
  intros S H. unfold MemoryManager_amend in H.
  destruct (ap_id p) as [| c i'] eqn:Ei; [discriminate |].
  rewrite <- Ei in *. clear Ei c i'.
  set (i := ap_id p) in *. set (a := Sor (ap_agentId p) "default") in *.
  apply bind_inv in H. destruct H as (ex & w0 & E0 & H).
  unfold FragmentStore_getById, bind, getDB, ret in E0.
  injection E0 as <- <-.
  destruct (hd_error (sql_select a (id_is i) (db w))) as [existing |] eqn:Ee;
    [| discriminate].
  assert (Hid : id existing = i).
  { apply hd_sql_select in Ee. destruct Ee as (_ & _ & X).
    now apply String.eqb_eq in X. }
  apply bind_inv in H. destruct H as (upd & w1 & E1 & H).
  destruct upd as [| x | result]; try discriminate.
  assert (Hres : id result = i).
  { revert E1. unfold FragmentStore_update, FragmentStore_getById,
      FragmentStore_archiveVersion, modifyDB.
    unfold bind at 1. unfold bind at 1. unfold getDB at 1. unfold ret at 1.
    cbv beta iota. rewrite Ee.
    unfold bind, getDB, putDB, ret. cbn [db redis llm_calls].
    destruct (match u_content _ with Some _ => _ | None => _ end);
      [| discriminate].
    destruct (no_updates _); [intros X; injection X as <- _; exact Hid |].
    unfold sql_update_row, bind, getDB, putDB, ret, throw.
    cbn [db redis llm_calls]. rewrite sql_select_archive.
    destruct (sql_select a (id_is i) (db w)) as [| y t] eqn:Es;
      [discriminate |].
    simpl in Ee. injection Ee as ->.
    destruct (_ && _)%bool; [discriminate |].
    destruct (negb (check_importance _)); [discriminate |].
    intros X. injection X as <- _.
    rewrite (proj1 (keeps_key_updates now _ existing)). exact Hid. }
  destruct (update_row_stays _ _ _ _ _ _ _ E1) as (r1 & Hr1).
  rewrite S in H.
  apply bind_inv in H. destruct H as (u1 & w2 & E2 & H).
  apply bind_inv in E2. destruct E2 as (u2 & w3 & E3 & E2).
  rewrite Hid, Hres in E3.
  rewrite createLink_Return in E3 by (eapply existsb_id_is; eassumption).
  injection E3 as _ <-.
  set (d2 := createLink_db i i related a (db w1)) in *.
  assert (Hr2 : exists r2, hd_error (sql_select a (id_is i) d2) = Some r2
                           /\ In i (linked_to r2)).
  { unfold d2. rewrite sql_select_createLink, !hd_error_map, Hr1. simpl.
    eexists. split; [reflexivity |].
    apply hd_sql_select in Hr1. destruct Hr1 as (_ & V & I1).
    rewrite V, I1. cbn [andb].
    destruct (mem i (linked_to r1)) eqn:M; cbn [negb].
    - rewrite V, I1, M. cbn [andb negb]. now apply mem_In.
    - replace (visible a (append_link i r1)) with true by (symmetry; exact V).
      replace (id_is i (append_link i r1)) with true by (symmetry; exact I1).
      cbn [andb append_link linked_to set_linked_to].
      rewrite mem_snoc, String.eqb_refl, orb_true_r. cbn [negb].
      cbn [linked_to set_linked_to]. apply in_or_app. right. now left. }
  destruct Hr2 as (r2 & Hr2 & L2).
  apply bind_inv in E2. destruct E2 as (u3 & w4 & E4 & E2).
  rewrite Hid in E4.
  pose proof (update_importance_Return O now i 0.3 a
                (mkWorld d2 (redis w1) (llm_calls w1)) r2 Hr2
                eq_refl eq_refl) as U.
  unfold only_importance in U. rewrite U in E4. clear U.
  injection E4 as _ <-. unfold ret in E2. injection E2 as _ <-.
  apply bind_inv in H. destruct H as (u4 & w5 & E5 & H).
  apply bind_inv in H. destruct H as (u5 & w6 & E6 & H).
  unfold ret in H. injection H as _ <-.
  unfold FragmentIndex_deindex, FragmentIndex_index, modifyRedis, bind,
    getRedis, putRedis in E5, E6.
  injection E5 as _ <-. injection E6 as _ <-.
  cbn [db]. split.
  - unfold sql_update. cbn [fragment_links]. rewrite links_archive.
    unfold d2, createLink_db. simpl. apply upsert_has.
  - unfold FragmentStore_getById, bind, getDB, ret. cbn [db].
    rewrite sql_select_update by apply keeps_key_touch.
    rewrite sql_select_archive, hd_error_map, Hr2. simpl.
    rewrite (sql_select_hd _ _ _ _ Hr2).
    eexists. split; [reflexivity |]. split; [reflexivity | exact L2].
Qed.

End Manager.

Lemma amend_supersedes_is_self_link_witness :
  ap_supersedes amend_superseding = true
  /\ exists res w',
       MemoryManager_amend no_services 5000 amend_superseding node_world
       = Return (AmendUpdated res) w'
       /\ importance res = 0.9
       /\ existsb (link_is "frag-n20" "frag-n20") (fragment_links (db w'))
          = true
       /\ exists r,
            FragmentStore_getById "frag-n20" "default" w'
            = Return (Some r) w'
            /\ importance r = 0.3
            /\ In "frag-n20"%string (linked_to r).
Proof.
  split; [reflexivity |].
  eexists _, _. split; [vm_compute; reflexivity |].
  split; [reflexivity |].
  eapply (amend_supersedes_is_self_link no_services 5000 amend_superseding
            node_world); [reflexivity | vm_compute; reflexivity].
Defined.

Lemma forget_spares_permanent_witness :
  NoDup (map id (fragments (db linked_world)))
  /\ fp_force forget_leaver = false
  /\ In link_keeper (fragments (db linked_world))
  /\ ttl_tier link_keeper = permanent
  /\ List.length (fragments (db (final (MemoryManager_forget no_services
                                          forget_leaver linked_world))))
     = 1%nat
  /\ In link_keeper
       (fragments (db (final (MemoryManager_forget no_services forget_leaver
                                linked_world)))).
Proof.
  assert (ND : NoDup (map id (fragments (db linked_world)))).
  { simpl. repeat constructor; simpl; intuition discriminate. }
  assert (Hin : In link_keeper (fragments (db linked_world))) by now left.
  split; [exact ND |]. split; [reflexivity |]. split; [exact Hin |].
  split; [reflexivity |]. split; [vm_compute; reflexivity |].
  exact (forget_spares_permanent no_services forget_leaver linked_world
           link_keeper ND eq_refl Hin eq_refl).
Defined.

(** ** Deleting all the memory of an agent *)

Section DeleteByAgent.
Local Open Scope list_scope.


End DeleteByAgent.

(** ** The merge stage under the unique index on [content_hash] *)

Section MergeIdle.
Local Open Scope list_scope.

Lemma unique_hash_group l h :
  NoDup (map content_hash l) ->
  (List.length (filter (fun r => String.eqb (content_hash r) h) l) <= 1)%nat.
Proof.
  induction l as [| r t IH]; simpl; intros H; [lia |].
  inversion H as [| ? ? Hn Ht]; subst.
  destruct (String.eqb_spec (content_hash r) h) as [E | N]; [| now apply IH].
  simpl. rewrite filter_none; [simpl; lia |].
  intros x Hx. apply String.eqb_neq. intros X. apply Hn.
  rewrite E, <- X. now apply in_map.
Qed.

Lemma dup_groups_unique d :
  NoDup (map content_hash (fragments d)) -> dup_groups d = [].
Proof.
  intros H. unfold dup_groups. rewrite sql_select_system_all.
  rewrite filter_none; [reflexivity |].
  intros ids Hi. apply in_map_iff in Hi. destruct Hi as (h & <- & _).
  apply Nat.ltb_ge. rewrite length_map.
  rewrite (Permutation_length (sort_by_perm _ merge_order _)).
  now apply unique_hash_group.
Qed.

(** X28.  The schema makes [content_hash] unique.  On a table that satisfies
    the index no hash is held by two rows, so [_mergeDuplicates] finds
    no group; it returns 0 and changes nothing. *)
Theorem mergeDuplicates_idle_under_unique_index w :
  NoDup (map content_hash (fragments (db w))) ->
  _mergeDuplicates w = Return 0%nat w.
Proof.
  intros H. unfold _mergeDuplicates, bind, getDB. cbv beta iota.
  rewrite (dup_groups_unique _ H). reflexivity.
Qed.

Lemma mergeDuplicates_idle_under_unique_index_witness :
  NoDup (map content_hash (fragments (db agents_world)))
  /\ _mergeDuplicates agents_world = Return 0%nat agents_world.
Proof.
  assert (H : NoDup (map content_hash (fragments (db agents_world)))).
  { simpl. repeat constructor; simpl; intuition discriminate. }
  split; [exact H |].
  exact (mergeDuplicates_idle_under_unique_index agents_world H).
Defined.

(** *** The unique index under the writes of the store *)

Lemma NoDup_map_change A B (k : A -> B) (g : A -> A) l :
  NoDup (map k l) ->
  (forall x y, In x l -> In y l -> k (g x) = k (g y) -> k x = k y) ->
  NoDup (map k (map g l)).
Proof.
  induction l as [| x t IH]; simpl; intros H Hg; [constructor |].
  inversion H as [| ? ? Hn Ht]; subst. constructor.
  - intros X. apply in_map_iff in X. destruct X as (gy & E & Hy).
    apply in_map_iff in Hy. destruct Hy as (y & <- & Hy).
    apply Hn. rewrite <- (Hg y x); auto. now apply in_map.
  - apply IH; [exact Ht |]. intros a b Ha Hb. apply Hg; now right.
Qed.

Lemma admissible_update a p f d :
  (forall x, id (f x) = id x) ->
  (forall x, content_hash (f x) = content_hash x) ->
  admissible d -> admissible (sql_update a p f d).
Proof.
  intros Hi Hh [A1 A2]. unfold admissible, unique_hashes, sql_update in *.
  cbn [fragments]. split.
  - rewrite map_map. rewrite (map_ext _ id); [exact A1 |].
    intros x. now destruct (_ && _)%bool.
  - rewrite map_map. rewrite (map_ext _ content_hash); [exact A2 |].
    intros x. now destruct (_ && _)%bool.
Qed.

Lemma admissible_delete a p d : admissible d -> admissible (sql_delete a p d).
Proof.
  intros [A1 A2]. unfold admissible, unique_hashes, sql_delete in *.
  cbn [fragments]. split; [now apply NoDup_map_filter |].
  clear A1. induction (fragments d) as [| x t IH]; simpl; [constructor |].
  inversion A2 as [| ? ? Hn Ht]; subst.
  destruct (negb _); simpl; [| now apply IH].
  constructor; [| now apply IH].
  intros X. apply Hn. apply in_map_iff in X. destruct X as (y & E & Hy).
  apply filter_In in Hy. apply in_map_iff. exists y. tauto.
Qed.

Lemma admissible_archive now r a d :
  admissible d -> admissible (archive_db now r a d).
Proof.
  unfold archive_db. now destruct (existsb _ _).
Qed.

(** [insert], [update] and [delete], the statements that write the
    [fragments] table on behalf of a caller, leave one row per id and one
    row per content hash: a table that the primary key and the unique
    index admit stays one, whether the call returns or throws. *)
Lemma writers_keep_admissible O now :
  (forall f, keeps (on_db admissible) (FragmentStore_insert O now f))
  /\ (forall i u a,
        keeps (on_db admissible) (FragmentStore_update O now i u a))
  /\ (forall i a, keeps (on_db admissible) (FragmentStore_delete i a)).
Proof.
  split; [| split].
  - intros f w A. unfold on_db in *.
    unfold FragmentStore_insert, bind, getDB. cbv beta iota zeta.
    destruct (sql_select _ _ (db w)); [| exact A].
    unfold sql_insert_fragment, bind, getDB, putDB, ret, throw.
    cbn [db id content_hash].
    destruct (find _ (fragments (db w))) as [r |] eqn:Ef.
    + destruct (visible _ r); [| exact A]. cbn [final db].
      apply admissible_update; [reflexivity | reflexivity | exact A].
    + destruct (mem (id f) _) eqn:M; [exact A |].
      destruct (negb (check_importance _)); [exact A |].
      destruct (negb (visible _ _)); [exact A |].
      cbn [final db]. destruct A as [A1 A2].
      unfold admissible, unique_hashes. cbn [fragments].
      rewrite !map_app. cbn [map id content_hash].
      split; apply NoDup_snoc; try assumption.
      * intros X. apply mem_In in X. congruence.
      * intros X. apply in_map_iff in X. destruct X as (y & E & Hy).
        apply (find_none _ _ Ef) in Hy. apply String.eqb_neq in Hy.
        congruence.
  - intros i u a w A. unfold on_db in *.
    unfold FragmentStore_update, FragmentStore_getById,
      FragmentStore_archiveVersion, modifyDB, sql_update_row, bind, getDB,
      putDB, ret, throw. cbn [final db].
    destruct (sql_select a (id_is i) (db w)) as [| r t] eqn:E; cbn [hd_error];
      [exact A |].
    cbn [final db].
    assert (A' := admissible_archive now r a (db w) A).
    destruct (match u_content u with Some _ => _ | None => _ end);
      cbn [final db]; [| exact A'].
    destruct (no_updates u); cbn [final db]; [exact A' |].
    rewrite sql_select_archive, E.
    match goal with
    | |- context [if (negb (String.eqb ?h' ?h) && existsb ?q ?l)%bool
                  then _ else _] =>
        destruct (negb (String.eqb h' h) && existsb q l)%bool eqn:C
    end; cbn [final db]; [exact A' |].
    destruct (negb (check_importance _)); cbn [final db]; [exact A' |].
    set (f := fun r0 => set_access (access_count r0) (Some now)
                          (set_verified_at (Some now) (apply_updates O u r0)))
      in *.
    change (set_access (access_count r) (Some now)
              (set_verified_at (Some now) (apply_updates O u r)))
      with (f r) in C.
    assert (Hr : In r (fragments (db w)) /\ id r = i).
    { assert (X : In r (sql_select a (id_is i) (db w)))
        by (rewrite E; now left).
      apply In_sql_select in X. destruct X as (X1 & _ & X3).
      split; [exact X1 | now apply String.eqb_eq]. }
    destruct Hr as [Hin Hid].
    assert (Hfr : fragments (archive_db now r a (db w)) = fragments (db w)).
    { unfold archive_db.
      now destruct (existsb (id_is (id r)) (fragments (db w))). }
    destruct A' as [A1 A2]. unfold unique_hashes in A2.
    rewrite Hfr in A1, A2, C.
    assert (Hone : forall x, In x (fragments (db w)) -> id_is i x = true ->
                     x = r).
    { intros x Hx Hi. apply String.eqb_eq in Hi.
      apply (id_injective (fragments (db w))); congruence. }
    assert (Hother : forall y, In y (fragments (db w)) ->
                       id_is i y = false ->
                       content_hash (f r) = content_hash y ->
                       content_hash (f r) = content_hash r).
    { intros y Hy Hi Eh. apply andb_false_iff in C.
      destruct C as [C | C].
      - apply negb_false_iff, String.eqb_eq in C. exact C.
      - exfalso. rewrite <- not_true_iff_false in C. apply C.
        apply existsb_exists. exists y. split; [exact Hy |].
        rewrite Hi. cbn [negb andb]. apply String.eqb_eq. auto. }
    clear C.
    unfold admissible, unique_hashes, sql_update.
    cbn [fragments]. rewrite Hfr. split.
    + rewrite map_map. rewrite (map_ext _ id); [exact A1 |].
      intros x. destruct (visible a x && id_is i x)%bool; [| reflexivity].
      apply (keeps_key_updates O now u).
    + apply NoDup_map_change; [exact A2 |].
      intros x y Hx Hy.
      destruct (visible a x && id_is i x)%bool eqn:Cx;
        destruct (visible a y && id_is i y)%bool eqn:Cy.
      * apply andb_true_iff in Cx, Cy. intros _.
        rewrite (Hone x), (Hone y); tauto.
      * apply andb_true_iff in Cx. destruct Cx as [_ Cx].
        rewrite (Hone x Hx Cx). intros Eh.
        destruct (id_is i y) eqn:Iy.
        { now rewrite (Hone y Hy Iy). }
        { rewrite <- Eh. symmetry. now apply (Hother y). }
      * apply andb_true_iff in Cy. destruct Cy as [_ Cy].
        rewrite (Hone y Hy Cy). intros Eh.
        destruct (id_is i x) eqn:Ix.
        { now rewrite (Hone x Hx Ix). }
        { rewrite Eh. now apply (Hother x). }
      * auto.
  - intros i a w A. unfold on_db in *.
    unfold FragmentStore_delete, bind, getDB, putDB, ret. cbn [final db].
    now apply admissible_delete.
Qed.

(** *** The sets of one content hash *)




End MergeIdle.

(** ** What [remember] stores *)

Section Remember.
Variable O : Oracles.
Local Open Scope list_scope.

Lemma same_keys_update ks a p f d :
  keeps_content f -> same_keys ks d -> same_keys ks (sql_update a p f d).
Proof.
  intros Hf H. unfold same_keys, sql_update in *. simpl. rewrite <- H.
  rewrite map_map. apply map_ext. intros r.
  destruct (visible a r && p r)%bool; [apply Hf | reflexivity].
Qed.

Lemma keeps_content_append_link t : keeps_content (append_link t).
Proof. intros r. reflexivity. Qed.

Lemma keeps_keys_createLink ks f t rel a :
  keeps (on_db (same_keys ks)) (FragmentStore_createLink f t rel a).
Proof.
  intros w H. unfold FragmentStore_createLink, sql_upsert_link, modifyDB,
    bind, getDB, putDB, ret, throw, on_db in *. simpl.
  destruct (existsb (id_is f) (fragments (db w))
            && existsb (id_is t) (fragments (db w)))%bool;
    simpl; [| exact H].
  apply same_keys_update; [apply keeps_content_append_link |].
  apply same_keys_update; [apply keeps_content_append_link |]. exact H.
Qed.

Lemma keeps_keys_incrementAccess ks now l a :
  keeps (on_db (same_keys ks)) (FragmentStore_incrementAccess now l a).
Proof.
  apply keeps_incrementAccess. intros d H.
  apply same_keys_update; [| exact H]. intros r. reflexivity.
Qed.

Ltac keys_leaf :=
  first [ apply keeps_modifyRedis | apply keeps_putRedis
        | apply keeps_keys_createLink | apply keeps_keys_incrementAccess ].

Lemma keeps_keys_search ks now q :
  keeps (on_db (same_keys ks)) (FragmentSearch_search O now q).
Proof.
  unfold FragmentSearch_search, search_answer, search_started, _searchL1,
    _tryHotCache, mapM_cache,
    _searchL2, _searchL3, _cacheFragments, FragmentIndex_searchByKeywords,
    FragmentIndex_searchByTopic, FragmentIndex_searchByType,
    FragmentIndex_getRecent, FragmentStore_searchByKeywords,
    FragmentStore_getByIds, FragmentStore_searchBySemantic,
    FragmentIndex_cacheFragment.
  keeps_auto keys_leaf.
Qed.

Lemma keeps_keys_autoLink ks now f a :
  keeps (on_db (same_keys ks)) (_autoLinkOnRemember O now f a).
Proof. unfold _autoLinkOnRemember. keeps_auto keys_leaf. Qed.

Lemma keeps_keys_detectConflicts ks now c t i :
  keeps (on_db (same_keys ks)) (_detectConflicts O now c t i).
Proof.
  unfold _detectConflicts. apply keeps_try_catch; [| apply keeps_ret].
  apply keeps_bind; [apply keeps_keys_search | intros; apply keeps_ret].
Qed.

(** [insert] leaves the keys of the table, or appends the key of the new
    row. *)
Lemma insert_keys now f w i w1 :
  FragmentStore_insert O now f w = Return i w1 ->
  map row_key (fragments (db w1)) = map row_key (fragments (db w))
  \/ i = id f
     /\ map row_key (fragments (db w1))
        = map row_key (fragments (db w))
          ++ [(id f, content f, Sor (agent_id f) "default")].
Proof.
  unfold FragmentStore_insert, bind, getDB. cbv beta iota.
  destruct (sql_select _ _ (db w)) as [| dup t].
  2:{ intros H. injection H as _ <-. now left. }
  unfold sql_insert_fragment, bind, getDB, putDB, ret, throw.
  cbn [db id content_hash].
  destruct (find _ (fragments (db w))) as [r |].
  - destruct (visible _ r); [| discriminate].
    intros H. injection H as _ <-. left. cbn [db].
    apply same_keys_update; [| reflexivity]. intros x. reflexivity.
  - destruct (mem (id f) _); [discriminate |].
    destruct (negb (check_importance _)); [discriminate |].
    destruct (negb (visible _ _)); [discriminate |].
    intros H. injection H as <- <-. right. cbn [db fragments].
    split; [apply Sor_same |]. now rewrite map_app.
Qed.

(** X29.  A [remember] that returns leaves the id, the content and the owner
    of every stored fragment as they were, and adds at most one row: the
    one that the factory built, under the generated id, with the trimmed,
    redacted and truncated content. *)
Theorem remember_adds_at_most_one_row now newId p w res w' :
  MemoryManager_remember O now newId p w = Return res w' ->
  exists f,
    FragmentFactory_create O newId p = Some f
    /\ (map row_key (fragments (db w')) = map row_key (fragments (db w))
        \/ rr_id res = newId
           /\ map row_key (fragments (db w'))
              = map row_key (fragments (db w))
                ++ [(newId, truncate (_redactPII (trim (p_content p))),
                     Sor (p_agentId p) "default")]).
Proof.
  intros H. unfold MemoryManager_remember in H.
  destruct (FragmentFactory_create O newId p) as [f |] eqn:Ec.
  2:{ destruct (_ && _)%bool; discriminate. }
  exists f. split; [reflexivity |].
  assert (Hf : id f = newId
               /\ content f = truncate (_redactPII (trim (p_content p)))).
  { unfold FragmentFactory_create in Ec.
    destruct (trim (p_content p)); [discriminate |].
    injection Ec as <-. split; reflexivity. }
  destruct Hf as [Hid Hct].
  destruct (_ && _)%bool.
  - left. unfold FragmentIndex_addToWorkingMemory, modifyRedis, bind,
      getRedis, putRedis, ret in H.
    injection H as _ <-. reflexivity.
  - apply bind_inv in H. destruct H as (i & w1 & Ei & H).
    set (ks := map row_key (fragments (db w1))).
    match type of H with ?m w1 = _ =>
      assert (Hh : hoare (on_db (same_keys ks)) m
                     (fun r w2 => rr_id r = i /\ on_db (same_keys ks) w2))
    end.
    { eapply hoare_bind.
      { apply hoare_keeps; [unfold FragmentIndex_index; returns_auto |].
        unfold FragmentIndex_index. keeps_auto keys_leaf. }
      intros ?. eapply hoare_bind.
      { apply hoare_keeps; [returns_auto | keeps_auto keys_leaf]. }
      intros ?. eapply hoare_bind.
      { apply hoare_keeps;
          [apply returns_detectConflicts | apply keeps_keys_detectConflicts]. }
      intros conflicts. eapply hoare_bind.
      { apply hoare_keeps; [returns_auto |].
        apply keeps_try_catch; [apply keeps_keys_autoLink | apply keeps_ret]. }
      intros ?. eapply hoare_bind.
      { apply hoare_keeps; [unfold pushToQueue; returns_auto |].
        unfold pushToQueue. keeps_auto keys_leaf. }
      intros ?. apply hoare_ret. intros w2 Hw2.
      split; [reflexivity | exact Hw2]. }
    destruct (Hh w1) as (r & w2 & E & Hr & Hw2); [reflexivity |].
    rewrite E in H. injection H as <- <-.
    unfold on_db, same_keys in Hw2. rewrite Hw2. unfold ks.
    apply insert_keys in Ei. cbn [id content agent_id set_agent_id] in Ei.
    rewrite Sor_default, Hid, Hct in Ei.
    destruct Ei as [Ei | [Ei1 Ei2]]; [now left |].
    right. split; [congruence | exact Ei2].
Qed.




End Remember.

Lemma remember_adds_at_most_one_row_witness :
  exists res w',
    MemoryManager_remember no_services 5000 "frag-al" alice_tabs agents_world
    = Return res w'
    /\ exists f,
         FragmentFactory_create no_services "frag-al" alice_tabs = Some f
         /\ (map row_key (fragments (db w'))
             = map row_key (fragments (db agents_world))
             \/ rr_id res = "frag-al"%string
                /\ map row_key (fragments (db w'))
                   = map row_key (fragments (db agents_world))
                     ++ [("frag-al"%string,
                          truncate (_redactPII (trim (p_content alice_tabs))),
                          Sor (p_agentId alice_tabs) "default")]).
Proof.
  eexists _, _. split; [vm_compute; reflexivity |].
  apply (remember_adds_at_most_one_row no_services 5000 "frag-al" alice_tabs
           agents_world).
  vm_compute. reflexivity.
Defined.

(** ** [remember] with the session scope and no session *)



(** With a [sessionId], the same call goes to working memory and the
    database stays as it was. *)
Lemma session_scope_with_session_skips_store :
  let run := MemoryManager_remember no_services 3000 "frag-new"
               (mkParams (js "Node 20 is required.") "stack" (Some fact) []
                  None None [] "" "s-1" "session" false) node_world in
  option_map rr_scope (result run) = Some "session"%string
  /\ db (final run) = db node_world
  /\ map wm_id (frag_wm (redis (final run)) "s-1") = ["frag-new"%string].
Proof. cbv zeta. repeat split; vm_compute; reflexivity. Qed.

(** ** What a consolidation run keeps *)

Section Consolidation.
Variable O : Oracles.
Variable r : Fragment.
Hypothesis shielded : is_anchor r = true \/ ttl_tier r = permanent.
Local Open Scope list_scope.

Lemma inv_update a p f d :
  gentle p f -> run_inv r d -> run_inv r (sql_update a p f d).
Proof.
  intros G [U (r' & Hin & Hid & Hc & Ha & Ht)]. split.
  - unfold unique_hashes, sql_update in *. cbn [fragments].
    rewrite map_map.
    rewrite (map_ext _ content_hash); [exact U |].
    intros x. destruct (visible a x && p x)%bool eqn:E; [| reflexivity].
    apply andb_true_iff in E. now apply G.
  - exists (if (visible a r' && p r')%bool then f r' else r').
    split.
    + unfold sql_update. cbn [fragments]. apply in_map_iff. now exists r'.
    + destruct (visible a r' && p r')%bool eqn:E; [| auto].
      apply andb_true_iff in E. destruct E as [_ E].
      destruct (G r' E) as (G1 & G2 & _ & G4 & G5).
      repeat split; try congruence; auto.
Qed.

Lemma NoDup_hash_filter (p : Fragment -> bool) l :
  NoDup (map content_hash l) -> NoDup (map content_hash (filter p l)).
Proof.
  induction l as [| x t IH]; simpl; intros H; [constructor |].
  inversion H as [| ? ? Hn Ht]; subst.
  destruct (p x); simpl; [| now apply IH].
  constructor; [| now apply IH].
  intros Hin. apply Hn. apply in_map_iff in Hin. destruct Hin as (y & E & Hy).
  apply filter_In in Hy. apply in_map_iff. exists y. tauto.
Qed.

Lemma inv_deleteExpired now d :
  run_inv r d -> run_inv r (sql_delete "system" (expired now) d).
Proof.
  intros [U (r' & Hin & Hid & Hc & Ha & Ht)]. split.
  - unfold unique_hashes, sql_delete in *. cbn [fragments].
    now apply NoDup_hash_filter.
  - exists r'. split; [| auto].
    apply sql_delete_skips; [exact Hin |]. unfold expired.
    destruct shielded as [S | S].
    + rewrite (Ha S). simpl. now rewrite !andb_false_r.
    + rewrite (Ht S). simpl. now rewrite !andb_false_r.
Qed.

Lemma gentle_set_ttl p : gentle p (set_ttl_tier permanent).
Proof. intros ? _. repeat split; auto. Qed.

Lemma gentle_append p t : gentle p (append_link t).
Proof. intros ? _. repeat split; auto. Qed.

Lemma keeps_inv_createLink f t rel a :
  keeps (on_db (run_inv r)) (FragmentStore_createLink f t rel a).
Proof.
  intros w H. unfold FragmentStore_createLink, sql_upsert_link, modifyDB,
    bind, getDB, putDB, ret, throw, on_db in *. simpl.
  destruct (existsb (id_is f) (fragments (db w))
            && existsb (id_is t) (fragments (db w)))%bool;
    simpl; [| exact H].
  apply inv_update; [apply gentle_append |].
  apply inv_update; [apply gentle_append |]. exact H.
Qed.

Lemma gentle_cold now : gentle (goes_cold now) (set_ttl_tier cold).
Proof.
  intros x Hx. unfold goes_cold in Hx. apply andb_true_iff in Hx.
  destruct Hx as [Hx _]. repeat split; auto.
  intros T. rewrite T in Hx. discriminate.
Qed.

Lemma keeps_inv_transitionTTL now :
  keeps (on_db (run_inv r)) (FragmentStore_transitionTTL now).
Proof.
  unfold FragmentStore_transitionTTL.
  keeps_auto ltac:(apply keeps_modifyDB; intros d H; apply inv_update;
                   [first [apply gentle_set_ttl | apply gentle_cold]
                   | exact H]).
Qed.

Lemma keeps_inv_logLLM a b : keeps (on_db (run_inv r)) (logLLM a b).
Proof. intros w H. exact H. Qed.

Lemma keeps_inv_halve i : keeps (on_db (run_inv r)) (halve i).
Proof.
  unfold halve. apply keeps_modifyDB. intros d H. apply inv_update; auto.
  intros ? _. repeat split; auto.
Qed.

Ltac inv_leaf :=
  first [ apply keeps_modifyRedis | apply keeps_putRedis
        | apply keeps_inv_logLLM | apply keeps_inv_createLink
        | apply keeps_inv_halve ].

Lemma keeps_inv_resolve newFrag candidate :
  keeps (on_db (run_inv r)) (_resolveContradiction newFrag candidate).
Proof. unfold _resolveContradiction. keeps_auto inv_leaf. Qed.

Lemma keeps_inv_detect now :
  keeps (on_db (run_inv r)) (_detectContradictions O now).
Proof.
  unfold _detectContradictions, check_pair, escalate,
    _askGeminiContradiction, _flagPotentialContradiction.
  keeps_auto ltac:(first [apply keeps_inv_resolve | inv_leaf]).
Qed.

Lemma keeps_inv_drain batch : forall processed,
  keeps (on_db (run_inv r)) (drain_pending O batch processed).
Proof.
  induction batch as [| n IH]; intros processed; cbn [drain_pending].
  - apply keeps_ret.
  - apply keeps_bind; [apply keeps_getRedis | intros rd].
    destruct (pending_contradictions rd) as [| entry rest];
      [apply keeps_ret |].
    apply keeps_bind; [apply keeps_putRedis | intros _].
    intros w H.
    match goal with
    | |- context [match ?m w with Return _ _ => _ | Throw _ => _ end] =>
        assert (K : keeps (on_db (run_inv r)) m)
    end.
    { unfold _askGeminiContradiction.
      keeps_auto ltac:(first [apply keeps_inv_resolve | inv_leaf]). }
    specialize (K w H).
    match goal with
    | |- context [match ?m w with Return _ _ => _ | Throw _ => _ end] =>
        destruct (m w) as [resolved w1 | w1]
    end.
    + now apply IH.
    + exact K.
Qed.

Lemma keeps_inv_embeddings n :
  keeps (on_db (run_inv r)) (FragmentStore_generateMissingEmbeddings O n).
Proof.
  unfold FragmentStore_generateMissingEmbeddings.
  keeps_auto ltac:(first
    [ apply keeps_modifyDB; intros d H; apply inv_update; auto;
      intros ? _; repeat split; auto
    | inv_leaf ]).
Qed.

Lemma keeps_inv_merge : keeps (on_db (run_inv r)) _mergeDuplicates.
Proof.
  intros w H. unfold _mergeDuplicates, bind, getDB. cbv beta iota.
  rewrite (dup_groups_unique _ (proj1 H)). exact H.
Qed.

(** X30.  Under the unique index on [content_hash], a consolidation run never
    deletes an anchored or a permanent fragment and never changes its
    content: the fragment is still stored under its id afterwards, still
    anchored if it was, still permanent if it was.  The run never
    throws. *)
Theorem consolidate_keeps_anchors_and_permanent now w :
  unique_hashes (db w) -> In r (fragments (db w)) ->
  exists res w',
    consolidate O now w = Return res w'
    /\ survives r (db w') /\ unique_hashes (db w').
Proof.
  intros U Hin.
  assert (R : returns (consolidate O now))
    by (apply returns_try_catch, returns_ret).
  destruct (R w) as (res & w' & E). exists res, w'. split; [exact E |].
  assert (K : keeps (on_db (run_inv r)) (consolidate O now)).
  { unfold consolidate. apply keeps_try_catch; [| apply keeps_ret].
    apply keeps_bind; [| intros ?].
    { unfold _transitionWithCount.
      apply keeps_bind; [apply keeps_getDB | intros ?].
      apply keeps_bind; [apply keeps_inv_transitionTTL | intros ?].
      keeps_auto inv_leaf. }
    apply keeps_bind; [| intros ?].
    { apply keeps_modifyDB. intros d H. apply inv_update; auto.
      intros ? _. repeat split; auto. }
    apply keeps_bind; [| intros ?].
    { intros w0 H. apply (inv_deleteExpired now (db w0) H). }
    apply keeps_bind; [apply keeps_inv_merge | intros ?].
    apply keeps_bind; [apply keeps_inv_embeddings | intros ?].
    apply keeps_bind; [| intros ?].
    { intros w0 H. unfold _updateUtilityScores, bind, getDB, putDB.
      cbn [final db]. apply inv_update; auto.
      intros ? _. repeat split; auto. }
    apply keeps_bind; [| intros ?].
    { intros w0 H. unfold _promoteAnchors, bind, getDB, putDB.
      cbn [final db]. apply inv_update; auto.
      intros ? _. repeat split; auto. }
    apply keeps_bind; [apply keeps_inv_detect | intros ?].
    apply keeps_bind; [| intros ?].
    { unfold _processPendingContradictions.
      keeps_auto ltac:(first [apply keeps_inv_drain | inv_leaf]). }
    unfold pruneKeywordIndexes. keeps_auto inv_leaf. }
  assert (I0 : on_db (run_inv r) w).
  { split; [exact U |]. exists r. repeat split; auto. }
  specialize (K w I0). rewrite E in K. destruct K as [K1 K2]. auto.
Qed.

End Consolidation.

Lemma consolidate_keeps_anchors_and_permanent_witness :
  (is_anchor idle_anchor = true \/ ttl_tier idle_anchor = permanent)
  /\ unique_hashes (db idle_world)
  /\ In idle_anchor (fragments (db idle_world))
  /\ exists res w',
       consolidate no_services idle_now idle_world = Return res w'
       /\ survives idle_anchor (db w') /\ unique_hashes (db w').
Proof.
  assert (S : is_anchor idle_anchor = true \/ ttl_tier idle_anchor = permanent)
    by now left.
  assert (U : unique_hashes (db idle_world)).
  { unfold unique_hashes. simpl. repeat constructor. simpl. tauto. }
  assert (H : In idle_anchor (fragments (db idle_world))) by now left.
  split; [exact S |]. split; [exact U |]. split; [exact H |].
  exact (consolidate_keeps_anchors_and_permanent no_services idle_anchor S
           idle_now idle_world U H).
Defined.
